(** * Anderson acceleration: a model of [AndersonAcceleration.hpp]

    The class [AndersonAcceleration] keeps a window of the last [m_]
    increments of the iterate ([prev_dG_]) and of the residual
    ([prev_dF_]) in two column-major Eigen matrices, a Gram matrix [M_]
    of the normalised residual increments, and mixes them in [compute].

    The embedding follows the header line by line.

    - [Scalar] is the build-time typedef ([double] or [float]).  The model
      is generic in a record of scalar operations [ScalarOps]; two
      instances are given: [DoubleOps], the binary64 arithmetic of the
      header's default [typedef double Scalar] (Rocq's primitive floats), on
      which the model runs and the properties that depend on the arithmetic
      of the code are proved, and [RealOps], the exact arithmetic of the
      real numbers, on which the algebraic properties of the method are
      proved.
    - A [VectorX] is the list of its coefficients, a [MatrixXX] the list of
      its columns (Eigen's default storage order is column-major).
    - A [const Scalar*] argument is the sequence of scalars readable from
      the pointer; [Eigen::Map<const VectorX>(p, n)] reads the first [n].
    - [assert] and Eigen's own [eigen_assert] abort the call: operations
      return an [outcome].
    - [Eigen::CompleteOrthogonalDecomposition] belongs to Eigen, not to this
      header: the solver is a parameter [cod_solve] of the model.
    - [resize] leaves the coefficients of a reallocated buffer
      indeterminate: [init] takes them from an argument [Uninit]. *)

From Stdlib Require Import ZArith Reals Lra Floats Bool Lia.
From stdpp Require Import base list.

Set Default Proof Using "Type".

(** ** Scalars *)

Class ScalarOps (S : Type) := {
  Szero : S;
  Sadd : S -> S -> S;
  Ssub : S -> S -> S;
  Sneg : S -> S;
  Smul : S -> S -> S;
  Sdiv : S -> S -> S;
  Ssqrt : S -> S;
  Sltb : S -> S -> bool;      (* operator< *)
  Seps : S                    (* the literal 1e-14 *)
}.

(** [std::max(a, b)]: [(a < b) ? b : a]. *)
Definition std_max {S} `{ScalarOps S} (a b : S) : S :=
  if Sltb a b then b else a.

(** [typedef double Scalar]: IEEE binary64.  The literal is the binary64
    number nearest to 1e-14. *)
Definition DoubleOps : ScalarOps float := {|
  Szero := 0%float;
  Sadd := PrimFloat.add;
  Ssub := PrimFloat.sub;
  Sneg := PrimFloat.opp;
  Smul := PrimFloat.mul;
  Sdiv := PrimFloat.div;
  Ssqrt := PrimFloat.sqrt;
  Sltb := PrimFloat.ltb;
  Seps := 0x1.6849b86a12b9bp-47%float
|}.

(** Exact arithmetic: the real numbers. *)
Definition RealOps : ScalarOps R := {|
  Szero := 0%R;
  Sadd := Rplus;
  Ssub := Rminus;
  Sneg := Ropp;
  Smul := Rmult;
  Sdiv := Rdiv;
  Ssqrt := R_sqrt.sqrt;
  Sltb := fun x y => if Rlt_dec x y then true else false;
  Seps := 1e-14%R
|}.

#[global] Existing Instances DoubleOps RealOps.

(** ** Outcomes of a call *)

Inductive failure :=
| AssertionFailed          (* an [assert] of the header *)
| EigenAssertionFailed.    (* an [eigen_assert] on a negative size *)

Inductive outcome (A : Type) :=
| Ok (a : A)
| Abort (f : failure).
Arguments Ok {A} a.
Arguments Abort {A} f.

(** ** [int] *)

Definition INT_MAX : Z := 2147483647.

(** [iter_++] on a 32-bit [int], with the two's-complement wrap-around the
    increment compiles to. *)
Definition int_incr (z : Z) : Z := (z + 1 + 2 ^ 31) mod 2 ^ 32 - 2 ^ 31.

(** ** Eigen vectors and matrices *)

Abbreviation VectorX S := (list S) (only parsing).
Abbreviation MatrixXX S := (list (list S)) (only parsing).
Abbreviation ScalarPtr S := (nat -> S) (only parsing).

Section Eigen.
Context {S : Type} {ops : ScalarOps S}.

#[global] Instance scalar_inhabited : Inhabited S := populate Szero.

(** [Eigen::Map<const VectorX>(p, n)]; Eigen asserts [n >= 0]. *)
Definition Map (p : ScalarPtr S) (n : Z) : outcome (VectorX S) :=
  if (n <? 0)%Z then Abort EigenAssertionFailed
  else Ok (map p (seq 0 (Z.to_nat n))).

Definition vadd (a b : VectorX S) : VectorX S := zip_with Sadd a b.
Definition vsub (a b : VectorX S) : VectorX S := zip_with Ssub a b.
Definition vneg (a : VectorX S) : VectorX S := map Sneg a.
(** [a / x] for a scalar [x], and the coefficient-wise [a.array() / b.array()]. *)
Definition vdivs (a : VectorX S) (x : S) : VectorX S := map (fun y => Sdiv y x) a.
Definition vdiv (a b : VectorX S) : VectorX S := zip_with Sdiv a b.

(** [a.dot(b)], [a.squaredNorm()], [a.norm()]. *)
Definition dot (a b : VectorX S) : S := fold_left Sadd (zip_with Smul a b) Szero.
Definition squaredNorm (a : VectorX S) : S := dot a a.
Definition norm (a : VectorX S) : S := Ssqrt (squaredNorm a).

(** [A.col(j)], [A(i, j)] and their assignments. *)
Definition col (A : MatrixXX S) (j : nat) : VectorX S := A !!! j.
Definition coeff (A : MatrixXX S) (i j : nat) : S := (A !!! j) !!! i.
Definition set_col (A : MatrixXX S) (j : nat) (v : VectorX S) : MatrixXX S :=
  <[j := v]> A.
Definition set_coeff (A : MatrixXX S) (i j : nat) (x : S) : MatrixXX S :=
  <[j := <[i := x]> (A !!! j)]> A.

(** [x.head(k) = v]: the first [k] coefficients of [x] are overwritten. *)
Definition set_head (x : VectorX S) (k : nat) (v : VectorX S) : VectorX S :=
  imap (fun i xi => if decide (i < k)%nat then v !!! i else xi) x.

(** [A.block(r, 0, 1, k) = v.transpose()]: row [r] of the first [k] columns. *)
Definition set_row_head (A : MatrixXX S) (r k : nat) (v : VectorX S) : MatrixXX S :=
  imap (fun j cj => if decide (j < k)%nat then <[r := v !!! j]> cj else cj) A.

(** [A.block(0, c, k, 1) = v]: the first [k] rows of column [c]. *)
Definition set_col_head (A : MatrixXX S) (c k : nat) (v : VectorX S) : MatrixXX S :=
  <[c := set_head (A !!! c) k v]> A.

(** [A.block(0, 0, rows, k)] of a matrix with [rows] rows: its first [k]
    columns; [A.block(0, 0, k, k)]. *)
Definition leading_cols (A : MatrixXX S) (k : nat) : MatrixXX S := take k A.
Definition leading_block (A : MatrixXX S) (k : nat) : MatrixXX S :=
  map (take k) (take k A).

(** [(v.transpose() * B).transpose()] and [B.transpose() * v]. *)
Definition row_times (v : VectorX S) (B : MatrixXX S) : VectorX S := map (dot v) B.
Definition transpose_times (B : MatrixXX S) (v : VectorX S) : VectorX S :=
  map (fun cj => dot cj v) B.

(** [B * w] for [B] with [rows] rows: the columns of [B] weighted by [w]. *)
Definition times (rows : nat) (B : MatrixXX S) (w : VectorX S) : VectorX S :=
  fold_left (fun acc cw => zip_with Sadd acc (map (fun x => Smul x cw.2) cw.1))
            (zip B w) (replicate rows Szero).

(** [x.resize(n)], [A.resize(r, c)]: nothing happens when the size is
    the one asked for; otherwise the storage is reallocated and its
    coefficients are indeterminate. *)
Definition has_shape (r c : nat) (A : MatrixXX S) : bool :=
  (length A =? c)%nat && forallb (fun cj => (length cj =? r)%nat) A.
Definition resize_vec (x : VectorX S) (n : nat) (fresh : nat -> S) : VectorX S :=
  if (length x =? n)%nat then x else map fresh (seq 0 n).
Definition resize_mat (A : MatrixXX S) (r c : nat) (fresh : nat -> nat -> S)
  : MatrixXX S :=
  if has_shape r c A then A
  else map (fun j => map (fun i => fresh i j) (seq 0 r)) (seq 0 c).
End Eigen.

(** ** The class *)

Record AndersonAcceleration (S : Type) := {
  current_u_ : VectorX S;
  current_F_ : VectorX S;
  prev_dG_ : MatrixXX S;
  prev_dF_ : MatrixXX S;
  M_ : MatrixXX S;           (* Normal equations matrix for the computing theta *)
  theta_ : VectorX S;        (* theta value computed from normal equations *)
  dF_scale_ : VectorX S;     (* The scaling factor for each column of prev_dF *)
  m_ : Z;                    (* Number of previous iterates used *)
  dim_ : Z;                  (* Dimension of variables *)
  iter_ : Z;                 (* Iteration count since initialization *)
  col_idx_ : Z               (* Index for history matrix column to store the next value *)
}.
Arguments current_u_ {S} _.
Arguments current_F_ {S} _.
Arguments prev_dG_ {S} _.
Arguments prev_dF_ {S} _.
Arguments M_ {S} _.
Arguments theta_ {S} _.
Arguments dF_scale_ {S} _.
Arguments m_ {S} _.
Arguments dim_ {S} _.
Arguments iter_ {S} _.
Arguments col_idx_ {S} _.

(** Indeterminate contents of the buffers that [init] reallocates. *)
Record Uninit (S : Type) := {
  un_F : nat -> S;
  un_dG : nat -> nat -> S;
  un_dF : nat -> nat -> S;
  un_M : nat -> nat -> S;
  un_theta : nat -> S;
  un_scale : nat -> S
}.
Arguments un_F {S} _.
Arguments un_dG {S} _.
Arguments un_dF {S} _.
Arguments un_M {S} _.
Arguments un_theta {S} _.
Arguments un_scale {S} _.

Section Accelerator.
Context {S : Type} {ops : ScalarOps S}.
(** [cod_.compute(A); cod_.solve(b)] *)
Variable cod_solve : MatrixXX S -> VectorX S -> VectorX S.

#[local] Abbreviation AA := (AndersonAcceleration S).

(** The constructor. *)
Definition constructed : AA := {|
  current_u_ := []; current_F_ := []; prev_dG_ := []; prev_dF_ := [];
  M_ := []; theta_ := []; dF_scale_ := [];
  m_ := -1; dim_ := -1; iter_ := -1; col_idx_ := -1 |}.

Definition replace (s : AA) (u : ScalarPtr S) : outcome AA :=
  match Map u (dim_ s) with
  | Abort f => Abort f
  | Ok U =>
      Ok {| current_u_ := U;
            current_F_ := current_F_ s; prev_dG_ := prev_dG_ s;
            prev_dF_ := prev_dF_ s; M_ := M_ s; theta_ := theta_ s;
            dF_scale_ := dF_scale_ s; m_ := m_ s; dim_ := dim_ s;
            iter_ := iter_ s; col_idx_ := col_idx_ s |}
  end.

(** Lines 67-73: the seed in slot [col_idx_] becomes an increment, its
    norm is clamped and stored, and the residual increment is normalised.
    The result is [(prev_dF_, prev_dG_, dF_scale_)]. *)
Definition finalize (s : AA) (G current_F : VectorX S)
  : MatrixXX S * MatrixXX S * VectorX S :=
  let c := Z.to_nat (col_idx_ s) in
  let prev_dF := set_col (prev_dF_ s) c (vadd (col (prev_dF_ s) c) current_F) in
  let prev_dG := set_col (prev_dG_ s) c (vadd (col (prev_dG_ s) c) G) in
  let scale := std_max Seps (norm (col prev_dF c)) in
  let dF_scale := <[c := scale]> (dF_scale_ s) in
  let prev_dF := set_col prev_dF c (vdivs (col prev_dF c) scale) in
  (prev_dF, prev_dG, dF_scale).

(** Lines 77-100: the Gram matrix is brought up to date and the mixing
    coefficients are solved for.  The result is [(M_, theta_)]. *)
Definition normal_equations (M : MatrixXX S) (theta : VectorX S)
    (prev_dF : MatrixXX S) (current_F : VectorX S) (c : nat) (m_k : Z)
  : MatrixXX S * VectorX S :=
  if (m_k =? 1)%Z then
    let theta := <[0%nat := Szero]> theta in
    let dF_sqrnorm := squaredNorm (col prev_dF c) in
    let M := set_coeff M 0 0 dF_sqrnorm in
    let dF_norm := Ssqrt dF_sqrnorm in
    if Sltb Seps dF_norm then
      (M, <[0%nat := dot (vdivs (col prev_dF c) dF_norm)
                         (vdivs current_F dF_norm)]> theta)
    else (M, theta)
  else
    let k := Z.to_nat m_k in
    let new_inner_prod := row_times (col prev_dF c) (leading_cols prev_dF k) in
    let M := set_row_head M c k new_inner_prod in
    let M := set_col_head M c k new_inner_prod in
    (M, set_head theta k
          (cod_solve (leading_block M k)
                     (transpose_times (leading_cols prev_dF k) current_F))).

(** Lines 103-107. *)
Definition mix (dim : Z) (G : VectorX S) (prev_dG : MatrixXX S)
    (theta dF_scale : VectorX S) (m_k : Z) : VectorX S :=
  let k := Z.to_nat m_k in
  vsub G (times (Z.to_nat dim) (leading_cols prev_dG k)
                (vdiv (take k theta) (take k dF_scale))).

(** Lines 62-64 and 114: the first call after [init]. *)
Definition cold_start (s : AA) (G current_F : VectorX S) : AA :=
  {| current_u_ := G;
     current_F_ := current_F;
     prev_dG_ := set_col (prev_dG_ s) 0 (vneg G);
     prev_dF_ := set_col (prev_dF_ s) 0 (vneg current_F);
     M_ := M_ s; theta_ := theta_ s; dF_scale_ := dF_scale_ s;
     m_ := m_ s; dim_ := dim_ s;
     iter_ := int_incr (iter_ s);
     col_idx_ := col_idx_ s |}.

(** Lines 67-111 and 114: every later call. *)
Definition accelerated (s : AA) (G current_F : VectorX S) : AA :=
  let fin := finalize s G current_F in
  let prev_dF := fin.1.1 in
  let prev_dG := fin.1.2 in
  let dF_scale := fin.2 in
  let m_k := Z.min (m_ s) (iter_ s) in
  let ne := normal_equations (M_ s) (theta_ s) prev_dF current_F
                             (Z.to_nat (col_idx_ s)) m_k in
  let M := ne.1 in
  let theta := ne.2 in
  let current_u := mix (dim_ s) G prev_dG theta dF_scale m_k in
  let col_idx := Z.rem (col_idx_ s + 1) (m_ s) in
  {| current_u_ := current_u;
     current_F_ := current_F;
     prev_dG_ := set_col prev_dG (Z.to_nat col_idx) (vneg G);
     prev_dF_ := set_col prev_dF (Z.to_nat col_idx) (vneg current_F);
     M_ := M; theta_ := theta; dF_scale_ := dF_scale;
     m_ := m_ s; dim_ := dim_ s;
     iter_ := int_incr (iter_ s);
     col_idx_ := col_idx |}.

Definition compute (s : AA) (g : ScalarPtr S) : outcome (AA * VectorX S) :=
  if (iter_ s <? 0)%Z then Abort AssertionFailed else
  match Map g (dim_ s) with
  | Abort f => Abort f
  | Ok G =>
    let current_F := vsub G (current_u_ s) in
    let s' := if (iter_ s =? 0)%Z then cold_start s G current_F
              else accelerated s G current_F in
    Ok (s', current_u_ s')
  end.

(** [resize] of a negative size is refused by Eigen. *)
Definition init (s : AA) (m d : Z) (u0 : ScalarPtr S) (fresh : Uninit S)
  : outcome AA :=
  if (m <=? 0)%Z then Abort AssertionFailed else
  if (d <? 0)%Z then Abort EigenAssertionFailed else
  match Map u0 d with
  | Abort f => Abort f
  | Ok U0 =>
    let rows := Z.to_nat d in
    let cols := Z.to_nat m in
    Ok {| current_u_ := U0;
          current_F_ := resize_vec (current_F_ s) rows (un_F fresh);
          prev_dG_ := resize_mat (prev_dG_ s) rows cols (un_dG fresh);
          prev_dF_ := resize_mat (prev_dF_ s) rows cols (un_dF fresh);
          M_ := resize_mat (M_ s) cols cols (un_M fresh);
          theta_ := resize_vec (theta_ s) cols (un_theta fresh);
          dF_scale_ := resize_vec (dF_scale_ s) cols (un_scale fresh);
          m_ := m; dim_ := d; iter_ := 0; col_idx_ := 0 |}
  end.

(** ** Sequences of calls *)

Inductive call :=
| Init (m d : Z) (u0 : ScalarPtr S) (fresh : Uninit S)
| Replace (u : ScalarPtr S)
| Compute (g : ScalarPtr S).

(** One call: the new state and, for [compute], the returned iterate. *)
Definition step (s : AA) (c : call) : outcome (AA * option (VectorX S)) :=
  match c with
  | Init m d u0 fresh =>
      match init s m d u0 fresh with Ok s' => Ok (s', None) | Abort f => Abort f end
  | Replace u =>
      match replace s u with Ok s' => Ok (s', None) | Abort f => Abort f end
  | Compute g =>
      match compute s g with Ok (s', u) => Ok (s', Some u) | Abort f => Abort f end
  end.

(** A program of calls: the final state and everything [compute]
    returned on the way. *)
Fixpoint run (s : AA) (cs : list call) : outcome (AA * list (VectorX S)) :=
  match cs with
  | [] => Ok (s, [])
  | c :: cs =>
      match step s c with
      | Abort f => Abort f
      | Ok (s', o) =>
          match run s' cs with
          | Abort f => Abort f
          | Ok (s'', us) => Ok (s'', from_option (fun u => [u]) [] o ++ us)
          end
      end
  end.

(** The states an instance can be in once [init] has been called. *)
Inductive Reachable : AA -> Prop :=
| Reachable_init s m d u0 fresh s' :
    init s m d u0 fresh = Ok s' -> Reachable s'
| Reachable_replace s u s' :
    Reachable s -> replace s u = Ok s' -> Reachable s'
| Reachable_compute s g s' u :
    Reachable s -> compute s g = Ok (s', u) -> Reachable s'.
End Accelerator.

Arguments finalize : simpl never.
Arguments normal_equations : simpl never.
Arguments mix : simpl never.
Arguments cold_start : simpl never.
Arguments accelerated : simpl never.

(** ** Invariants of the state *)

Section Invariants.
Context {S : Type} {ops : ScalarOps S}.

(** [A] has [r] rows and [c] columns. *)
Definition shape (r c : nat) (A : MatrixXX S) : Prop :=
  length A = c /\ Forall (fun cj => length cj = r) A.

(** What [init] establishes and every call keeps: the sizes of the
    buffers, and the position of the write index, which follows the
    iteration count around the ring. *)
Record wf (s : AndersonAcceleration S) : Prop := {
  wf_m : (0 < m_ s)%Z;
  wf_dim : (0 <= dim_ s)%Z;
  wf_iter_range : (- 2 ^ 31 <= iter_ s <= INT_MAX)%Z;
  wf_col : (0 <= col_idx_ s < m_ s)%Z;
  wf_cold : iter_ s = 0%Z -> col_idx_ s = 0%Z;
  wf_warm : (0 < iter_ s)%Z -> col_idx_ s = ((iter_ s - 1) mod m_ s)%Z;
  wf_u : length (current_u_ s) = Z.to_nat (dim_ s);
  wf_dG : shape (Z.to_nat (dim_ s)) (Z.to_nat (m_ s)) (prev_dG_ s);
  wf_dF : shape (Z.to_nat (dim_ s)) (Z.to_nat (m_ s)) (prev_dF_ s);
  wf_M : shape (Z.to_nat (m_ s)) (Z.to_nat (m_ s)) (M_ s);
  wf_theta : length (theta_ s) = Z.to_nat (m_ s);
  wf_scale : length (dF_scale_ s) = Z.to_nat (m_ s)
}.

(** [m_k = min(m_, iter_)], the number of active history slots. *)
Definition window (s : AndersonAcceleration S) : nat :=
  Z.to_nat (Z.min (m_ s) (iter_ s)).

(** Two instances that differ at most in stale slots: in the columns of
    [prev_dG_] and [prev_dF_], the entries of [dF_scale_] and the rows and
    columns of [M_] at indices [m_k] and beyond. *)
Record same_active (s1 s2 : AndersonAcceleration S) : Prop := {
  sa_m : m_ s1 = m_ s2;
  sa_dim : dim_ s1 = dim_ s2;
  sa_iter : iter_ s1 = iter_ s2;
  sa_col : col_idx_ s1 = col_idx_ s2;
  sa_u : current_u_ s1 = current_u_ s2;
  sa_F : current_F_ s1 = current_F_ s2;
  sa_theta : theta_ s1 = theta_ s2;
  sa_dG : take (window s1) (prev_dG_ s1) = take (window s1) (prev_dG_ s2);
  sa_dF : take (window s1) (prev_dF_ s1) = take (window s1) (prev_dF_ s2);
  sa_scale : take (window s1) (dF_scale_ s1) = take (window s1) (dF_scale_ s2);
  sa_M : leading_block (M_ s1) (window s1) = leading_block (M_ s2) (window s1)
}.

(** What the next call can read of the state: the active columns of the
    history, and the active scales and Gram entries other than those of
    the slot at the write index, which the call rewrites first. *)
Record reads_alike (s1 s2 : AndersonAcceleration S) : Prop := {
  ra_m : m_ s1 = m_ s2;
  ra_dim : dim_ s1 = dim_ s2;
  ra_iter : iter_ s1 = iter_ s2;
  ra_col : col_idx_ s1 = col_idx_ s2;
  ra_u : current_u_ s1 = current_u_ s2;
  ra_dG : take (window s1) (prev_dG_ s1) = take (window s1) (prev_dG_ s2);
  ra_dF : take (window s1) (prev_dF_ s1) = take (window s1) (prev_dF_ s2);
  ra_scale : forall j, (j < window s1)%nat -> j <> Z.to_nat (col_idx_ s1) ->
             dF_scale_ s1 !!! j = dF_scale_ s2 !!! j;
  ra_M : forall i j, (i < window s1)%nat -> (j < window s1)%nat ->
         i <> Z.to_nat (col_idx_ s1) -> j <> Z.to_nat (col_idx_ s1) ->
         coeff (M_ s1) i j = coeff (M_ s2) i j
}.

(** What the caller sees of a run: the returned iterates, or the abort. *)
Definition returned {A B : Type} (o : outcome (A * B)) : outcome B :=
  match o with Ok (_, b) => Ok b | Abort f => Abort f end.

(** The sum of [f 0 .. f (n-1)], from the left. *)
Definition sum_upto (n : nat) (f : nat -> S) : S :=
  fold_left (fun a j => Sadd a (f j)) (seq 0 n) Szero.
End Invariants.

(** ** Runs and invariants of the history *)

Section History.
Context {S : Type} {ops : ScalarOps S}.
Variable cod_solve : MatrixXX S -> VectorX S -> VectorX S.

(** A value of [std::max(eps, x)]: [eps] itself or something above it. *)
Definition clamped (x : S) : Prop := x = Seps \/ Sltb Seps x = true.

(** The scales of the completed slots are clamped. *)
Definition scales_clamped (s : AndersonAcceleration S) : Prop :=
  forall j, (j < window s)%nat -> j <> Z.to_nat (col_idx_ s) ->
            clamped (dF_scale_ s !!! j).

(** The entries of [M_] between completed slots are the inner products of
    their columns of [prev_dF_]. *)
Definition gram_of_completed (s : AndersonAcceleration S) : Prop :=
  forall i j, (i < window s)%nat -> (j < window s)%nat ->
    i <> Z.to_nat (col_idx_ s) -> j <> Z.to_nat (col_idx_ s) ->
    coeff (M_ s) i j = dot (col (prev_dF_ s) i) (col (prev_dF_ s) j).

(** The active block of [M_] is the Gram matrix of the columns of a
    residual history [dF]. *)
Definition gram_block (M dF : MatrixXX S) (k : nat) : Prop :=
  forall i j, (i < k)%nat -> (j < k)%nat ->
    coeff M i j = dot (col dF i) (col dF j).

(** The states of an iteration whose driving map is the identity: every
    [compute] is given the current iterate. *)
Inductive IdentityRun : AndersonAcceleration S -> Prop :=
| IdentityRun_init s m d u0 fresh s' :
    init s m d u0 fresh = Ok s' -> IdentityRun s'
| IdentityRun_compute s g s' u :
    IdentityRun s ->
    map g (seq 0 (Z.to_nat (dim_ s))) = current_u_ s ->
    compute cod_solve s g = Ok (s', u) -> IdentityRun s'.

(** In such a run the completed slots of [prev_dG_] are zero and the seed
    at the write index is minus the current iterate. *)
Definition converged_history (s : AndersonAcceleration S) : Prop :=
  (0 < iter_ s)%Z ->
  col (prev_dG_ s) (Z.to_nat (col_idx_ s)) = vneg (current_u_ s) /\
  forall j, (j < window s)%nat -> j <> Z.to_nat (col_idx_ s) ->
            col (prev_dG_ s) j = replicate (Z.to_nat (dim_ s)) Szero.
End History.

(** ** Instances to run the model on *)

(** The array behind a pointer. *)
Definition ptr_of {S} `{ScalarOps S} (l : list S) : ScalarPtr S :=
  fun i => l !!! i.

(** A stand-in for Eigen's solver in the runs below: it divides the right
    hand side by the diagonal, which solves the normal equations of a
    single column.  No theorem depends on it. *)
Definition jacobi_solve {S} `{ScalarOps S} (A : MatrixXX S) (b : VectorX S)
  : VectorX S :=
  imap (fun i bi => Sdiv bi (coeff A i i)) b.

(** Reallocated buffers that hold [x] in their first row and column and
    [y] everywhere else. *)
Definition uninit_with {S} (x y : S) : Uninit S :=
  let v := fun i : nat => if (i =? 0)%nat then x else y in
  let a := fun i j : nat => if ((i =? 0) && (j =? 0))%nat then x else y in
  {| un_F := fun _ => x; un_dG := a; un_dF := a; un_M := a;
     un_theta := fun _ => x; un_scale := v |}.

(** The state a fresh instance is in after a program of calls. *)
Definition after {S} `{ScalarOps S} (cs : list (call (S:=S))) : AndersonAcceleration S :=
  match run jacobi_solve constructed cs with
  | Ok (s, _) => s
  | Abort _ => constructed
  end.

(** In binary64: [init(2, 1, {0})] and [compute({1})], on two
    allocations that differ in the slots not yet written. *)
Definition double_run (junk : float) : AndersonAcceleration float :=
  after [Init 2 1 (ptr_of [0%float]) (uninit_with 7%float junk);
         Compute (ptr_of [1%float])].

(** In binary64, with a ring of one slot: [init(1, 1, {0})] and
    [compute({1})]; then [compute({3})]. *)
Definition double_ring_start : AndersonAcceleration float :=
  after [Init 1 1 (ptr_of [0%float]) (uninit_with 7%float 7%float);
         Compute (ptr_of [1%float])].

Definition double_ring : AndersonAcceleration float :=
  after [Init 1 1 (ptr_of [0%float]) (uninit_with 7%float 7%float);
         Compute (ptr_of [1%float]);
         Compute (ptr_of [3%float])].

(** In exact arithmetic: [init(1, 1, {0})] and [compute({1})]. *)
Definition real_run : AndersonAcceleration R :=
  after [Init 1 1 (ptr_of [0%R]) (uninit_with 0%R 0%R);
         Compute (ptr_of [1%R])].

(** In exact arithmetic: [init(2, 1, {5})]. *)
Definition real_start : AndersonAcceleration R :=
  after [Init 2 1 (ptr_of [5%R]) (uninit_with 0%R 0%R)].

(** In binary64, with both slots of a ring of two in use:
    [init(2, 1, {0})], [compute({1})] and [compute({3})]. *)
Definition double_pair : AndersonAcceleration float :=
  after [Init 2 1 (ptr_of [0%float]) (uninit_with 7%float 8%float);
         Compute (ptr_of [1%float]);
         Compute (ptr_of [3%float])].

(** The same run after a further [compute({2})]. *)
Definition double_triple : AndersonAcceleration float :=
  after [Init 2 1 (ptr_of [0%float]) (uninit_with 7%float 8%float);
         Compute (ptr_of [1%float]);
         Compute (ptr_of [3%float]);
         Compute (ptr_of [2%float])].

(** ** Programs of calls and scratch members *)

Section Programs.
Context {S : Type} {ops : ScalarOps S}.

(** The number of [compute] calls of a program. *)
Fixpoint count_computes (cs : list (call (S:=S))) : nat :=
  match cs with
  | [] => 0
  | Compute _ :: cs => Datatypes.S (count_computes cs)
  | _ :: cs => count_computes cs
  end.

(** A program that does not call [init]. *)
Definition init_free (cs : list (call (S:=S))) : Prop :=
  Forall (fun c => match c with Init _ _ _ _ => False | _ => True end) cs.

(** The state with other contents in [theta_], in [current_F_] and in the
    entry of [dF_scale_] at the write index. *)
Definition with_scratch (s : AndersonAcceleration S) (theta F : VectorX S) (x : S)
  : AndersonAcceleration S :=
  {| current_u_ := current_u_ s;
     current_F_ := F;
     prev_dG_ := prev_dG_ s; prev_dF_ := prev_dF_ s; M_ := M_ s;
     theta_ := theta;
     dF_scale_ := <[Z.to_nat (col_idx_ s) := x]> (dF_scale_ s);
     m_ := m_ s; dim_ := dim_ s; iter_ := iter_ s; col_idx_ := col_idx_ s |}.

(** The completed columns of [prev_dF_] have norm at most [bound]
    according to [le]. *)
Definition columns_within (le : S -> S -> Prop) (bound : S)
    (s : AndersonAcceleration S) : Prop :=
  forall j, (j < window s)%nat -> j <> Z.to_nat (col_idx_ s) ->
            le (norm (col (prev_dF_ s) j)) bound.

(** [t * v]. *)
Definition vscale (t : S) (v : VectorX S) : VectorX S := map (Smul t) v.
End Programs.

(** ** Binary64 *)

(** A zero of either sign. *)
Definition is_zero (x : float) : bool := PrimFloat.eqb x 0.

(** A vector without infinities and NaNs. *)
Abbreviation finite_vector v :=
  (Forall (fun x => PrimFloat.is_finite x = true) v).

Section StillHistory.
Context {S : Type} {ops : ScalarOps S}.

(** In a run whose residuals are all zero the completed slots of
    [prev_dF_] are zero and the seed at the write index is minus the zero
    residual. *)
Definition still_history (s : AndersonAcceleration S) : Prop :=
  (0 < iter_ s)%Z ->
  col (prev_dF_ s) (Z.to_nat (col_idx_ s))
    = vneg (replicate (Z.to_nat (dim_ s)) Szero) /\
  forall j, (j < window s)%nat -> j <> Z.to_nat (col_idx_ s) ->
            col (prev_dF_ s) j = replicate (Z.to_nat (dim_ s)) Szero.
End StillHistory.

(** What [cod_] is taken to do on the zero system, the one the normal
    equations are when every residual is zero: the decomposition of the
    zero matrix has rank 0, and the solution of least norm is zero. *)
Definition solves_zero_system
    (cod_solve : MatrixXX float -> VectorX float -> VectorX float) : Prop :=
  forall A b,
    Forall (Forall (fun x => is_zero x = true)) A ->
    Forall (fun x => is_zero x = true) b ->
    Forall (fun x => is_zero x = true) (cod_solve A b).

(** A stand-in for a rank-revealing solver in the runs in binary64: it
    divides the right hand side by the diagonal and leaves out the zero
    pivots. *)
Definition pivot_solve (A : MatrixXX float) (b : VectorX float) : VectorX float :=
  imap (fun i bi => if is_zero (coeff A i i) then 0%float
                    else Sdiv bi (coeff A i i)) b.

(** In binary64, with one slot: [init(1, 1, {0})] and [compute({-2^1023})];
    the next evaluation [2^1023] is finite and its residual is not. *)
Definition double_overflow : AndersonAcceleration float :=
  after [Init 1 1 (ptr_of [0%float]) (uninit_with 7%float 7%float);
         Compute (ptr_of [(-0x1p1023)%float])].

(** The same with two slots. *)
Definition double_overflow_pair : AndersonAcceleration float :=
  after [Init 2 1 (ptr_of [0%float]) (uninit_with 7%float 8%float);
         Compute (ptr_of [(-0x1p1023)%float])].

(** In binary64, with one slot: [init(1, 1, {0})] and [compute({2^-70})]. *)
Definition double_tiny : AndersonAcceleration float :=
  after [Init 1 1 (ptr_of [0%float]) (uninit_with 7%float 7%float);
         Compute (ptr_of [0x1p-70%float])].

(** In binary64: [init(2, 1, {5})] and [n] calls [compute({5})]. *)
Definition double_still (n : nat) : AndersonAcceleration float :=
  after (Init 2 1 (ptr_of [5%float]) (uninit_with 7%float 8%float)
         :: replicate n (Compute (ptr_of [5%float]))).

(** * Properties *)

(** ** The model runs *)

(** [d = 1], [m = 1], [u0 = 0], then [g = 1] and [g = 3], in binary64. *)
Example run_double :
  returned (run jacobi_solve constructed
      [Init 1 1 (ptr_of [0%float]) (uninit_with 7%float 7%float);
       Compute (ptr_of [1%float]);
       Compute (ptr_of [3%float])])
  = Ok [[1%float]; [(-1)%float]].
Proof. vm_compute. reflexivity. Qed.

(** The same run, as a contraction [g(x) = x / 2 + 1] with window 2: the
    second accelerated iterate is the fixed point 2. *)
Example run_double_contraction :
  returned (run jacobi_solve constructed
      [Init 2 1 (ptr_of [0%float]) (uninit_with 7%float 7%float);
       Compute (ptr_of [1%float]);
       Compute (ptr_of [1.5%float])])
  = Ok [[1%float]; [2%float]].
Proof. vm_compute. reflexivity. Qed.

Section Misuse.
Context {S : Type} {ops : ScalarOps S}.
Variable cod_solve : MatrixXX S -> VectorX S -> VectorX S.

(** C6.  Before [init] the instance is as the constructor left it, with
    [iter_ = dim_ = -1].  [compute] then stops at its [assert(iter_ >= 0)];
    [replace] has no assertion of its own and stops in Eigen, which refuses
    to map a vector of size [dim_ = -1].  Neither call returns. *)
Theorem misuse_before_init_aborts (g u : ScalarPtr S) :
  compute cod_solve constructed g = Abort AssertionFailed /\
  replace constructed u = Abort EigenAssertionFailed.
Proof. split; reflexivity. Qed.
End Misuse.

(** ** Sizes *)

Section Sizes.
Context {S : Type} {ops : ScalarOps S}.
Implicit Types (A B : MatrixXX S) (v w x : VectorX S).

Lemma Map_Ok (p : ScalarPtr S) n :
  (0 <= n)%Z -> Map p n = Ok (map p (seq 0 (Z.to_nat n))).
Proof.
  intros Hn. unfold Map.
  destruct (Z.ltb_spec n 0) as [Hlt|_]; [lia|reflexivity].
Qed.

Lemma Map_inv (p : ScalarPtr S) n v :
  Map p n = Ok v -> (0 <= n)%Z /\ v = map p (seq 0 (Z.to_nat n)).
Proof.
  unfold Map. destruct (Z.ltb_spec n 0); [discriminate|].
  intros [= <-]. split; [lia|reflexivity].
Qed.

Lemma int_incr_next z :
  (- 2 ^ 31 <= z < INT_MAX)%Z -> int_incr z = (z + 1)%Z.
Proof.
  unfold int_incr, INT_MAX. intros Hz.
  rewrite Z.mod_small; lia.
Qed.

Lemma int_incr_range z : (- 2 ^ 31 <= int_incr z <= INT_MAX)%Z.
Proof.
  unfold int_incr, INT_MAX.
  pose proof (Z.mod_pos_bound (z + 1 + 2 ^ 31) (2 ^ 32)). lia.
Qed.

Lemma int_incr_max : int_incr INT_MAX = (- 2 ^ 31)%Z.
Proof. reflexivity. Qed.

Lemma length_set_head x k v : length (set_head x k v) = length x.
Proof. unfold set_head. by rewrite length_imap. Qed.

Lemma lookup_set_head x k v i :
  (i < length x)%nat ->
  set_head x k v !! i = Some (if decide (i < k)%nat then v !!! i else x !!! i).
Proof.
  intros Hi. unfold set_head. rewrite list_lookup_imap.
  rewrite (list_lookup_lookup_total_lt x i Hi). simpl.
  by destruct (decide (i < k)%nat).
Qed.

Lemma shape_col r c A j : shape r c A -> (j < c)%nat -> length (col A j) = r.
Proof.
  intros [Hl Hc] Hj. unfold col.
  rewrite Forall_lookup in Hc. apply (Hc j).
  apply list_lookup_lookup_total_lt. lia.
Qed.

Lemma col_set_col_eq A j v : (j < length A)%nat -> col (set_col A j v) j = v.
Proof. intros. unfold col, set_col. by rewrite list_lookup_total_insert_eq. Qed.

Lemma col_set_col_ne A i j v : i <> j -> col (set_col A i v) j = col A j.
Proof. intros. unfold col, set_col. by rewrite list_lookup_total_insert_ne. Qed.

Lemma shape_insert r c A j v :
  shape r c A -> (j < c -> length v = r)%nat -> shape r c (<[j := v]> A).
Proof.
  intros [Hl Hc] Hv. split; [by rewrite length_insert|].
  destruct (decide (j < c)%nat) as [Hj|Hj].
  - apply Forall_insert; auto.
  - rewrite list_insert_ge; [done|lia].
Qed.

Lemma shape_set_col r c A j v :
  shape r c A -> length v = r -> shape r c (set_col A j v).
Proof. intros. apply shape_insert; auto. Qed.

Lemma shape_set_coeff r c A i j y :
  shape r c A -> shape r c (set_coeff A i j y).
Proof.
  intros HA. apply shape_insert; [done|]. intros Hj.
  rewrite length_insert. by apply (shape_col r c).
Qed.

Lemma shape_set_row_head r c A i k v :
  shape r c A -> shape r c (set_row_head A i k v).
Proof.
  intros [Hl Hc]. split; unfold set_row_head.
  - by rewrite length_imap.
  - rewrite Forall_lookup. intros j cj. rewrite list_lookup_imap.
    destruct (A !! j) as [a|] eqn:Ha; [|discriminate]. simpl. intros [= <-].
    rewrite Forall_lookup in Hc. specialize (Hc j a Ha).
    destruct (decide (j < k)%nat); [by rewrite length_insert|done].
Qed.

Lemma shape_set_col_head r c A j k v :
  shape r c A -> shape r c (set_col_head A j k v).
Proof.
  intros HA. apply shape_insert; [done|]. intros Hj.
  rewrite length_set_head. by apply (shape_col r c).
Qed.

Lemma has_shape_shape r c A : has_shape r c A = true -> shape r c A.
Proof.
  unfold has_shape. rewrite andb_true_iff, Nat.eqb_eq, forallb_forall.
  intros [Hl Hc]. split; [done|].
  rewrite Forall_forall. intros cj Hin. apply Nat.eqb_eq, Hc.
  by apply list_elem_of_In.
Qed.

Lemma shape_resize_mat A r c fresh : shape r c (resize_mat A r c fresh).
Proof.
  unfold resize_mat. destruct (has_shape r c A) eqn:E.
  - by apply has_shape_shape.
  - split; [by rewrite length_map, length_seq|].
    rewrite Forall_forall. intros cj [j [-> _]]%list_elem_of_fmap.
    by rewrite length_map, length_seq.
Qed.

Lemma length_resize_vec x n fresh : length (resize_vec x n fresh) = n.
Proof.
  unfold resize_vec. destruct (Nat.eqb_spec (length x) n); [done|].
  by rewrite length_map, length_seq.
Qed.

Lemma length_times r B w :
  Forall (fun cj => length cj = r) B -> length (times r B w) = r.
Proof.
  unfold times. intros HB.
  assert (Hacc : length (replicate r Szero) = r) by apply length_replicate.
  revert Hacc. generalize (replicate r Szero) as acc. revert w.
  induction HB as [|cj B Hcj HB IH]; intros w acc Hacc; [done|].
  destruct w as [|y w]; [done|]. simpl. apply IH.
  rewrite length_zip_with, length_map. lia.
Qed.
End Sizes.

(** ** The invariant holds *)

Section WellFormed.
Context {S : Type} {ops : ScalarOps S}.
Variable cod_solve : MatrixXX S -> VectorX S -> VectorX S.
Implicit Types (s : AndersonAcceleration S) (A B : MatrixXX S) (v w x G F : VectorX S).

Lemma compute_Ok s g :
  (0 <= iter_ s)%Z -> (0 <= dim_ s)%Z ->
  let G := map g (seq 0 (Z.to_nat (dim_ s))) in
  let F := vsub G (current_u_ s) in
  let s' := if (iter_ s =? 0)%Z then cold_start s G F
            else accelerated cod_solve s G F in
  compute cod_solve s g = Ok (s', current_u_ s').
Proof.
  intros Hi Hd. unfold compute.
  destruct (Z.ltb_spec (iter_ s) 0); [lia|].
  by rewrite Map_Ok.
Qed.

Lemma compute_inv s g s' u :
  compute cod_solve s g = Ok (s', u) ->
  (0 <= iter_ s)%Z /\ (0 <= dim_ s)%Z /\ u = current_u_ s' /\
  let G := map g (seq 0 (Z.to_nat (dim_ s))) in
  let F := vsub G (current_u_ s) in
  s' = if (iter_ s =? 0)%Z then cold_start s G F
       else accelerated cod_solve s G F.
Proof.
  unfold compute. destruct (Z.ltb_spec (iter_ s) 0); [discriminate|].
  destruct (Map g (dim_ s)) as [G|] eqn:HG; [|discriminate].
  apply Map_inv in HG as [Hd ->]. intros [= <- <-]. auto.
Qed.

Lemma length_mix dim G dG theta sc m_k :
  length G = Z.to_nat dim -> Forall (fun cj => length cj = Z.to_nat dim) dG ->
  length (mix dim G dG theta sc m_k) = Z.to_nat dim.
Proof.
  intros HG HdG. unfold mix, vsub, leading_cols.
  rewrite length_zip_with, length_times; [lia|]. by apply Forall_take.
Qed.

Lemma shape_normal_equations k M theta dF F c m_k :
  shape k k M -> shape k k (normal_equations cod_solve M theta dF F c m_k).1.
Proof.
  intros HM. unfold normal_equations.
  destruct (m_k =? 1)%Z.
  - destruct (Sltb _ _); simpl; by apply shape_set_coeff.
  - simpl. by apply shape_set_col_head, shape_set_row_head.
Qed.

Lemma length_normal_equations M theta dF F c m_k :
  length (normal_equations cod_solve M theta dF F c m_k).2 = length theta.
Proof.
  unfold normal_equations. destruct (m_k =? 1)%Z.
  - destruct (Sltb _ _); simpl; by rewrite ?length_insert.
  - simpl. by rewrite length_set_head.
Qed.

Lemma shape_finalize_dF s G F :
  wf s -> length F = Z.to_nat (dim_ s) ->
  shape (Z.to_nat (dim_ s)) (Z.to_nat (m_ s)) (finalize s G F).1.1.
Proof.
  intros Hs HF. pose proof (wf_dF s Hs) as HdF. pose proof (wf_col s Hs).
  unfold finalize. simpl. unfold set_col.
  apply shape_insert.
  - apply shape_insert; [done|]. intros Hc.
    unfold vadd. rewrite length_zip_with, HF, (shape_col _ _ _ _ HdF); lia.
  - intros Hc. unfold vdivs. rewrite length_map.
    fold (set_col (prev_dF_ s) (Z.to_nat (col_idx_ s))
            (vadd (col (prev_dF_ s) (Z.to_nat (col_idx_ s))) F)).
    rewrite col_set_col_eq; [|destruct HdF; lia].
    unfold vadd. rewrite length_zip_with, HF, (shape_col _ _ _ _ HdF); lia.
Qed.

Lemma shape_finalize_dG s G F :
  wf s -> length G = Z.to_nat (dim_ s) ->
  shape (Z.to_nat (dim_ s)) (Z.to_nat (m_ s)) (finalize s G F).1.2.
Proof.
  intros Hs HG. pose proof (wf_dG s Hs) as HdG. pose proof (wf_col s Hs).
  unfold finalize. simpl. unfold set_col.
  apply shape_insert; [done|]. intros Hc.
  unfold vadd. rewrite length_zip_with, HG, (shape_col _ _ _ _ HdG); lia.
Qed.

Lemma length_finalize_scale s G F :
  length (finalize s G F).2 = length (dF_scale_ s).
Proof. unfold finalize. simpl. by rewrite length_insert. Qed.

Lemma wf_cold_start s G F :
  wf s -> iter_ s = 0%Z ->
  length G = Z.to_nat (dim_ s) -> length F = Z.to_nat (dim_ s) ->
  wf (cold_start s G F).
Proof.
  intros Hs Hi HG HF. destruct Hs.
  assert (Hn : int_incr (iter_ s) = 1%Z) by (rewrite Hi; reflexivity).
  constructor; simpl; rewrite ?Hn; try done.
  - intros _. rewrite (wf_cold0 Hi), Z.mod_0_l; lia.
  - apply shape_set_col; [done|]. unfold vneg. by rewrite length_map.
  - apply shape_set_col; [done|]. unfold vneg. by rewrite length_map.
Qed.

Lemma wf_accelerated s G F :
  wf s -> (0 < iter_ s)%Z ->
  length G = Z.to_nat (dim_ s) -> length F = Z.to_nat (dim_ s) ->
  wf (accelerated cod_solve s G F).
Proof.
  intros Hs Hi HG HF.
  pose proof (shape_finalize_dF s G F Hs HF) as HdF.
  pose proof (shape_finalize_dG s G F Hs HG) as HdG.
  pose proof (wf_col s Hs) as Hc. pose proof (wf_m s Hs) as Hm.
  pose proof (wf_iter_range s Hs) as Hr. pose proof (wf_warm s Hs Hi) as Hw.
  assert (Hrem : Z.rem (col_idx_ s + 1) (m_ s) = ((col_idx_ s + 1) mod m_ s)%Z)
    by (apply Z.rem_mod_nonneg; lia).
  pose proof (Z.mod_pos_bound (col_idx_ s + 1) (m_ s) Hm) as Hb.
  constructor; unfold accelerated; simpl; rewrite ?Hrem; try done.
  - by apply wf_dim.
  - apply int_incr_range.
  - intros E. pose proof (int_incr_range (iter_ s)).
    destruct (decide (iter_ s = INT_MAX)) as [E'|E'].
    + rewrite E', int_incr_max in E. lia.
    + rewrite int_incr_next in E; lia.
  - intros Hpos. destruct (decide (iter_ s = INT_MAX)) as [E'|E'].
    + rewrite E', int_incr_max in Hpos. lia.
    + rewrite int_incr_next by lia. rewrite Hw.
      replace (iter_ s + 1 - 1)%Z with (iter_ s - 1 + 1)%Z by lia.
      by rewrite Zplus_mod_idemp_l.
  - apply length_mix; [done|]. by destruct HdG.
  - apply shape_set_col; [done|]. unfold vneg. by rewrite length_map.
  - apply shape_set_col; [done|]. unfold vneg. by rewrite length_map.
  - apply shape_normal_equations. by apply wf_M.
  - rewrite length_normal_equations. by apply wf_theta.
  - rewrite length_insert. by apply wf_scale.
Qed.

Lemma wf_compute s g s' u :
  wf s -> compute cod_solve s g = Ok (s', u) -> wf s'.
Proof.
  intros Hs (Hi & Hd & _ & ->)%compute_inv.
  assert (HG : length (map g (seq 0 (Z.to_nat (dim_ s)))) = Z.to_nat (dim_ s))
    by (by rewrite length_map, length_seq).
  assert (HF : length (vsub (map g (seq 0 (Z.to_nat (dim_ s)))) (current_u_ s))
               = Z.to_nat (dim_ s)).
  { unfold vsub. rewrite length_zip_with, HG, (wf_u s Hs). lia. }
  destruct (Z.eqb_spec (iter_ s) 0).
  - by apply wf_cold_start.
  - apply wf_accelerated; auto. lia.
Qed.

Lemma wf_replace s u s' : wf s -> replace s u = Ok s' -> wf s'.
Proof.
  intros Hs. unfold replace.
  destruct (Map u (dim_ s)) as [U|] eqn:HU; [|discriminate].
  apply Map_inv in HU as [Hd ->]. intros [= <-].
  destruct Hs. constructor; simpl; try done.
  by rewrite length_map, length_seq.
Qed.

Lemma init_inv s m d u0 fresh s' :
  init s m d u0 fresh = Ok s' ->
  (0 < m)%Z /\ (0 <= d)%Z /\
  s' = {| current_u_ := map u0 (seq 0 (Z.to_nat d));
          current_F_ := resize_vec (current_F_ s) (Z.to_nat d) (un_F fresh);
          prev_dG_ := resize_mat (prev_dG_ s) (Z.to_nat d) (Z.to_nat m) (un_dG fresh);
          prev_dF_ := resize_mat (prev_dF_ s) (Z.to_nat d) (Z.to_nat m) (un_dF fresh);
          M_ := resize_mat (M_ s) (Z.to_nat m) (Z.to_nat m) (un_M fresh);
          theta_ := resize_vec (theta_ s) (Z.to_nat m) (un_theta fresh);
          dF_scale_ := resize_vec (dF_scale_ s) (Z.to_nat m) (un_scale fresh);
          m_ := m; dim_ := d; iter_ := 0; col_idx_ := 0 |}.
Proof.
  unfold init. destruct (Z.leb_spec m 0); [discriminate|].
  destruct (Z.ltb_spec d 0); [discriminate|].
  rewrite Map_Ok by done. intros [= <-]. auto.
Qed.

Lemma init_Ok s m d u0 fresh :
  (0 < m)%Z -> (0 <= d)%Z -> exists s', init s m d u0 fresh = Ok s'.
Proof.
  intros Hm Hd. unfold init.
  destruct (Z.leb_spec m 0); [lia|]. destruct (Z.ltb_spec d 0); [lia|].
  rewrite Map_Ok by done. eauto.
Qed.

Lemma wf_init s m d u0 fresh s' : init s m d u0 fresh = Ok s' -> wf s'.
Proof.
  intros (Hm & Hd & ->)%init_inv.
  constructor; simpl; try done; try lia.
  - by rewrite length_map, length_seq.
  - apply shape_resize_mat.
  - apply shape_resize_mat.
  - apply shape_resize_mat.
  - apply length_resize_vec.
  - apply length_resize_vec.
Qed.

Lemma Reachable_wf s : Reachable cod_solve s -> wf s.
Proof.
  induction 1 as [s m d u0 fresh s' Hinit|s u s' _ IH Hrep|s g s' u _ IH Hcomp].
  - by eapply wf_init.
  - by eapply wf_replace.
  - by eapply wf_compute.
Qed.
End WellFormed.

(** ** Coefficients of products *)

Section Coefficients.
Context {S : Type} {ops : ScalarOps S}.
Implicit Types (A B : MatrixXX S) (v w x : VectorX S).

Lemma fold_left_ext_seq {T} (f f' : T -> nat -> T) n k a :
  (forall a j, (n <= j < n + k)%nat -> f a j = f' a j) ->
  fold_left f (seq n k) a = fold_left f' (seq n k) a.
Proof.
  revert n a. induction k as [|k IH]; intros n a Hext; [done|].
  simpl. rewrite Hext by lia. apply IH. intros; apply Hext; lia.
Qed.

Lemma fold_left_by_index {T X} `{!Inhabited X} (f : T -> X -> T) (l pre : list X) a :
  fold_left f l a =
  fold_left (fun a j => f a ((pre ++ l) !!! j)) (seq (length pre) (length l)) a.
Proof.
  revert pre a. induction l as [|y l IH]; intros pre a; [done|].
  simpl. rewrite list_lookup_total_middle by done.
  rewrite (IH (pre ++ [y])), length_app, <- app_assoc. simpl.
  by rewrite Nat.add_1_r.
Qed.

Lemma sum_upto_ext n (f f' : nat -> S) :
  (forall j, (j < n)%nat -> f j = f' j) -> sum_upto n f = sum_upto n f'.
Proof.
  intros Hext. unfold sum_upto. apply fold_left_ext_seq.
  intros a j Hj. rewrite Hext; [done|lia].
Qed.

Lemma sum_upto_S n (f : nat -> S) :
  sum_upto (Datatypes.S n) f = Sadd (sum_upto n f) (f n).
Proof. unfold sum_upto. by rewrite seq_S, fold_left_app. Qed.

(** A dot product is the sum of the products of the coefficients. *)
Lemma dot_sum v w :
  length v = length w ->
  dot v w = sum_upto (length v) (fun i => Smul (v !!! i) (w !!! i)).
Proof.
  intros Hl. unfold dot, sum_upto.
  rewrite (fold_left_by_index _ _ []). simpl.
  rewrite length_zip_with, <- Hl, Nat.min_id.
  apply fold_left_ext_seq. intros a j Hj.
  rewrite (lookup_total_zip_with Smul v w j); [done|lia..].
Qed.

(** Coefficient [i] of [B * w], accumulated column by column. *)
Lemma lookup_times_fold r B w i :
  Forall (fun cj => length cj = r) B -> (i < r)%nat ->
  times r B w !! i =
  Some (fold_left (fun a cw => Sadd a (Smul (cw.1 !!! i) cw.2)) (zip B w) Szero).
Proof.
  intros HB Hi. unfold times.
  assert (Hacc : forall acc : list S, length acc = r ->
    fold_left (fun acc cw => zip_with Sadd acc (map (fun y => Smul y cw.2) cw.1))
              (zip B w) acc !! i =
    Some (fold_left (fun a cw => Sadd a (Smul (cw.1 !!! i) cw.2)) (zip B w)
                    (acc !!! i))).
  { revert w. induction HB as [|cj B Hcj HB IH]; intros w acc Hacc.
    - simpl. apply list_lookup_lookup_total_lt. lia.
    - destruct w as [|y w]; simpl.
      + apply list_lookup_lookup_total_lt. lia.
      + rewrite IH by (rewrite length_zip_with, length_map; lia).
        rewrite (lookup_total_zip_with Sadd acc _ i) by (rewrite ?length_map; lia).
        by rewrite (list_lookup_total_fmap (fun y0 => Smul y0 y) cj i) by lia. }
  rewrite Hacc by apply length_replicate.
  by rewrite lookup_total_replicate_2.
Qed.

Lemma lookup_times r B w i :
  Forall (fun cj => length cj = r) B -> length B = length w -> (i < r)%nat ->
  times r B w !! i =
  Some (sum_upto (length B) (fun j => Smul (coeff B i j) (w !!! j))).
Proof.
  intros HB Hl Hi. rewrite lookup_times_fold by done. f_equal.
  rewrite (fold_left_by_index _ _ []). simpl. unfold sum_upto.
  rewrite length_zip_with, <- Hl, Nat.min_id.
  apply fold_left_ext_seq. intros a j Hj. unfold coeff, zip.
  rewrite (lookup_total_zip_with pair B w j); [done|lia..].
Qed.
End Coefficients.

(** ** Single calls *)

Section Calls.
Context {S : Type} {ops : ScalarOps S}.
Variable cod_solve : MatrixXX S -> VectorX S -> VectorX S.
Implicit Types (s : AndersonAcceleration S) (g : ScalarPtr S).

Lemma lookup_Map_list (p : ScalarPtr S) n i :
  (i < n)%nat -> map p (seq 0 n) !! i = Some (p i).
Proof. intros Hi. by rewrite list_lookup_fmap, lookup_seq_lt. Qed.

Lemma coeff_take (A : MatrixXX S) k i j :
  (j < k)%nat -> coeff (take k A) i j = coeff A i j.
Proof. intros Hj. unfold coeff. by rewrite lookup_total_take_lt. Qed.

(** Lines 103-107, coefficient by coefficient. *)
Lemma lookup_mix dim (G : VectorX S) (dG : MatrixXX S) (theta sc : VectorX S) m_k i :
  let d := Z.to_nat dim in
  let k := Z.to_nat m_k in
  length G = d -> Forall (fun cj => length cj = d) dG ->
  (k <= length dG)%nat -> (k <= length theta)%nat -> (k <= length sc)%nat ->
  (i < d)%nat ->
  mix dim G dG theta sc m_k !! i =
  Some (Ssub (G !!! i)
          (sum_upto k (fun j => Smul (coeff dG i j)
                                     (Sdiv (theta !!! j) (sc !!! j))))).
Proof.
  intros d k HG HdG HkG Hkt Hks Hi. unfold mix, vsub, leading_cols. fold d k.
  rewrite lookup_zip_with.
  rewrite (list_lookup_lookup_total_lt G i) by lia. cbn [mbind option_bind].
  rewrite lookup_times.
  - cbn [mbind option_bind]. rewrite length_take_le by lia. do 2 f_equal.
    apply sum_upto_ext. intros j Hj. rewrite coeff_take by done.
    unfold vdiv.
    rewrite (lookup_total_zip_with Sdiv _ _ j) by (rewrite length_take_le; lia).
    by rewrite !lookup_total_take_lt.
  - by apply Forall_take.
  - unfold vdiv. rewrite length_zip_with, !length_take_le; lia.
  - done.
Qed.

(** C1.  On a call with [iter_ >= 1] the iterate that [compute] returns is
    [G - dG.block(0,0,dim_,m_k) * (theta_.head(m_k) / dF_scale_.head(m_k))]
    with [m_k = min(m_, iter_)], where [dG] is the history of iterate
    increments once the slot at the write index has been completed with
    [G], and [theta_], [dF_scale_] are the coefficients and scales the call
    leaves in the state.  Coefficient by coefficient: [u_i = g_i - sum over
    j < m_k of dG(i,j) * (theta_j / scale_j)].  Afterwards [prev_dG_] is
    [dG] but for the slot that was re-seeded. *)
Theorem compute_returns_mixed_iterate s g :
  Reachable cod_solve s -> (1 <= iter_ s)%Z ->
  let d := Z.to_nat (dim_ s) in
  let G := map g (seq 0 d) in
  let dG := (finalize s G (vsub G (current_u_ s))).1.2 in
  let m_k := Z.to_nat (Z.min (m_ s) (iter_ s)) in
  exists s' u,
    compute cod_solve s g = Ok (s', u) /\
    u = vsub G (times d (leading_cols dG m_k)
                  (vdiv (take m_k (theta_ s')) (take m_k (dF_scale_ s')))) /\
    length u = d /\
    (forall i, (i < d)%nat ->
       u !! i = Some (Ssub (g i)
                  (sum_upto m_k (fun j =>
                     Smul (coeff dG i j)
                          (Sdiv (theta_ s' !!! j) (dF_scale_ s' !!! j)))))) /\
    (forall j, j <> Z.to_nat (col_idx_ s') -> col (prev_dG_ s') j = col dG j).
Proof.
  intros Hs%Reachable_wf Hi d G dG m_k.
  pose proof (wf_dim s Hs) as Hd. pose proof (wf_m s Hs) as Hm.
  pose proof (compute_Ok cod_solve s g ltac:(lia) Hd) as Hc.
  cbv zeta in Hc. fold d G in Hc.
  destruct (Z.eqb_spec (iter_ s) 0) as [?|_]; [lia|].
  set (F := vsub G (current_u_ s)) in *.
  set (s' := accelerated cod_solve s G F) in *.
  assert (HG : length G = d) by (unfold G; by rewrite length_map, length_seq).
  assert (HF : length F = d).
  { unfold F, vsub. rewrite length_zip_with, HG, (wf_u s Hs). fold d. lia. }
  assert (Hs' : wf s') by (apply wf_accelerated; auto; lia).
  pose proof (shape_finalize_dG s G F Hs HG) as [HdGl HdGc]. fold dG in HdGl, HdGc.
  assert (Hk : (m_k <= Z.to_nat (m_ s))%nat) by (unfold m_k; lia).
  assert (Hu : current_u_ s' =
               mix (dim_ s) G dG (theta_ s') (dF_scale_ s')
                   (Z.min (m_ s) (iter_ s)))
    by reflexivity.
  assert (HdG' : prev_dG_ s' = set_col dG (Z.to_nat (col_idx_ s')) (vneg G))
    by reflexivity.
  assert (Hdim' : dim_ s' = dim_ s) by reflexivity.
  assert (Hm' : m_ s' = m_ s) by reflexivity.
  clearbody s'.
  exists s', (current_u_ s'). split; [done|]. split; [done|].
  split; [by rewrite (wf_u _ Hs'), Hdim'|]. split.
  - intros i Hli.
    assert (Hth : length (theta_ s') = Z.to_nat (m_ s))
      by (rewrite <- Hm'; apply (wf_theta _ Hs')).
    assert (Hsc : length (dF_scale_ s') = Z.to_nat (m_ s))
      by (rewrite <- Hm'; apply (wf_scale _ Hs')).
    rewrite Hu, lookup_mix; try done; try (fold m_k; lia).
    fold m_k. do 2 f_equal. unfold G.
    apply list_lookup_total_correct, lookup_Map_list. done.
  - intros j Hj. rewrite HdG'. by rewrite col_set_col_ne.
Qed.

(** C2.  After [init(m, d, u0)] with [m > 0] (and [d >= 0]) the first
    [compute(g)] returns the [d] scalars of [g] unchanged, and leaves [-F]
    in slot 0 of [prev_dF_] and [-G] in slot 0 of [prev_dG_], where
    [F = G - u0]. *)
Theorem first_compute_returns_g s0 m d (u0 : ScalarPtr S) fresh g :
  (0 < m)%Z -> (0 <= d)%Z ->
  let G := map g (seq 0 (Z.to_nat d)) in
  let F := vsub G (map u0 (seq 0 (Z.to_nat d))) in
  exists s1 s2,
    init s0 m d u0 fresh = Ok s1 /\
    compute cod_solve s1 g = Ok (s2, G) /\
    current_F_ s2 = F /\
    prev_dF_ s2 !! 0%nat = Some (vneg F) /\
    prev_dG_ s2 !! 0%nat = Some (vneg G).
Proof.
  intros Hm Hd G F.
  destruct (init_Ok s0 m d u0 fresh Hm Hd) as [s1 Hinit].
  pose proof (wf_init _ _ _ _ _ _ Hinit) as Hs1.
  apply init_inv in Hinit as Hs1eq. destruct Hs1eq as (_ & _ & Hs1eq).
  assert (Hdim : dim_ s1 = d) by (by rewrite Hs1eq).
  assert (Hit : iter_ s1 = 0%Z) by (by rewrite Hs1eq).
  assert (Hu : current_u_ s1 = map u0 (seq 0 (Z.to_nat d))) by (by rewrite Hs1eq).
  assert (Hmm : m_ s1 = m) by (by rewrite Hs1eq).
  pose proof (compute_Ok cod_solve s1 g ltac:(lia) ltac:(lia)) as Hc.
  cbv zeta in Hc. rewrite Hit, Hdim, Hu in Hc. simpl in Hc. fold G F in Hc.
  exists s1, (cold_start s1 G F). split; [done|]. split; [exact Hc|].
  split; [done|].
  destruct (wf_dF _ Hs1) as [HlF _]. destruct (wf_dG _ Hs1) as [HlG _].
  split; unfold cold_start; simpl; unfold set_col;
    apply list_lookup_insert_eq; lia.
Qed.

(** C3.  In a state reached after [init], [replace(u)] returns the state
    with [current_u_] overwritten by the [dim_] scalars of [u] and every
    other member as it was; the next [compute(g)] (the counter not having
    wrapped) takes its residual against [u]: [current_F_ = G - u]. *)
Theorem replace_overwrites_only_iterate s (u : ScalarPtr S) :
  Reachable cod_solve s ->
  let U := map u (seq 0 (Z.to_nat (dim_ s))) in
  exists s',
    replace s u = Ok s' /\
    s' = {| current_u_ := U;
            current_F_ := current_F_ s; prev_dG_ := prev_dG_ s;
            prev_dF_ := prev_dF_ s; M_ := M_ s; theta_ := theta_ s;
            dF_scale_ := dF_scale_ s; m_ := m_ s; dim_ := dim_ s;
            iter_ := iter_ s; col_idx_ := col_idx_ s |} /\
    forall g, (0 <= iter_ s)%Z ->
      exists s'' out,
        compute cod_solve s' g = Ok (s'', out) /\
        current_F_ s'' = vsub (map g (seq 0 (Z.to_nat (dim_ s)))) U.
Proof.
  intros Hs%Reachable_wf U. pose proof (wf_dim s Hs) as Hd.
  eexists. split; [unfold replace; by rewrite Map_Ok|].
  split; [reflexivity|]. intros g Hi.
  match goal with |- context [compute _ ?r _] =>
    pose proof (compute_Ok cod_solve r g Hi Hd) as Hc end.
  cbv zeta in Hc. eexists _, _. split; [exact Hc|].
  simpl. by destruct (_ =? _)%Z.
Qed.
End Calls.

(** ** Coefficients of the updated Gram matrix *)

Section GramCoefficients.
Context {S : Type} {ops : ScalarOps S}.
Variable cod_solve : MatrixXX S -> VectorX S -> VectorX S.
Implicit Types (A B M D : MatrixXX S) (v w x F : VectorX S).

Lemma lookup_total_imap {T} `{!Inhabited T} (f : nat -> T -> T) (l : list T) i :
  (i < length l)%nat -> imap f l !!! i = f i (l !!! i).
Proof.
  intros Hi. apply list_lookup_total_correct.
  by rewrite list_lookup_imap, (list_lookup_lookup_total_lt l i Hi).
Qed.

Lemma coeff_set_coeff r c A i0 j0 y i j :
  shape r c A -> (i0 < r)%nat -> (j0 < c)%nat ->
  coeff (set_coeff A i0 j0 y) i j =
  if decide (i = i0 /\ j = j0) then y else coeff A i j.
Proof.
  intros HA Hi0 Hj0. pose proof (shape_col r c A j0 HA Hj0) as Hl.
  destruct HA as [HAl _]. unfold coeff, set_coeff, col in Hl |- *.
  destruct (decide (j = j0)) as [->|Hj].
  - rewrite list_lookup_total_insert_eq by lia.
    destruct (decide (i = i0)) as [->|Hi].
    + rewrite list_lookup_total_insert_eq by lia. by rewrite decide_True.
    + rewrite list_lookup_total_insert_ne by done. by rewrite decide_False by (intros [??]; lia).
  - rewrite list_lookup_total_insert_ne by done. by rewrite decide_False by (intros [??]; lia).
Qed.

Lemma coeff_set_row_head r c A i0 k v i j :
  shape r c A -> (i0 < r)%nat -> (j < c)%nat ->
  coeff (set_row_head A i0 k v) i j =
  if decide (i = i0 /\ (j < k)%nat) then v !!! j else coeff A i j.
Proof.
  intros HA Hi0 Hj. pose proof (shape_col r c A j HA Hj) as Hl.
  destruct HA as [HAl _]. unfold coeff, set_row_head, col in Hl |- *.
  rewrite lookup_total_imap by lia.
  destruct (decide (j < k)%nat) as [Hjk|Hjk].
  - destruct (decide (i = i0)) as [->|Hi].
    + rewrite list_lookup_total_insert_eq by lia. by rewrite decide_True.
    + rewrite list_lookup_total_insert_ne by done. by rewrite decide_False by (intros [??]; lia).
  - by rewrite decide_False by (intros [??]; lia).
Qed.

Lemma coeff_set_col_head r c A j0 k v i j :
  shape r c A -> (j0 < c)%nat -> (i < r)%nat ->
  coeff (set_col_head A j0 k v) i j =
  if decide (j = j0 /\ (i < k)%nat) then v !!! i else coeff A i j.
Proof.
  intros HA Hj0 Hi. pose proof (shape_col r c A j0 HA Hj0) as Hl.
  destruct HA as [HAl _]. unfold coeff, set_col_head, set_head, col in Hl |- *.
  destruct (decide (j = j0)) as [->|Hj].
  - rewrite list_lookup_total_insert_eq by lia.
    rewrite lookup_total_imap by lia.
    destruct (decide (i < k)%nat).
    + by rewrite decide_True.
    + by rewrite decide_False by (intros [??]; lia).
  - rewrite list_lookup_total_insert_ne by done. by rewrite decide_False by (intros [??]; lia).
Qed.

Lemma lookup_total_row_times v D k j :
  (j < k)%nat -> (k <= length D)%nat ->
  row_times v (leading_cols D k) !!! j = dot v (col D j).
Proof.
  intros Hj Hk. unfold row_times, leading_cols, col.
  rewrite (list_lookup_total_fmap (dot v) (take k D) j)
    by (rewrite length_take_le; lia).
  by rewrite lookup_total_take_lt.
Qed.

(** The Gram matrix after lines 77-100, entry by entry. *)
Lemma coeff_normal_equations n M theta D F c m_k i j :
  shape n n M -> (c < Z.to_nat m_k <= n)%nat -> (Z.to_nat m_k <= length D)%nat ->
  (i < n)%nat -> (j < n)%nat ->
  coeff (normal_equations cod_solve M theta D F c m_k).1 i j =
  if (m_k =? 1)%Z then
    if decide (i = 0%nat /\ j = 0%nat) then squaredNorm (col D c) else coeff M i j
  else if decide (j = c /\ (i < Z.to_nat m_k)%nat) then dot (col D c) (col D i)
  else if decide (i = c /\ (j < Z.to_nat m_k)%nat) then dot (col D c) (col D j)
  else coeff M i j.
Proof.
  intros HM Hc HD Hi Hj. unfold normal_equations.
  destruct (m_k =? 1)%Z.
  - assert (coeff (set_coeff M 0 0 (squaredNorm (col D c))) i j =
            if decide (i = 0%nat /\ j = 0%nat) then squaredNorm (col D c)
            else coeff M i j) as E
      by (apply (coeff_set_coeff n n); [done|lia..]).
    by destruct (Sltb _ _).
  - cbn [fst].
    rewrite (coeff_set_col_head n n)
      by first [by apply shape_set_row_head | lia].
    rewrite (coeff_set_row_head n n) by first [done | lia].
    destruct (decide (j = c /\ (i < Z.to_nat m_k)%nat)) as [[_ Hik]|_].
    + by apply lookup_total_row_times.
    + destruct (decide (i = c /\ (j < Z.to_nat m_k)%nat)) as [[_ Hjk]|_]; [|done].
      by apply lookup_total_row_times.
Qed.

Lemma coeff_leading_block n A k i j :
  shape n n A -> (k <= n)%nat -> (i < k)%nat -> (j < k)%nat ->
  coeff (leading_block A k) i j = coeff A i j.
Proof.
  intros [HAl HAc] Hk Hi Hj. unfold coeff, leading_block.
  rewrite (list_lookup_total_fmap (take k) (take k A) j)
    by (rewrite length_take_le; lia).
  by rewrite !lookup_total_take_lt.
Qed.

Lemma leading_block_ext n A B k :
  shape n n A -> shape n n B -> (k <= n)%nat ->
  (forall i j, (i < k)%nat -> (j < k)%nat -> coeff A i j = coeff B i j) ->
  leading_block A k = leading_block B k.
Proof.
  intros HA HB Hk Hco. unfold leading_block.
  apply list_eq. intros j. rewrite !list_lookup_fmap.
  destruct (decide (j < k)%nat) as [Hj|Hj].
  - rewrite !lookup_take_lt by done.
    pose proof (shape_col n n A j HA ltac:(lia)) as HAj.
    pose proof (shape_col n n B j HB ltac:(lia)) as HBj.
    destruct HA as [HAl _], HB as [HBl _].
    rewrite (list_lookup_lookup_total_lt A j), (list_lookup_lookup_total_lt B j)
      by lia.
    simpl. f_equal. apply list_eq. intros i.
    destruct (decide (i < k)%nat) as [Hi|Hi].
    + rewrite !lookup_take_lt by done. unfold col in HAj, HBj.
      rewrite (list_lookup_lookup_total_lt (A !!! j) i),
              (list_lookup_lookup_total_lt (B !!! j) i) by lia.
      f_equal. apply (Hco i j Hi Hj).
    + rewrite !lookup_take_ge; [done|lia..].
  - rewrite !lookup_take_ge; [done|lia..].
Qed.
End GramCoefficients.

(** ** The window and the ring *)

Section Ring.
Context {S : Type} {ops : ScalarOps S}.
Implicit Types (s : AndersonAcceleration S).

(** Where the write index stands relative to the window, before and after
    a call with [iter_ > 0]: the slot being completed is active; the next
    slot either extends the window by one or, once the ring is full, lies
    inside it. *)
Lemma ring_position s :
  wf s -> (0 < iter_ s)%Z ->
  let k := window s in
  let c := Z.to_nat (col_idx_ s) in
  let c' := Z.to_nat (Z.rem (col_idx_ s + 1) (m_ s)) in
  let k' := Z.to_nat (Z.min (m_ s) (int_incr (iter_ s))) in
  (c < k)%nat /\ (0 < k <= Z.to_nat (m_ s))%nat /\ (c' < Z.to_nat (m_ s))%nat /\
  (k' = 0%nat \/
   (k' = k /\ k = Z.to_nat (m_ s)) \/
   (k' = Datatypes.S k /\ c' = k /\ (k < Z.to_nat (m_ s))%nat)).
Proof.
  intros Hs Hi k c c' k'. subst k c c' k'. unfold window.
  pose proof (wf_m s Hs) as Hm. pose proof (wf_iter_range s Hs) as Hr.
  pose proof (wf_warm s Hs Hi) as Hw.
  pose proof (Z.mod_pos_bound (iter_ s - 1) (m_ s) Hm) as Hb.
  pose proof (Z.mod_le (iter_ s - 1) (m_ s) ltac:(lia) Hm) as Hle.
  rewrite Z.rem_mod_nonneg by lia.
  pose proof (Z.mod_pos_bound (col_idx_ s + 1) (m_ s) Hm) as Hb'.
  split; [lia|]. split; [lia|]. split; [lia|].
  destruct (decide (iter_ s = INT_MAX)) as [E|E].
  { left. rewrite E, int_incr_max. lia. }
  rewrite int_incr_next by lia.
  destruct (Z.lt_ge_cases (iter_ s) (m_ s)) as [Hlt|Hge].
  - right; right.
    assert (Hc : col_idx_ s = (iter_ s - 1)%Z)
      by (rewrite Hw; apply Z.mod_small; lia).
    rewrite Hc. replace (iter_ s - 1 + 1)%Z with (iter_ s) by lia.
    rewrite Z.mod_small by lia. lia.
  - right; left. lia.
Qed.

Lemma window_le s : (window s <= Z.to_nat (m_ s))%nat.
Proof. unfold window. lia. Qed.
End Ring.

(** ** What a call reads *)

Section ReadsAlike.
Context {S : Type} {ops : ScalarOps S}.
Variable cod_solve : MatrixXX S -> VectorX S -> VectorX S.
Implicit Types (s : AndersonAcceleration S) (A B M D : MatrixXX S).
Implicit Types (v w x y F G theta : VectorX S).

Lemma take_eq_col A B k c :
  (c < k)%nat -> take k A = take k B -> col A c = col B c.
Proof.
  intros Hc E. unfold col.
  rewrite <- (lookup_total_take_lt A k c), <- (lookup_total_take_lt B k c) by done.
  by rewrite E.
Qed.

Lemma take_set_col A B k c v :
  (c < k)%nat -> take k A = take k B ->
  take k (set_col A c v) = take k (set_col B c v).
Proof. intros Hc E. unfold set_col. by rewrite !take_insert_lt, E. Qed.

Lemma take_S_insert {T} (l : list T) k (e : T) :
  (k < length l)%nat -> take (Datatypes.S k) (<[k := e]> l) = take k l ++ [e].
Proof.
  intros Hk. rewrite (take_S_r _ _ e) by (by apply list_lookup_insert_eq).
  by rewrite take_insert_ge.
Qed.

Lemma take_insert_ext x y k c a :
  length x = length y ->
  (forall j, (j < k)%nat -> j <> c -> x !!! j = y !!! j) ->
  take k (<[c := a]> x) = take k (<[c := a]> y).
Proof.
  intros Hl Hxy. apply list_eq. intros j.
  destruct (decide (j < k)%nat) as [Hj|Hj].
  - rewrite !lookup_take_lt by done.
    destruct (decide (j < length x)%nat) as [Hjl|Hjl].
    + destruct (decide (c = j)) as [->|Hcj].
      * rewrite !list_lookup_insert_eq; [done|lia..].
      * rewrite !list_lookup_insert_ne by done.
        rewrite (list_lookup_lookup_total_lt x j), (list_lookup_lookup_total_lt y j)
          by lia.
        f_equal. apply Hxy; [done|]. intros ->. done.
    + rewrite !lookup_ge_None_2; [done|rewrite length_insert; lia..].
  - rewrite !lookup_take_ge; [done|lia..].
Qed.

Lemma take_set_head theta theta' k v :
  (k <= length theta)%nat -> (k <= length theta')%nat ->
  take k (set_head theta k v) = take k (set_head theta' k v).
Proof.
  intros H1 H2. apply list_eq. intros j.
  destruct (decide (j < k)%nat) as [Hj|Hj].
  - rewrite !lookup_take_lt by done. rewrite !lookup_set_head by lia.
    by rewrite !decide_True.
  - rewrite !lookup_take_ge; [done|lia..].
Qed.

Lemma take_lookup_total x y k j :
  (j < k)%nat -> take k x = take k y -> x !!! j = y !!! j.
Proof.
  intros Hj E.
  rewrite <- (lookup_total_take_lt x k j), <- (lookup_total_take_lt y k j) by done.
  by rewrite E.
Qed.

(** Lines 67-73 read the history only at the write index. *)
Lemma finalize_alike s1 s2 G F :
  wf s1 -> wf s2 -> reads_alike s1 s2 -> (0 < iter_ s1)%Z ->
  let k := window s1 in
  take k (finalize s1 G F).1.1 = take k (finalize s2 G F).1.1 /\
  take k (finalize s1 G F).1.2 = take k (finalize s2 G F).1.2 /\
  take k (finalize s1 G F).2 = take k (finalize s2 G F).2.
Proof.
  intros H1 H2 Hra Hi k.
  destruct (ring_position s1 H1 Hi) as (Hc & Hk & _). fold k in Hc, Hk.
  destruct Hra as [Em Ed Ei Ec Eu EdG EdF Esc EM]. fold k in EdG, EdF, Esc, EM.
  destruct (wf_dF _ H1) as [Hl1 _]. destruct (wf_dF _ H2) as [Hl2 _].
  unfold finalize. cbn [fst snd]. rewrite <- Ec.
  set (c := Z.to_nat (col_idx_ s1)) in *.
  rewrite !col_set_col_eq by lia.
  rewrite <- (take_eq_col _ _ k c Hc EdF), <- (take_eq_col _ _ k c Hc EdG).
  split; [|split].
  - apply take_set_col; [done|]. by apply take_set_col.
  - by apply take_set_col.
  - apply take_insert_ext; [|done].
    by rewrite (wf_scale _ H1), (wf_scale _ H2), Em.
Qed.

Lemma normal_equations_else M theta D F c m_k :
  (m_k =? 1)%Z = false ->
  let M' := (normal_equations cod_solve M theta D F c m_k).1 in
  (normal_equations cod_solve M theta D F c m_k).2 =
  set_head theta (Z.to_nat m_k)
    (cod_solve (leading_block M' (Z.to_nat m_k))
               (transpose_times (leading_cols D (Z.to_nat m_k)) F)).
Proof. intros E. unfold normal_equations. by rewrite E. Qed.

(** Lines 77-100 read the active block of [M_] off the row and column they
    rewrite, and the active columns of [prev_dF_]. *)
Lemma normal_equations_alike n M1 M2 theta1 theta2 D1 D2 F c m_k :
  let k := Z.to_nat m_k in
  shape n n M1 -> shape n n M2 -> length theta1 = n -> length theta2 = n ->
  (c < k <= n)%nat -> (k <= length D1)%nat -> (k <= length D2)%nat ->
  take k D1 = take k D2 ->
  (forall i j, (i < k)%nat -> (j < k)%nat -> i <> c -> j <> c ->
               coeff M1 i j = coeff M2 i j) ->
  let ne1 := normal_equations cod_solve M1 theta1 D1 F c m_k in
  let ne2 := normal_equations cod_solve M2 theta2 D2 F c m_k in
  (forall i j, (i < k)%nat -> (j < k)%nat -> coeff ne1.1 i j = coeff ne2.1 i j) /\
  take k ne1.2 = take k ne2.2.
Proof.
  intros k HM1 HM2 Ht1 Ht2 Hc HD1 HD2 ED EM ne1 ne2.
  assert (Hcol : forall j, (j < k)%nat -> col D1 j = col D2 j)
    by (intros j Hj; by apply (take_eq_col _ _ k)).
  assert (Hco : forall i j, (i < k)%nat -> (j < k)%nat ->
                            coeff ne1.1 i j = coeff ne2.1 i j).
  { intros i j Hi Hj. unfold ne1, ne2.
    rewrite !(coeff_normal_equations cod_solve n) by first [done | lia].
    rewrite !Hcol by lia.
    destruct (m_k =? 1)%Z eqn:E1.
    - apply Z.eqb_eq in E1. destruct (decide (i = 0%nat /\ j = 0%nat)); [done|].
      unfold k in Hi, Hj. lia.
    - fold k. destruct (decide (j = c /\ (i < k)%nat)); [done|].
      destruct (decide (i = c /\ (j < k)%nat)); [done|].
      apply EM; [done|done|lia|lia]. }
  split; [exact Hco|].
  destruct (m_k =? 1)%Z eqn:E1.
  - unfold ne1, ne2, normal_equations. rewrite E1, (Hcol c) by lia.
    apply Z.eqb_eq in E1.
    destruct (Sltb _ _); cbn [snd];
      repeat (apply take_insert_ext; [by rewrite ?length_insert, Ht1, Ht2|]);
      intros j Hj Hj0; unfold k in Hj; lia.
  - unfold ne1, ne2. rewrite !normal_equations_else by done. fold k ne1 ne2.
    unfold leading_cols. rewrite <- ED.
    rewrite (leading_block_ext n ne1.1 ne2.1 k);
      [|by apply shape_normal_equations..|lia|done].
    apply take_set_head; lia.
Qed.

Lemma accelerated_alike s1 s2 G F :
  wf s1 -> wf s2 -> reads_alike s1 s2 -> (0 < iter_ s1)%Z ->
  length G = Z.to_nat (dim_ s1) -> length F = Z.to_nat (dim_ s1) ->
  current_u_ (accelerated cod_solve s1 G F) =
    current_u_ (accelerated cod_solve s2 G F) /\
  reads_alike (accelerated cod_solve s1 G F) (accelerated cod_solve s2 G F).
Proof.
  intros H1 H2 Hra Hi HG HF.
  destruct (finalize_alike s1 s2 G F H1 H2 Hra Hi) as (EdF & EdG & Esc).
  destruct (ring_position s1 H1 Hi) as (Hc & Hk & Hc' & Hcases).
  pose proof Hra as [Em Ed Ei Ec Eu _ _ _ EM].
  pose proof (shape_finalize_dF s1 G F H1 HF) as HdF1.
  pose proof (shape_finalize_dF s2 G F H2 ltac:(by rewrite <- Ed)) as HdF2.
  pose proof (shape_finalize_dG s1 G F H1 HG) as HdG1.
  pose proof (shape_finalize_dG s2 G F H2 ltac:(by rewrite <- Ed)) as HdG2.
  pose proof (length_finalize_scale s1 G F) as Hsc1.
  pose proof (length_finalize_scale s2 G F) as Hsc2.
  rewrite (wf_scale _ H1) in Hsc1. rewrite (wf_scale _ H2), <- Em in Hsc2.
  rewrite <- Em, <- Ed in HdF2, HdG2.
  destruct (normal_equations_alike (Z.to_nat (m_ s1)) (M_ s1) (M_ s2)
              (theta_ s1) (theta_ s2) (finalize s1 G F).1.1 (finalize s2 G F).1.1
              F (Z.to_nat (col_idx_ s1)) (Z.min (m_ s1) (iter_ s1)))
    as [ENM ENth]; try done.
  { apply (wf_M _ H1). }
  { rewrite Em. apply (wf_M _ H2). }
  { apply (wf_theta _ H1). }
  { rewrite Em. apply (wf_theta _ H2). }
  { unfold window in Hc, Hk. lia. }
  { rewrite (proj1 HdF1). unfold window in Hk. lia. }
  { rewrite (proj1 HdF2). unfold window in Hk. lia. }
  fold (window s1) in ENM, ENth.
  assert (Eu' : current_u_ (accelerated cod_solve s1 G F) =
                current_u_ (accelerated cod_solve s2 G F)).
  { unfold accelerated. cbn [current_u_]. rewrite <- Em, <- Ed, <- Ei, <- Ec.
    unfold mix, leading_cols. fold (window s1). by rewrite EdG, ENth, Esc. }
  split; [exact Eu'|].
  unfold accelerated in Eu' |- *.
  constructor;
    cbn [m_ dim_ iter_ col_idx_ current_u_ prev_dG_ prev_dF_ dF_scale_ M_];
    unfold window;
    cbn [m_ dim_ iter_ col_idx_ current_u_ prev_dG_ prev_dF_ dF_scale_ M_];
    rewrite <- ?Em, <- ?Ed, <- ?Ei, <- ?Ec; try done.
  - unfold mix, leading_cols. fold (window s1). by rewrite EdG, ENth, Esc.
  - destruct Hcases as [->|[[-> Hfull]|(-> & -> & Hlt)]]; [done|..].
    + apply take_set_col; [lia|done].
    + unfold set_col. rewrite !take_S_insert; [by rewrite EdG|..].
      * rewrite (proj1 HdG2). lia.
      * rewrite (proj1 HdG1). lia.
  - destruct Hcases as [->|[[-> Hfull]|(-> & -> & Hlt)]]; [done|..].
    + apply take_set_col; [lia|done].
    + unfold set_col. rewrite !take_S_insert; [by rewrite EdF|..].
      * rewrite (proj1 HdF2). lia.
      * rewrite (proj1 HdF1). lia.
  - intros j Hj Hjc. apply (take_lookup_total _ _ (window s1)); [|done].
    destruct Hcases as [E|[[E Hfull]|(E & E' & Hlt)]]; lia.
  - intros i j Hli Hlj Hic Hjc.
    apply ENM; destruct Hcases as [E|[[E Hfull]|(E & E' & Hlt)]]; lia.
Qed.

Lemma cold_start_alike s1 s2 G F :
  wf s1 -> wf s2 -> reads_alike s1 s2 -> iter_ s1 = 0%Z ->
  reads_alike (cold_start s1 G F) (cold_start s2 G F).
Proof.
  intros H1 H2 [Em Ed Ei Ec Eu _ _ _ _] Hi.
  pose proof (wf_cold _ H1 Hi) as Hc. pose proof (wf_m _ H1) as Hm.
  destruct (wf_dG _ H1) as [HG1 _]. destruct (wf_dG _ H2) as [HG2 _].
  destruct (wf_dF _ H1) as [HF1 _]. destruct (wf_dF _ H2) as [HF2 _].
  assert (Hw : Z.to_nat (Z.min (m_ s1) (int_incr (iter_ s1))) = 1%nat).
  { rewrite Hi. change (int_incr 0) with 1%Z. lia. }
  unfold cold_start.
  constructor;
    cbn [m_ dim_ iter_ col_idx_ current_u_ prev_dG_ prev_dF_ dF_scale_ M_];
    unfold window;
    cbn [m_ dim_ iter_ col_idx_ current_u_ prev_dG_ prev_dF_ dF_scale_ M_];
    rewrite <- ?Em, <- ?Ed, <- ?Ei, <- ?Ec, ?Hw, ?Hc; try done.
  - unfold set_col. rewrite !take_S_insert; [done|lia..].
  - unfold set_col. rewrite !take_S_insert; [done|lia..].
  - intros j Hj Hj0. change (Z.to_nat 0) with 0%nat in Hj0. lia.
  - intros i j Hli Hlj Hi0. change (Z.to_nat 0) with 0%nat in Hi0. lia.
Qed.

(** One [compute] on two instances that read alike: the same abort, or the
    same iterate and states that read alike again. *)
Lemma compute_alike s1 s2 g :
  wf s1 -> wf s2 -> reads_alike s1 s2 ->
  match compute cod_solve s1 g, compute cod_solve s2 g with
  | Ok (s1', u1), Ok (s2', u2) => u1 = u2 /\ reads_alike s1' s2'
  | Abort f1, Abort f2 => f1 = f2
  | _, _ => False
  end.
Proof.
  intros H1 H2 Hra. pose proof Hra as [Em Ed Ei Ec Eu _ _ _ _].
  destruct (Z.lt_ge_cases (iter_ s1) 0) as [Hneg|Hpos].
  { unfold compute. rewrite <- Ei.
    by destruct (Z.ltb_spec (iter_ s1) 0); [|lia]. }
  pose proof (wf_dim _ H1) as Hd.
  rewrite (compute_Ok cod_solve s1 g Hpos Hd).
  rewrite (compute_Ok cod_solve s2 g) by (by rewrite <- ?Ei, <- ?Ed).
  cbv zeta. rewrite <- Ei, <- Ed, <- Eu.
  set (G := map g (seq 0 (Z.to_nat (dim_ s1)))).
  set (F := vsub G (current_u_ s1)).
  assert (HG : length G = Z.to_nat (dim_ s1))
    by (unfold G; by rewrite length_map, length_seq).
  assert (HF : length F = Z.to_nat (dim_ s1)).
  { unfold F, vsub. rewrite length_zip_with, HG, (wf_u _ H1). lia. }
  destruct (Z.eqb_spec (iter_ s1) 0) as [Hz|Hnz].
  - split; [done|]. by apply cold_start_alike.
  - apply accelerated_alike; auto. lia.
Qed.

Lemma replace_alike s1 s2 (u : ScalarPtr S) :
  reads_alike s1 s2 ->
  match replace s1 u, replace s2 u with
  | Ok s1', Ok s2' => reads_alike s1' s2'
  | Abort f1, Abort f2 => f1 = f2
  | _, _ => False
  end.
Proof.
  intros [Em Ed Ei Ec Eu EdG EdF Esc EM]. unfold replace. rewrite <- Ed.
  destruct (Map u (dim_ s1)); [|done]. by constructor.
Qed.

Lemma init_alike s1 s2 m d (u0 : ScalarPtr S) fresh1 fresh2 :
  match init s1 m d u0 fresh1, init s2 m d u0 fresh2 with
  | Ok s1', Ok s2' => reads_alike s1' s2'
  | Abort f1, Abort f2 => f1 = f2
  | _, _ => False
  end.
Proof.
  unfold init. destruct (m <=? 0)%Z; [done|]. destruct (d <? 0)%Z; [done|].
  destruct (Map u0 d); [|done].
  constructor; cbn [m_ dim_ iter_ col_idx_ current_u_]; try done;
    unfold window; cbn [m_ iter_];
    replace (Z.to_nat (Z.min m 0)) with 0%nat by lia; try done; intros; lia.
Qed.

(** A whole program of calls returns the same on both. *)
Lemma run_alike s1 s2 cs :
  wf s1 -> wf s2 -> reads_alike s1 s2 ->
  returned (run cod_solve s1 cs) = returned (run cod_solve s2 cs).
Proof.
  revert s1 s2. induction cs as [|c cs IH]; intros s1 s2 H1 H2 Hra; [done|].
  cbn [run].
  assert (Hstep :
    match step cod_solve s1 c, step cod_solve s2 c with
    | Ok (s1', o1), Ok (s2', o2) =>
        o1 = o2 /\ wf s1' /\ wf s2' /\ reads_alike s1' s2'
    | Abort f1, Abort f2 => f1 = f2
    | _, _ => False
    end).
  { destruct c as [m d u0 fresh|u|g]; cbn [step].
    - pose proof (init_alike s1 s2 m d u0 fresh fresh) as Hi.
      destruct (init s1 m d u0 fresh) as [s1'|] eqn:E1,
               (init s2 m d u0 fresh) as [s2'|] eqn:E2; try done.
      split; [done|]. split; [by eapply wf_init|]. split; [by eapply wf_init|done].
    - pose proof (replace_alike s1 s2 u Hra) as Hr.
      destruct (replace s1 u) as [s1'|] eqn:E1,
               (replace s2 u) as [s2'|] eqn:E2; try done.
      split; [done|]. split; [exact (wf_replace _ _ _ H1 E1)|]. split; [exact (wf_replace _ _ _ H2 E2)|done].
    - pose proof (compute_alike s1 s2 g H1 H2 Hra) as Hc.
      destruct (compute cod_solve s1 g) as [[s1' u1]|] eqn:E1,
               (compute cod_solve s2 g) as [[s2' u2]|] eqn:E2; try done.
      destruct Hc as [-> Hc]. split; [done|]. split; [exact (wf_compute cod_solve _ _ _ _ H1 E1)|]. split; [exact (wf_compute cod_solve _ _ _ _ H2 E2)|done]. }
  destruct (step cod_solve s1 c) as [[s1' o1]|f1],
           (step cod_solve s2 c) as [[s2' o2]|f2]; try done.
  - destruct Hstep as (-> & H1' & H2' & Hra').
    specialize (IH s1' s2' H1' H2' Hra').
    destruct (run cod_solve s1' cs) as [[? us1]|],
             (run cod_solve s2' cs) as [[? us2]|]; simpl in IH |- *; congruence.
  - simpl. congruence.
Qed.
End ReadsAlike.

(** ** Stale slots and re-initialisation *)

Section Window.
Context {S : Type} {ops : ScalarOps S}.
Variable cod_solve : MatrixXX S -> VectorX S -> VectorX S.
Implicit Types (s : AndersonAcceleration S).

Lemma same_active_reads_alike s1 s2 :
  wf s1 -> wf s2 -> same_active s1 s2 -> reads_alike s1 s2.
Proof.
  intros H1 H2 [Em Ed Ei Ec Eu EF Eth EdG EdF Esc EM].
  constructor; try done.
  - intros j Hj _. by apply (take_lookup_total _ _ (window s1)).
  - intros i j Hi Hj _ _.
    pose proof (window_le s1) as Hk.
    rewrite <- (coeff_leading_block (Z.to_nat (m_ s1)) (M_ s1) (window s1) i j),
            <- (coeff_leading_block (Z.to_nat (m_ s1)) (M_ s2) (window s1) i j);
      try done.
    + by rewrite EM.
    + rewrite Em. apply (wf_M _ H2).
    + apply (wf_M _ H1).
Qed.

Lemma Reachable_run s cs s' us :
  Reachable cod_solve s -> run cod_solve s cs = Ok (s', us) ->
  Reachable cod_solve s'.
Proof.
  revert s us. induction cs as [|c cs IH]; intros s us Hs; cbn [run].
  - by intros [= <- _].
  - destruct (step cod_solve s c) as [[s1 o]|] eqn:Hstep; [|done].
    destruct (run cod_solve s1 cs) as [[s2 us']|] eqn:Hrun; [|done].
    intros [= <- _]. apply (IH s1 us'); [|done].
    destruct c as [m d u0 fresh|u|g]; cbn [step] in Hstep.
    + destruct (init s m d u0 fresh) eqn:E; [|done].
      injection Hstep as <- _. by eapply Reachable_init.
    + destruct (replace s u) eqn:E; [|done].
      injection Hstep as <- _. by eapply Reachable_replace.
    + destruct (compute cod_solve s g) as [[s3 u]|] eqn:E; [|done].
      injection Hstep as <- _. by eapply Reachable_compute.
Qed.

(** C4.  Two well-formed instances (every state reached after [init] is
    well-formed, [Reachable_wf]) whose states differ only in the slots at
    indices [m_k = min(m_, iter_)] and beyond of [prev_dG_], [prev_dF_],
    [dF_scale_] and [M_] return the same iterate from [compute(g)], and the
    same iterates from every further program of calls. *)
Theorem stale_slots_do_not_influence s1 s2 :
  wf s1 -> wf s2 -> same_active s1 s2 ->
  (forall g, returned (compute cod_solve s1 g) = returned (compute cod_solve s2 g)) /\
  (forall cs, returned (run cod_solve s1 cs) = returned (run cod_solve s2 cs)).
Proof.
  intros H1 H2 Hsa. pose proof (same_active_reads_alike s1 s2 H1 H2 Hsa) as Hra.
  split.
  - intros g. pose proof (compute_alike cod_solve s1 s2 g H1 H2 Hra) as Hc.
    destruct (compute cod_solve s1 g) as [[s1' u1]|],
             (compute cod_solve s2 g) as [[s2' u2]|]; simpl; try done.
    + by destruct Hc as [-> _].
    + by rewrite Hc.
  - intros cs. by apply run_alike.
Qed.

(** C10.  [init(m, d, u0)] with [m > 0] and [d >= 0] succeeds in every
    state, whatever was computed before: the iterate is [u0], the counter
    and the write index are 0, the buffers have the sizes of the new
    [(d, m)], the next [compute(g)] returns [g], and every program of calls
    that follows returns what it returns on any other instance
    initialised with the same arguments. *)
Theorem init_resets s m d (u0 : ScalarPtr S) fresh :
  (0 < m)%Z -> (0 <= d)%Z ->
  exists s',
    init s m d u0 fresh = Ok s' /\
    current_u_ s' = map u0 (seq 0 (Z.to_nat d)) /\
    iter_ s' = 0%Z /\ col_idx_ s' = 0%Z /\ m_ s' = m /\ dim_ s' = d /\
    shape (Z.to_nat d) (Z.to_nat m) (prev_dG_ s') /\
    shape (Z.to_nat d) (Z.to_nat m) (prev_dF_ s') /\
    shape (Z.to_nat m) (Z.to_nat m) (M_ s') /\
    length (theta_ s') = Z.to_nat m /\
    length (dF_scale_ s') = Z.to_nat m /\
    (forall g, returned (compute cod_solve s' g) = Ok (map g (seq 0 (Z.to_nat d)))) /\
    (forall s2 fresh2 cs,
       returned (run cod_solve s (Init m d u0 fresh :: cs)) =
       returned (run cod_solve s2 (Init m d u0 fresh2 :: cs))).
Proof.
  intros Hm Hd. destruct (init_Ok s m d u0 fresh Hm Hd) as [s' Hinit].
  pose proof (wf_init _ _ _ _ _ _ Hinit) as Hs'.
  pose proof (init_inv _ _ _ _ _ _ Hinit) as (_ & _ & Es').
  assert (Em : m_ s' = m) by (by rewrite Es').
  assert (Ed : dim_ s' = d) by (by rewrite Es').
  assert (Ei : iter_ s' = 0%Z) by (by rewrite Es').
  exists s'. split; [done|]. split; [by rewrite Es'|].
  split; [done|]. split; [by rewrite Es'|]. split; [done|]. split; [done|].
  split; [rewrite <- Em, <- Ed; apply (wf_dG _ Hs')|].
  split; [rewrite <- Em, <- Ed; apply (wf_dF _ Hs')|].
  split; [rewrite <- Em; apply (wf_M _ Hs')|].
  split; [rewrite <- Em; apply (wf_theta _ Hs')|].
  split; [rewrite <- Em; apply (wf_scale _ Hs')|].
  split.
  - intros g. rewrite (compute_Ok cod_solve s' g) by lia.
    cbv zeta. rewrite Ei, Ed. reflexivity.
  - intros s2 fresh2 cs. cbn [run step]. rewrite Hinit.
    destruct (init_Ok s2 m d u0 fresh2 Hm Hd) as [s2' Hinit2]. rewrite Hinit2.
    pose proof (init_alike s s2 m d u0 fresh fresh2) as Hra'.
    rewrite Hinit, Hinit2 in Hra'.
    pose proof (run_alike cod_solve s' s2' cs Hs'
                  (wf_init _ _ _ _ _ _ Hinit2) Hra') as Hrun.
    destruct (run cod_solve s' cs) as [[? us1]|],
             (run cod_solve s2' cs) as [[? us2]|]; simpl in Hrun |- *; congruence.
Qed.
End Window.

(** ** The clamp on the scales *)

Section Clamp.
Context {S : Type} {ops : ScalarOps S}.
Variable cod_solve : MatrixXX S -> VectorX S -> VectorX S.
Implicit Types (s : AndersonAcceleration S).

Lemma clamped_std_max (x : S) : clamped (std_max Seps x).
Proof.
  unfold clamped, std_max. destruct (Sltb Seps x) eqn:E; [by right|by left].
Qed.

(** Line 71-72: the scale stored at the write index. *)
Lemma finalize_scale_at s G F :
  wf s ->
  let c := Z.to_nat (col_idx_ s) in
  (finalize s G F).2 !! c =
    Some (std_max Seps (norm (vadd (col (prev_dF_ s) c) F))) /\
  col (finalize s G F).1.1 c =
    vdivs (vadd (col (prev_dF_ s) c) F)
          (std_max Seps (norm (vadd (col (prev_dF_ s) c) F))).
Proof.
  intros Hs c. pose proof (wf_col s Hs) as Hc.
  destruct (wf_dF s Hs) as [HlF _]. pose proof (wf_scale s Hs) as Hlsc.
  unfold finalize. cbn [fst snd]. fold c.
  rewrite !col_set_col_eq
    by (unfold set_col; rewrite ?length_insert; unfold c; lia).
  split; [|done]. apply list_lookup_insert_eq. unfold c. lia.
Qed.

Lemma finalize_scale_clamped s G F j :
  wf s -> (0 < iter_ s)%Z -> scales_clamped s -> (j < window s)%nat ->
  clamped ((finalize s G F).2 !!! j).
Proof.
  intros Hs Hi Hinv Hj. pose proof (wf_col s Hs) as Hc.
  pose proof (wf_scale s Hs) as Hlsc.
  unfold finalize. cbn [snd].
  destruct (decide (j = Z.to_nat (col_idx_ s))) as [->|Hne].
  - rewrite list_lookup_total_insert_eq by lia. apply clamped_std_max.
  - rewrite list_lookup_total_insert_ne by done. by apply Hinv.
Qed.

Lemma scales_clamped_accelerated s G F :
  wf s -> (0 < iter_ s)%Z -> scales_clamped s ->
  scales_clamped (accelerated cod_solve s G F).
Proof.
  intros Hs Hi Hinv j.
  destruct (ring_position s Hs Hi) as (Hc & Hk & Hc' & Hcases).
  unfold accelerated, window. cbn [m_ iter_ col_idx_ dF_scale_].
  intros Hj Hjc. apply finalize_scale_clamped; try done.
  destruct Hcases as [E|[[E Hfull]|(E & E' & Hlt)]]; lia.
Qed.

Lemma scales_clamped_Reachable s : Reachable cod_solve s -> scales_clamped s.
Proof.
  induction 1 as [s m d u0 fresh s' Hinit|s u s' Hs IH Hrep|s g s' u Hs IH Hcomp].
  - apply init_inv in Hinit as (Hm & Hd & ->). intros j.
    unfold window. cbn [m_ iter_]. lia.
  - unfold replace in Hrep. destruct (Map u (dim_ s)); [|done].
    injection Hrep as <-. exact IH.
  - pose proof (Reachable_wf cod_solve s Hs) as Hwf.
    apply compute_inv in Hcomp as (Hi & Hd & _ & ->).
    destruct (Z.eqb_spec (iter_ s) 0) as [Hz|Hnz].
    + intros j. unfold cold_start, window. cbn [m_ iter_ col_idx_].
      rewrite Hz, (wf_cold s Hwf Hz). change (int_incr 0) with 1%Z.
      change (Z.to_nat 0) with 0%nat. lia.
    + apply scales_clamped_accelerated; [done|lia|done].
Qed.
End Clamp.

(** ** Exact arithmetic *)

Section Reals.
Variable cod_solve : MatrixXX R -> VectorX R -> VectorX R.
Implicit Types (s : AndersonAcceleration R) (v w : VectorX R).
Open Scope R_scope.

Lemma std_max_Rmax (x : R) : std_max Seps x = Rmax 1e-14 x.
Proof.
  unfold std_max, Rmax. simpl.
  destruct (Rlt_dec 1e-14 x), (Rle_dec 1e-14 x); lra.
Qed.

Lemma clamped_ge (x : R) : clamped x -> 1e-14 <= x.
Proof.
  unfold clamped. simpl. intros [->|H]; [lra|].
  destruct (Rlt_dec 1e-14 x); [lra|discriminate].
Qed.

(** In exact arithmetic, on a call with [iter_ >= 1]: the scale stored
    at the write index is [max(1e-14, norm dres)] for the completed residual
    increment [dres], and the column the normal equations see is [dres]
    divided by it; every entry of [dF_scale_] in the window is at least
    [1e-14], so positive and not zero, and the call returns a vector of
    [dim_] coefficients. *)
Theorem scales_are_clamped s (g : ScalarPtr R) :
  Reachable cod_solve s -> (1 <= iter_ s)%Z ->
  let d := Z.to_nat (dim_ s) in
  let G := map g (seq 0 d) in
  let F := vsub G (current_u_ s) in
  let c := Z.to_nat (col_idx_ s) in
  let dres := vadd (col (prev_dF_ s) c) F in
  let scale := Rmax 1e-14 (norm dres) in
  exists s' u,
    compute cod_solve s g = Ok (s', u) /\ length u = d /\
    dF_scale_ s' !! c = Some scale /\
    col (finalize s G F).1.1 c = vdivs dres scale /\
    (forall j, j <> Z.to_nat (col_idx_ s') ->
               col (prev_dF_ s') j = col (finalize s G F).1.1 j) /\
    (forall j, (j < window s)%nat ->
       exists x, dF_scale_ s' !! j = Some x /\ 1e-14 <= x /\ 0 < x /\ x <> 0).
Proof.
  intros Hr Hi d G F c dres scale.
  pose proof (Reachable_wf cod_solve s Hr) as Hs.
  pose proof (scales_clamped_Reachable cod_solve s Hr) as Hinv.
  pose proof (wf_dim s Hs) as Hd.
  pose proof (compute_Ok cod_solve s g ltac:(lia) Hd) as Hc.
  cbv zeta in Hc. fold d G F in Hc.
  destruct (Z.eqb_spec (iter_ s) 0) as [?|_]; [lia|].
  assert (HG : length G = d) by (unfold G; by rewrite length_map, length_seq).
  assert (HF : length F = d).
  { unfold F, vsub. rewrite length_zip_with, HG, (wf_u s Hs). fold d. lia. }
  pose proof (wf_accelerated cod_solve s G F Hs ltac:(lia) HG HF) as Hs'.
  destruct (finalize_scale_at s G F Hs) as [Hsc Hcol].
  fold c dres in Hsc, Hcol. rewrite std_max_Rmax in Hsc, Hcol. fold scale in Hsc, Hcol.
  eexists _, _. split; [exact Hc|].
  split; [by rewrite (wf_u _ Hs')|]. split; [exact Hsc|]. split; [exact Hcol|].
  split.
  - intros j Hj. unfold accelerated. cbn [prev_dF_ col_idx_] in Hj |- *.
    by rewrite col_set_col_ne.
  - intros j Hj. exists ((finalize s G F).2 !!! j).
    assert (Hcl : clamped ((finalize s G F).2 !!! j))
      by (apply finalize_scale_clamped; auto; lia).
    apply clamped_ge in Hcl. split; [|lra].
    apply list_lookup_lookup_total_lt.
    rewrite length_finalize_scale, (wf_scale s Hs).
    pose proof (window_le s). lia.
Qed.
Lemma dot_self_nonneg v : 0 <= dot v v.
Proof.
  unfold dot. change Szero with 0.
  assert (H : forall acc, 0 <= acc ->
            0 <= fold_left Sadd (zip_with Smul v v) acc).
  { induction v as [|x v IH]; intros acc Hacc; [done|].
    simpl. apply IH. nra. }
  apply H. lra.
Qed.

Lemma dot_vdivs v w (n : R) :
  n <> 0 -> dot (vdivs v n) (vdivs w n) = dot v w / (n * n).
Proof.
  intros Hn. unfold dot, vdivs. change Szero with 0.
  replace 0 with (0 / (n * n)) at 1 by (field; done).
  generalize 0 as acc. revert w.
  induction v as [|x v IH]; intros w acc; [done|].
  destruct w as [|y w]; [done|]. simpl.
  replace (acc / (n * n) + x / n * (y / n)) with ((acc + x * y) / (n * n))
    by (field; done).
  apply IH.
Qed.

Lemma norm_sqr v : norm v * norm v = dot v v.
Proof. unfold norm, squaredNorm. simpl. apply sqrt_sqrt, dot_self_nonneg. Qed.

Lemma norm_vdivs v (x : R) : 0 < x -> norm (vdivs v x) = norm v / x.
Proof.
  intros Hx. unfold norm, squaredNorm. rewrite dot_vdivs by lra. simpl.
  rewrite sqrt_div_alt by nra. by rewrite sqrt_square by lra.
Qed.

Lemma clamp_guard (e n : R) :
  0 < e < 1 -> 0 <= n -> e < n / Rmax e n <-> e * e < n.
Proof.
  intros He Hn. unfold Rmax. destruct (Rle_dec e n) as [Hle|Hgt].
  - replace (n / n) with 1 by (field; lra). split; intros; nra.
  - assert (E : n / e * e = n) by (field; lra). split; intros H.
    + nra.
    + apply (Rmult_lt_reg_r e); [lra|]. rewrite E. lra.
Qed.

(** The guard of line 83 is on the normalised column.  In terms of the
    residual increment [v] before its division by [max(1e-14, |v|)], it
    passes when [|v| > 1e-28]. *)
Lemma guard_on_normalised_column v :
  1e-14 < norm (vdivs v (Rmax 1e-14 (norm v))) <-> 1e-14 * 1e-14 < norm v.
Proof.
  assert (Hn : 0 <= norm v) by apply sqrt_pos.
  rewrite norm_vdivs.
  - apply clamp_guard; [lra|done].
  - unfold Rmax. destruct (Rle_dec _ _); lra.
Qed.

(** Lines 78-87 in exact arithmetic. *)
Lemma theta_single_column M (theta : VectorX R) D F c :
  (1 <= length theta)%nat ->
  let dF := col D c in
  (normal_equations cod_solve M theta D F c 1).2 !! 0%nat =
  Some (if Rlt_dec 1e-14 (norm dF) then dot dF F / (norm dF * norm dF) else 0).
Proof.
  intros Hl dF. unfold normal_equations. cbn [Z.eqb Pos.eqb]. fold dF.
  change (Ssqrt (squaredNorm dF)) with (norm dF).
  change (Sltb Seps (norm dF))
    with (if Rlt_dec 1e-14 (norm dF) then true else false).
  destruct (Rlt_dec 1e-14 (norm dF)) as [Hgt|Hle]; cbn [snd].
  - rewrite list_lookup_insert_eq by (rewrite length_insert; lia).
    rewrite dot_vdivs; [done|lra].
  - by rewrite list_lookup_insert_eq by lia.
Qed.

(** In exact arithmetic, on a call with [m_k = min(m_, iter_) = 1]:
    the column is slot 0, and for the residual increment [dF] stored there
    (the column as lines 79-86 read it, after its division by the scale)
    the coefficient is [theta = (dF . F) / |dF|^2] when [|dF| > 1e-14] and
    [theta = 0] otherwise.  No divisor is zero: the stored scale is not,
    and [|dF|] is not when it is divided by.  When [theta = 0] the call
    returns [G]. *)
Theorem single_column_theta s (g : ScalarPtr R) :
  Reachable cod_solve s -> Z.min (m_ s) (iter_ s) = 1%Z ->
  let d := Z.to_nat (dim_ s) in
  let G := map g (seq 0 d) in
  let F := vsub G (current_u_ s) in
  let dF := col (finalize s G F).1.1 (Z.to_nat (col_idx_ s)) in
  exists s' u,
    compute cod_solve s g = Ok (s', u) /\
    col_idx_ s = 0%Z /\
    theta_ s' !! 0%nat =
      Some (if Rlt_dec 1e-14 (norm dF) then dot dF F / (norm dF * norm dF)
            else 0) /\
    norm dF * norm dF = squaredNorm dF /\
    (exists x, dF_scale_ s' !! 0%nat = Some x /\ x <> 0) /\
    (1e-14 < norm dF -> norm dF <> 0) /\
    (theta_ s' !! 0%nat = Some 0 -> u = G).
Proof.
  intros Hr Hmin d G F dF.
  pose proof (Reachable_wf cod_solve s Hr) as Hs.
  pose proof (scales_clamped_Reachable cod_solve s Hr) as Hinv.
  pose proof (wf_dim s Hs) as Hd. pose proof (wf_m s Hs) as Hm.
  assert (Hi : (1 <= iter_ s)%Z) by lia.
  assert (Hcol : col_idx_ s = 0%Z).
  { rewrite (wf_warm s Hs) by lia.
    destruct (decide (m_ s = 1%Z)) as [->|Hm1]; [apply Z.mod_1_r|].
    replace (iter_ s) with 1%Z by lia. apply Z.mod_0_l. lia. }
  pose proof (compute_Ok cod_solve s g ltac:(lia) Hd) as Hc.
  cbv zeta in Hc. fold d G F in Hc.
  destruct (Z.eqb_spec (iter_ s) 0) as [?|_]; [lia|].
  assert (HG : length G = d) by (unfold G; by rewrite length_map, length_seq).
  assert (HF : length F = d).
  { unfold F, vsub. rewrite length_zip_with, HG, (wf_u s Hs). fold d. lia. }
  pose proof (wf_accelerated cod_solve s G F Hs ltac:(lia) HG HF) as Hs'.
  pose proof (wf_theta s Hs) as Hlt.
  destruct (finalize_scale_at s G F Hs) as [Hsc _].
  pose proof (shape_finalize_dG s G F Hs HG) as [HdGl HdGc].
  assert (Hth : theta_ (accelerated cod_solve s G F) !! 0%nat =
      Some (if Rlt_dec 1e-14 (norm dF) then dot dF F / (norm dF * norm dF)
            else 0)).
  { unfold accelerated. cbn [theta_]. rewrite Hmin.
    apply theta_single_column. lia. }
  eexists _, _. split; [exact Hc|]. split; [done|]. split; [exact Hth|].
  split; [apply norm_sqr|]. split; [|split].
  - rewrite Hcol in Hsc. change (Z.to_nat 0) with 0%nat in Hsc.
    eexists. split; [exact Hsc|].
    pose proof (clamped_ge _ (clamped_std_max (norm (vadd (col (prev_dF_ s) 0) F)))).
    lra.
  - lra.
  - intros Hzero. rewrite Hth in Hzero. clear Hth.
    unfold accelerated. cbn [current_u_]. rewrite Hmin.
    set (ne := normal_equations _ _ _ _ _ _ _).
    assert (Hne0 : ne.2 !!! 0%nat = 0).
    { apply list_lookup_total_correct. unfold ne.
      rewrite theta_single_column by lia. exact Hzero. }
    apply list_eq_same_length with d; [done| |].
    + apply length_mix; [done|]. exact HdGc.
    + intros i x y Hli Hx Hy.
      rewrite lookup_mix in Hx; try done; try (simpl; lia).
      * rewrite (list_lookup_lookup_total_lt G i) in Hy by lia.
        injection Hx as <-. injection Hy as <-.
        change (Z.to_nat 1) with 1%nat. rewrite sum_upto_S. unfold sum_upto.
        cbn [seq fold_left]. rewrite Hne0. simpl. unfold Rdiv. ring.
      * rewrite HdGl. simpl. lia.
      * unfold ne. rewrite length_normal_equations. simpl. lia.
      * rewrite length_finalize_scale, (wf_scale s Hs). simpl. lia.
Qed.
End Reals.

(** ** A converged sequence *)

Section FixedPoint.
Context {S : Type} {ops : ScalarOps S}.
Variable cod_solve : MatrixXX S -> VectorX S -> VectorX S.
Implicit Types (s : AndersonAcceleration S) (v G : VectorX S).

(** The laws of exact arithmetic the argument uses. *)
Hypothesis add_zero : Sadd Szero Szero = Szero.
Hypothesis sub_zero : forall x, Ssub x Szero = x.
Hypothesis add_neg : forall x, Sadd (Sneg x) x = Szero.
Hypothesis mul_zero : forall y, Smul Szero y = Szero.

Lemma vadd_vneg v : vadd (vneg v) v = replicate (length v) Szero.
Proof using add_neg.
  unfold vadd, vneg. induction v as [|x v IH]; [done|].
  simpl. by rewrite add_neg, IH.
Qed.

Lemma sum_upto_zero k (f : nat -> S) :
  (forall j, (j < k)%nat -> f j = Szero) -> sum_upto k f = Szero.
Proof using add_zero.
  induction k as [|k IH]; intros Hf; [done|].
  rewrite sum_upto_S, IH by (intros; apply Hf; lia).
  by rewrite Hf by lia.
Qed.

(** Mixing a history of zero increments returns [G]. *)
Lemma mix_zero_history dim G (dG : MatrixXX S) (theta sc : VectorX S) m_k :
  let d := Z.to_nat dim in
  let k := Z.to_nat m_k in
  length G = d -> Forall (fun cj => length cj = d) dG ->
  (k <= length dG)%nat -> (k <= length theta)%nat -> (k <= length sc)%nat ->
  (forall j, (j < k)%nat -> col dG j = replicate d Szero) ->
  mix dim G dG theta sc m_k = G.
Proof using add_zero sub_zero mul_zero.
  intros d k HG HdG HkG Hkt Hks Hzero.
  apply list_eq_same_length with d; [done|by apply length_mix|].
  intros i x y Hi Hx Hy.
  rewrite lookup_mix in Hx by done.
  rewrite (list_lookup_lookup_total_lt G i) in Hy by lia.
  injection Hx as <-. injection Hy as <-.
  fold k. rewrite sum_upto_zero; [done|].
  intros j Hj. unfold coeff. fold (col dG j). rewrite (Hzero j Hj).
  by rewrite lookup_total_replicate_2.
Qed.

Lemma identity_step s (g : ScalarPtr S) :
  wf s -> converged_history s -> (0 <= iter_ s)%Z ->
  map g (seq 0 (Z.to_nat (dim_ s))) = current_u_ s ->
  exists s',
    compute cod_solve s g = Ok (s', current_u_ s) /\
    current_u_ s' = current_u_ s /\ converged_history s'.
Proof using add_zero sub_zero add_neg mul_zero.
  intros Hs Hinv Hi HG.
  pose proof (wf_dim s Hs) as Hd. pose proof (wf_u s Hs) as Hu.
  pose proof (compute_Ok cod_solve s g Hi Hd) as Hc. cbv zeta in Hc.
  rewrite HG in Hc.
  set (G := current_u_ s) in *. set (F := vsub G G) in *.
  assert (HF : length F = Z.to_nat (dim_ s)).
  { unfold F, vsub. rewrite length_zip_with. lia. }
  destruct (wf_dG s Hs) as [HdGl HdGc].
  destruct (Z.eqb_spec (iter_ s) 0) as [Hz|Hnz].
  - exists (cold_start s G F). split; [exact Hc|]. split; [done|].
    intros _. unfold cold_start, window. cbn [prev_dG_ col_idx_ current_u_ m_ iter_].
    rewrite (wf_cold s Hs Hz), Hz. change (int_incr 0) with 1%Z.
    change (Z.to_nat 0) with 0%nat.
    pose proof (wf_m s Hs). split; [apply col_set_col_eq; lia|].
    intros j Hj Hj0. lia.
  - assert (Hpos : (0 < iter_ s)%Z) by lia.
    destruct (Hinv Hpos) as [Hseed Hdone].
    destruct (ring_position s Hs Hpos) as (Hck & Hk & Hc' & Hcases).
    pose proof (shape_finalize_dG s G F Hs Hu) as [HfGl HfGc].
    assert (Hfin : forall j, (j < window s)%nat ->
              col (finalize s G F).1.2 j = replicate (Z.to_nat (dim_ s)) Szero).
    { intros j Hj. unfold finalize. cbn [fst snd].
      destruct (decide (j = Z.to_nat (col_idx_ s))) as [->|Hne].
      - rewrite col_set_col_eq by lia. rewrite Hseed. fold G.
        by rewrite vadd_vneg, Hu.
      - rewrite col_set_col_ne by done. by apply Hdone. }
    assert (Hmix : current_u_ (accelerated cod_solve s G F) = G).
    { unfold accelerated. cbn [current_u_]. unfold window in Hfin, Hk.
      apply mix_zero_history; try done; try lia.
      - rewrite length_normal_equations, (wf_theta s Hs). lia.
      - rewrite length_finalize_scale, (wf_scale s Hs). lia. }
    exists (accelerated cod_solve s G F). rewrite Hmix in Hc.
    split; [exact Hc|]. split; [exact Hmix|].
    intros _. rewrite Hmix. unfold accelerated, window.
    cbn [prev_dG_ col_idx_ m_ iter_ dim_]. split.
    + apply col_set_col_eq. lia.
    + intros j Hj Hjc. rewrite col_set_col_ne by done. apply Hfin.
      destruct Hcases as [E|[[E Hfull]|(E & E' & Hlt)]]; lia.
Qed.

Lemma IdentityRun_Reachable s : IdentityRun cod_solve s -> Reachable cod_solve s.
Proof.
  induction 1; [by eapply Reachable_init|by eapply Reachable_compute].
Qed.

Lemma IdentityRun_converged s :
  IdentityRun cod_solve s -> converged_history s.
Proof using add_zero sub_zero add_neg mul_zero.
  induction 1 as [s m d u0 fresh s' Hinit|s g s' u Hrun IH HG Hcomp].
  - apply init_inv in Hinit as (_ & _ & ->). intros Hi. cbn [iter_] in Hi. lia.
  - pose proof (Reachable_wf cod_solve s (IdentityRun_Reachable s Hrun)) as Hs.
    apply compute_inv in Hcomp as Hci. destruct Hci as (Hi & _).
    destruct (identity_step s g Hs IH Hi HG) as (s1 & Hc1 & _ & Hinv).
    rewrite Hc1 in Hcomp. by injection Hcomp as <- _.
Qed.

(** In every arithmetic with [0 + 0 = 0], [x - 0 = x], [-x + x = 0] and
    [0 * y = 0] (exact arithmetic), and for every solver: in a run where
    every [compute] is given the current iterate (all residuals are zero),
    each call whose assertion passes returns that iterate, the [dim_]
    scalars of [g], whatever the path: the first call, [m_k = 1] or
    [m_k > 1]. *)
Theorem identity_map_is_not_perturbed s (g : ScalarPtr S) :
  IdentityRun cod_solve s -> (0 <= iter_ s)%Z ->
  let G := map g (seq 0 (Z.to_nat (dim_ s))) in
  G = current_u_ s ->
  exists s', compute cod_solve s g = Ok (s', G) /\ IdentityRun cod_solve s'.
Proof using add_zero sub_zero add_neg mul_zero.
  intros Hrun Hi G HG.
  pose proof (Reachable_wf cod_solve s (IdentityRun_Reachable s Hrun)) as Hs.
  destruct (identity_step s g Hs (IdentityRun_converged s Hrun) Hi HG)
    as (s' & Hc & _ & _).
  exists s'. rewrite HG. split; [exact Hc|].
  by eapply IdentityRun_compute.
Qed.
End FixedPoint.

(** ** The Gram matrix *)

Section Gram.
Context {S : Type} {ops : ScalarOps S}.
Variable cod_solve : MatrixXX S -> VectorX S -> VectorX S.
Implicit Types (s : AndersonAcceleration S) (v w G F : VectorX S).

(** Multiplication of scalars commutes (as it does in IEEE arithmetic and
    in exact arithmetic). *)
Hypothesis mul_comm : forall x y : S, Smul x y = Smul y x.

Lemma dot_comm v w : dot v w = dot w v.
Proof using mul_comm.
  unfold dot. f_equal. revert w.
  induction v as [|x v IH]; intros [|y w]; simpl; [done..|].
  by rewrite mul_comm, IH.
Qed.

Lemma col_finalize_ne s G F j :
  j <> Z.to_nat (col_idx_ s) -> col (finalize s G F).1.1 j = col (prev_dF_ s) j.
Proof. intros Hj. unfold finalize. cbn [fst]. by rewrite !col_set_col_ne. Qed.

(** The entries of [M_] after lines 77-100, in the window. *)
Lemma gram_block_accelerated s G F :
  wf s -> (0 < iter_ s)%Z -> length F = Z.to_nat (dim_ s) ->
  gram_of_completed s ->
  gram_block (M_ (accelerated cod_solve s G F)) (finalize s G F).1.1 (window s).
Proof using mul_comm.
  intros Hs Hi HF Hinv i j Hli Hlj.
  destruct (ring_position s Hs Hi) as (Hc & Hk & _).
  pose proof (shape_finalize_dF s G F Hs HF) as [HDl _].
  unfold accelerated. cbn [M_].
  unfold window in Hli, Hlj, Hc, Hk.
  rewrite (coeff_normal_equations cod_solve (Z.to_nat (m_ s)));
    [|apply (wf_M s Hs)|lia..].
  destruct (Z.eqb_spec (Z.min (m_ s) (iter_ s)) 1) as [E1|E1].
  - rewrite E1 in Hli, Hlj, Hc. change (Z.to_nat 1) with 1%nat in Hli, Hlj, Hc.
    rewrite decide_True by lia.
    replace i with 0%nat by lia. replace j with 0%nat by lia.
    by replace (Z.to_nat (col_idx_ s)) with 0%nat by lia.
  - destruct (decide (j = Z.to_nat (col_idx_ s) /\ (i < _)%nat)) as [[-> _]|Hj].
    { apply dot_comm. }
    destruct (decide (i = Z.to_nat (col_idx_ s) /\ (j < _)%nat)) as [[-> _]|Hi'].
    { done. }
    rewrite !col_finalize_ne by lia. apply Hinv; unfold window; lia.
Qed.

Lemma gram_of_completed_accelerated s G F :
  wf s -> (0 < iter_ s)%Z -> length F = Z.to_nat (dim_ s) ->
  gram_of_completed s -> gram_of_completed (accelerated cod_solve s G F).
Proof using mul_comm.
  intros Hs Hi HF Hinv i j.
  pose proof (gram_block_accelerated s G F Hs Hi HF Hinv) as Hblock.
  destruct (ring_position s Hs Hi) as (Hc & Hk & Hc' & Hcases).
  unfold window at 1 2. unfold accelerated at 1 2 3 4.
  cbn [m_ iter_ col_idx_].
  intros Hli Hlj Hic Hjc.
  replace (prev_dF_ (accelerated cod_solve s G F))
    with (set_col (finalize s G F).1.1
            (Z.to_nat (Z.rem (col_idx_ s + 1) (m_ s))) (vneg F)) by reflexivity.
  rewrite !col_set_col_ne by done.
  change (col_idx_ (accelerated cod_solve s G F))
    with (Z.rem (col_idx_ s + 1) (m_ s)) in Hic, Hjc.
  apply Hblock; destruct Hcases as [E|[[E Hfull]|(E & E' & Hlt)]]; lia.
Qed.

Lemma gram_of_completed_Reachable s :
  Reachable cod_solve s -> gram_of_completed s.
Proof using mul_comm.
  induction 1 as [s m d u0 fresh s' Hinit|s u s' Hs IH Hrep|s g s' u Hs IH Hcomp].
  - apply init_inv in Hinit as (Hm & Hd & ->). intros i j.
    unfold window. cbn [m_ iter_]. lia.
  - unfold replace in Hrep. destruct (Map u (dim_ s)); [|done].
    injection Hrep as <-. exact IH.
  - pose proof (Reachable_wf cod_solve s Hs) as Hwf.
    apply compute_inv in Hcomp as (Hi & Hd & _ & ->).
    destruct (Z.eqb_spec (iter_ s) 0) as [Hz|Hnz].
    + intros i j. unfold cold_start, window. cbn [m_ iter_ col_idx_].
      rewrite Hz, (wf_cold s Hwf Hz). change (int_incr 0) with 1%Z.
      change (Z.to_nat 0) with 0%nat. lia.
    + apply gram_of_completed_accelerated; [done|lia| |done].
      unfold vsub. rewrite length_zip_with, length_map, length_seq, (wf_u s Hwf).
      lia.
Qed.

(** C9, as amended.  In every arithmetic whose multiplication commutes: on
    a call with [iter_ >= 1], when the normal equations
    are solved -- and so in the [M_] the call leaves -- the leading
    [m_k x m_k] block of [M_] ([m_k = min(m_, iter_)] on entry) is the Gram
    matrix of the columns of [prev_dF_] as they stand at that point, the
    slot at the write index completed and normalised, and it is symmetric;
    only the row and the column of that slot are rewritten.  The state the
    call leaves has those columns except in the slot it re-seeds with
    [-F]. *)
Theorem gram_block_when_solved s (g : ScalarPtr S) :
  Reachable cod_solve s -> (1 <= iter_ s)%Z ->
  let d := Z.to_nat (dim_ s) in
  let G := map g (seq 0 d) in
  let F := vsub G (current_u_ s) in
  let c := Z.to_nat (col_idx_ s) in
  let dF := (finalize s G F).1.1 in
  let k := window s in
  exists s' u,
    compute cod_solve s g = Ok (s', u) /\
    gram_block (M_ s') dF k /\
    (forall i j, (i < k)%nat -> (j < k)%nat ->
                 coeff (M_ s') i j = coeff (M_ s') j i) /\
    (forall i j, (i < Z.to_nat (m_ s))%nat -> (j < Z.to_nat (m_ s))%nat ->
                 i <> c -> j <> c -> coeff (M_ s') i j = coeff (M_ s) i j) /\
    (forall j, j <> Z.to_nat (col_idx_ s') -> col (prev_dF_ s') j = col dF j) /\
    (forall i j, (i < k)%nat -> (j < k)%nat ->
                 i <> Z.to_nat (col_idx_ s') -> j <> Z.to_nat (col_idx_ s') ->
                 coeff (M_ s') i j =
                 dot (col (prev_dF_ s') i) (col (prev_dF_ s') j)).
Proof using mul_comm.
  intros Hr Hi d G F c dF k.
  pose proof (Reachable_wf cod_solve s Hr) as Hs.
  pose proof (gram_of_completed_Reachable s Hr) as Hinv.
  pose proof (wf_dim s Hs) as Hd.
  pose proof (compute_Ok cod_solve s g ltac:(lia) Hd) as Hc.
  cbv zeta in Hc. fold d G F in Hc.
  destruct (Z.eqb_spec (iter_ s) 0) as [?|_]; [lia|].
  assert (HF : length F = d).
  { unfold F, G, vsub.
    rewrite length_zip_with, length_map, length_seq, (wf_u s Hs). fold d. lia. }
  pose proof (gram_block_accelerated s G F Hs ltac:(lia) HF Hinv) as Hblock.
  fold dF k in Hblock.
  destruct (ring_position s Hs ltac:(lia)) as (Hck & Hk & _).
  pose proof (shape_finalize_dF s G F Hs HF) as [HDl _].
  assert (Hcols : forall j,
            j <> Z.to_nat (col_idx_ (accelerated cod_solve s G F)) ->
            col (prev_dF_ (accelerated cod_solve s G F)) j = col dF j).
  { intros j Hj. unfold accelerated. cbn [prev_dF_ col_idx_] in Hj |- *.
    by rewrite col_set_col_ne. }
  eexists _, _. split; [exact Hc|]. split; [exact Hblock|].
  split; [|split; [|split; [exact Hcols|]]].
  - intros i j Hli Hlj. rewrite (Hblock i j), (Hblock j i) by done.
    apply dot_comm.
  - intros i j Hli Hlj Hic Hjc. unfold accelerated. cbn [M_].
    unfold window in Hck, Hk.
    rewrite (coeff_normal_equations cod_solve (Z.to_nat (m_ s)));
      [|apply (wf_M s Hs)|lia..].
    fold c. destruct (Z.eqb_spec (Z.min (m_ s) (iter_ s)) 1) as [E1|E1].
    + rewrite E1 in Hck. change (Z.to_nat 1) with 1%nat in Hck.
      by rewrite decide_False by (unfold c in Hic; lia).
    + by rewrite !decide_False by (intros [??]; done).
  - intros i j Hli Hlj Hic Hjc. rewrite !Hcols by done. by apply Hblock.
Qed.
End Gram.

(** * The theorems on the runs *)

Lemma Reachable_program {S} `{ScalarOps S} cod_solve s0 m d u0 fresh cs s us :
  run cod_solve s0 (Init m d u0 fresh :: cs) = Ok (s, us) ->
  Reachable cod_solve s.
Proof.
  cbn [run step]. destruct (init s0 m d u0 fresh) as [s1|] eqn:Hinit; [|done].
  destruct (run cod_solve s1 cs) as [[s2 us']|] eqn:Hrun; [|done].
  intros [= <- _]. eapply Reachable_run; [|exact Hrun].
  by eapply Reachable_init.
Qed.

Lemma Reachable_after {S} `{ScalarOps S} m d u0 fresh cs :
  match run jacobi_solve constructed (Init m d u0 fresh :: cs) with
  | Ok _ => True
  | Abort _ => False
  end ->
  Reachable jacobi_solve (after (Init m d u0 fresh :: cs)).
Proof.
  unfold after.
  destruct (run jacobi_solve constructed (Init m d u0 fresh :: cs))
    as [[s us]|] eqn:Hrun; [|done].
  intros _. by eapply Reachable_program.
Qed.

Lemma double_run_Reachable junk : Reachable jacobi_solve (double_run junk).
Proof. apply Reachable_after. exact I. Qed.

Lemma double_ring_Reachable : Reachable jacobi_solve double_ring.
Proof. apply Reachable_after. exact I. Qed.

Lemma real_run_Reachable : Reachable jacobi_solve real_run.
Proof. apply Reachable_after. exact I. Qed.

Lemma real_start_Reachable : Reachable jacobi_solve real_start.
Proof. apply Reachable_after. exact I. Qed.

(** The second call of a run in binary64. *)
Lemma compute_returns_mixed_iterate_example :
  exists s' u,
    compute jacobi_solve (double_run 8%float) (ptr_of [3%float]) = Ok (s', u) /\
    length u = 1%nat.
Proof.
  destruct (compute_returns_mixed_iterate jacobi_solve (double_run 8%float)
              (ptr_of [3%float]) (double_run_Reachable _))
    as (s' & u & Hc & _ & Hl & _).
  - by vm_compute.
  - exists s', u. split; [exact Hc|exact Hl].
Defined.

(** [init(2, 1, {0})] and [compute({1})] in binary64. *)
Lemma first_compute_returns_g_example :
  exists s1 s2,
    init constructed 2 1 (ptr_of [0%float]) (uninit_with 7%float 8%float) = Ok s1 /\
    compute jacobi_solve s1 (ptr_of [1%float]) = Ok (s2, [1%float]).
Proof.
  destruct (first_compute_returns_g jacobi_solve constructed 2 1
              (ptr_of [0%float]) (uninit_with 7%float 8%float) (ptr_of [1%float]))
    as (s1 & s2 & Hi & Hc & _); [lia|lia|].
  exists s1, s2. split; [exact Hi|exact Hc].
Defined.

(** [replace({9})] after one call, in binary64. *)
Lemma replace_overwrites_only_iterate_example :
  exists s',
    replace (double_run 8%float) (ptr_of [9%float]) = Ok s' /\
    current_u_ s' = [9%float] /\
    prev_dG_ s' = prev_dG_ (double_run 8%float) /\
    iter_ s' = iter_ (double_run 8%float).
Proof.
  destruct (replace_overwrites_only_iterate jacobi_solve (double_run 8%float)
              (ptr_of [9%float]) (double_run_Reachable _)) as (s' & Hr & -> & _).
  eexists. split; [exact Hr|]. split; [reflexivity|]. split; reflexivity.
Defined.

(** The two allocations differ in slot 1 only, and [m_k = 1]. *)
Lemma double_run_same_active : same_active (double_run 8%float) (double_run 9%float).
Proof. constructor; vm_compute; reflexivity. Qed.

Lemma stale_slots_do_not_influence_example :
  returned (compute jacobi_solve (double_run 8%float) (ptr_of [3%float])) =
  returned (compute jacobi_solve (double_run 9%float) (ptr_of [3%float])) /\
  returned (run jacobi_solve (double_run 8%float)
              [Compute (ptr_of [3%float]); Compute (ptr_of [2%float])]) =
  returned (run jacobi_solve (double_run 9%float)
              [Compute (ptr_of [3%float]); Compute (ptr_of [2%float])]).
Proof.
  destruct (stale_slots_do_not_influence jacobi_solve
              (double_run 8%float) (double_run 9%float)) as [Hone Hrun].
  - apply (Reachable_wf jacobi_solve), double_run_Reachable.
  - apply (Reachable_wf jacobi_solve), double_run_Reachable.
  - exact double_run_same_active.
  - split; [apply Hone|apply Hrun].
Defined.

(** The second call of a run with one slot, in exact arithmetic. *)
Lemma single_column_theta_example :
  exists s' u,
    compute jacobi_solve real_run (ptr_of [3%R]) = Ok (s', u) /\
    col_idx_ real_run = 0%Z.
Proof.
  destruct (single_column_theta jacobi_solve real_run (ptr_of [3%R])
              real_run_Reachable) as (s' & u & Hc & Hcol & _).
  - reflexivity.
  - exists s', u. split; [exact Hc|exact Hcol].
Defined.

Lemma scales_are_clamped_example :
  exists s' u,
    compute jacobi_solve real_run (ptr_of [3%R]) = Ok (s', u) /\
    length u = 1%nat.
Proof.
  destruct (scales_are_clamped jacobi_solve real_run (ptr_of [3%R])
              real_run_Reachable) as (s' & u & Hc & Hl & _).
  - by lazy.
  - exists s', u. split; [exact Hc|exact Hl].
Defined.

(** The first call of an identity run from [u0 = 5], on the reals. *)
Lemma identity_map_is_not_perturbed_example :
  exists s', compute jacobi_solve real_start (ptr_of [5%R]) = Ok (s', [5%R]).
Proof.
  destruct (identity_map_is_not_perturbed (ops:=RealOps) jacobi_solve
              ltac:(simpl; lra) ltac:(intros; simpl; lra)
              ltac:(intros; simpl; lra) ltac:(intros; simpl; lra)
              real_start (ptr_of [5%R])) as (s' & Hc & _).
  - eapply (IdentityRun_init jacobi_solve constructed 2 1 (ptr_of [5%R])
              (uninit_with 0%R 0%R)). reflexivity.
  - by lazy.
  - reflexivity.
  - exists s'. exact Hc.
Defined.

Lemma SFmul_comm prec emax x y : SFmul prec emax x y = SFmul prec emax y x.
Proof.
  destruct x as [sx|sx| |sx mx ex], y as [sy|sy| |sy my ey]; simpl;
    rewrite ?(xorb_comm sx sy); try reflexivity.
  by rewrite Pos.mul_comm, Z.add_comm.
Qed.

(** Multiplication commutes in binary64. *)
Lemma double_mul_comm (x y : float) : Smul x y = Smul y x.
Proof. apply Prim2SF_inj. simpl. rewrite !mul_spec. apply SFmul_comm. Qed.

(** In binary64 a clamped scale is at least [eps]: not zero, not a NaN. *)
Lemma double_clamped_ge (x : float) : clamped x -> PrimFloat.leb Seps x = true.
Proof.
  intros [->|Hlt]; [reflexivity|]. simpl in Hlt |- *.
  rewrite ltb_spec in Hlt. rewrite leb_spec.
  unfold SFltb in Hlt. unfold SFleb.
  by destruct (SFcompare _ _) as [[]|].
Qed.

(** In binary64, after every call with [iter_ >= 1], the scales in the
    window are at least [eps]. *)
Lemma double_scales_clamped cod_solve (s : AndersonAcceleration float) g s' u :
  Reachable cod_solve s -> (1 <= iter_ s)%Z ->
  compute cod_solve s g = Ok (s', u) ->
  forall j, (j < window s)%nat -> PrimFloat.leb Seps (dF_scale_ s' !!! j) = true.
Proof.
  intros Hr Hi Hc j Hj. apply double_clamped_ge.
  apply compute_inv in Hc as (_ & _ & _ & ->).
  destruct (Z.eqb_spec (iter_ s) 0) as [?|_]; [lia|].
  unfold accelerated. cbn [dF_scale_].
  apply finalize_scale_clamped; [|lia| |done].
  - by apply (Reachable_wf cod_solve).
  - by apply (scales_clamped_Reachable cod_solve).
Qed.

(** The state after the ring has wrapped, in binary64. *)
Lemma gram_block_when_solved_example :
  exists s' u,
    compute jacobi_solve double_ring (ptr_of [2%float]) = Ok (s', u) /\
    gram_block (M_ s')
      (finalize double_ring [2%float] (vsub [2%float] (current_u_ double_ring))).1.1
      1.
Proof.
  destruct (gram_block_when_solved (ops:=DoubleOps) jacobi_solve double_mul_comm
              double_ring (ptr_of [2%float]) double_ring_Reachable)
    as (s' & u & Hc & Hgram & _).
  - by vm_compute.
  - exists s', u. split; [exact Hc|exact Hgram].
Defined.

(** [init(2, 1, {4})] on an instance that has run with one slot. *)
Lemma init_resets_example :
  exists s',
    init double_ring 2 1 (ptr_of [4%float]) (uninit_with 7%float 8%float) = Ok s' /\
    iter_ s' = 0%Z /\
    forall g, returned (compute jacobi_solve s' g) = Ok [g 0%nat].
Proof.
  destruct (init_resets jacobi_solve double_ring 2 1 (ptr_of [4%float])
              (uninit_with 7%float 8%float))
    as (s' & Hi & _ & Hit & _ & _ & _ & _ & _ & _ & _ & _ & Hg & _); [lia|lia|].
  exists s'. split; [exact Hi|]. split; [exact Hit|exact Hg].
Defined.

(** C9 as it is worded.  [init(1, 1, {0})], [compute({1})], [compute({3})]
    in binary64: the second call completes slot 0 to the increment 1,
    stores [M_(0,0) = 1], then advances the write index around the ring of
    one slot and re-seeds slot 0 with [-F = -2].  In the state after the
    call, [M_(0,0) = 1] is not the inner product 4 of the column in slot 0
    with itself; [m_k = 1] on entry and afterwards. *)
Lemma gram_after_call_counterexample :
  Reachable jacobi_solve double_ring_start /\
  compute jacobi_solve double_ring_start (ptr_of [3%float])
    = Ok (double_ring, [(-1)%float]) /\
  window double_ring_start = 1%nat /\ window double_ring = 1%nat /\
  coeff (M_ double_ring) 0 0 = 1%float /\
  dot (col (prev_dF_ double_ring) 0) (col (prev_dF_ double_ring) 0) = 4%float /\
  ~ gram_block (M_ double_ring) (prev_dF_ double_ring) 1.
Proof.
  split; [apply Reachable_after; exact I|].
  split; [vm_compute; reflexivity|].
  split; [reflexivity|]. split; [reflexivity|].
  split; [vm_compute; reflexivity|]. split; [vm_compute; reflexivity|].
  intros Hgram. specialize (Hgram 0%nat 0%nat ltac:(lia) ltac:(lia)).
  vm_compute in Hgram.
  apply (f_equal (fun x => PrimFloat.eqb x 1%float)) in Hgram.
  vm_compute in Hgram. discriminate.
Qed.

(** * The arithmetic of the code: binary64 *)

(** ** Floating-point facts *)

(** The comparisons and classes of binary64 through [Prim2SF]. *)
Lemma SFcompare_refl_finite sx mx ex :
  SFcompare (S754_finite sx mx ex) (S754_finite sx mx ex) = Some Eq.
Proof. simpl. rewrite Z.compare_refl, Pos.compare_cont_refl. by destruct sx. Qed.

Lemma is_nan_spec x :
  PrimFloat.is_nan x = match Prim2SF x with S754_nan => true | _ => false end.
Proof.
  unfold PrimFloat.is_nan. rewrite FloatAxioms.eqb_spec. unfold SFeqb.
  destruct (Prim2SF x) as [sx|sx| |sx mx ex].
  - reflexivity.
  - by destruct sx.
  - reflexivity.
  - by rewrite SFcompare_refl_finite.
Qed.

Lemma is_finite_spec x :
  PrimFloat.is_finite x =
  match Prim2SF x with S754_zero _ | S754_finite _ _ _ => true | _ => false end.
Proof.
  unfold PrimFloat.is_finite, PrimFloat.is_infinity.
  rewrite is_nan_spec, FloatAxioms.eqb_spec, abs_spec. unfold SFeqb.
  destruct (Prim2SF x) as [sx|sx| |sx mx ex]; reflexivity.
Qed.

Lemma is_zero_spec x :
  is_zero x = match Prim2SF x with S754_zero _ => true | _ => false end.
Proof.
  unfold is_zero. rewrite FloatAxioms.eqb_spec. unfold SFeqb.
  destruct (Prim2SF x) as [sx|sx| |sx mx ex]; try reflexivity; by destruct sx.
Qed.

(** The laws the arguments below use, with the side conditions binary64
    puts on them. *)
Lemma double_sub_zero (x : float) : Ssub x Szero = x.
Proof.
  apply Prim2SF_inj. change (Prim2SF (x - 0) = Prim2SF x).
  rewrite sub_spec. change (Prim2SF 0) with (S754_zero false).
  by destruct (Prim2SF x) as [[]|[]| |[] mx ex].
Qed.

Lemma double_sub_self (x : float) :
  PrimFloat.is_finite x = true -> Ssub x x = Szero.
Proof.
  rewrite is_finite_spec. intros Hx.
  apply Prim2SF_inj. change (Prim2SF (x - x) = S754_zero false).
  rewrite sub_spec.
  destruct (Prim2SF x) as [[]|[]| |sx mx ex]; try done.
  cbv beta iota zeta delta [SF64sub SFsub]. by rewrite Z.sub_diag.
Qed.

Lemma double_sub_self_inv (x : float) :
  Ssub x x = Szero -> PrimFloat.is_finite x = true.
Proof.
  intros Hx. apply (f_equal Prim2SF) in Hx.
  change (Prim2SF (x - x) = S754_zero false) in Hx.
  rewrite sub_spec in Hx. rewrite is_finite_spec.
  by destruct (Prim2SF x) as [[]|[]| |sx mx ex].
Qed.

Lemma double_add_opp_self (x : float) :
  PrimFloat.is_finite x = true -> Sadd (Sneg x) x = Szero.
Proof.
  rewrite is_finite_spec. intros Hx.
  apply Prim2SF_inj. change (Prim2SF (- x + x) = S754_zero false).
  rewrite add_spec, opp_spec.
  destruct (Prim2SF x) as [[]|[]| |sx mx ex]; try done.
  cbv beta iota zeta delta [SF64add SFopp SFadd].
  set (p := (shl_align mx ex (Z.min ex ex)).1).
  replace (cond_Zopp (negb sx) (Z.pos p) + cond_Zopp sx (Z.pos p))%Z with 0%Z
    by (destruct sx; cbn [negb cond_Zopp]; lia).
  reflexivity.
Qed.

Lemma double_add_zero_l (z : float) : is_zero z = true -> Sadd Szero z = Szero.
Proof.
  rewrite is_zero_spec. intros Hz.
  apply Prim2SF_inj. change (Prim2SF (0 + z) = S754_zero false).
  rewrite add_spec. change (Prim2SF 0) with (S754_zero false).
  by destruct (Prim2SF z) as [[]|[]| |sz mz ez].
Qed.

Lemma Prim2SF_eps : exists m e, Prim2SF Seps = S754_finite false m e.
Proof. by eexists _, _. Qed.

(** At least [eps]: positive, so neither a zero nor a NaN. *)
Lemma double_ge_eps (x : float) :
  PrimFloat.leb Seps x = true ->
  Prim2SF x = S754_infinity false \/ exists m e, Prim2SF x = S754_finite false m e.
Proof.
  rewrite leb_spec. destruct Prim2SF_eps as (m & e & ->). unfold SFleb.
  destruct (Prim2SF x) as [[]|[]| |[] mx ex]; try done; eauto.
Qed.

Lemma double_ge_eps_pos (x : float) :
  PrimFloat.leb Seps x = true ->
  PrimFloat.ltb 0 x = true /\ PrimFloat.is_nan x = false /\ is_zero x = false.
Proof.
  intros Hx%double_ge_eps.
  rewrite ltb_spec, is_nan_spec, is_zero_spec.
  change (Prim2SF 0) with (S754_zero false).
  by destruct Hx as [-> | (m & e & ->)].
Qed.

Lemma double_div_zero (z x : float) :
  is_zero z = true -> PrimFloat.leb Seps x = true -> is_zero (Sdiv z x) = true.
Proof.
  intros Hz Hx%double_ge_eps. rewrite is_zero_spec in Hz |- *.
  change (Sdiv z x) with (z / x)%float. rewrite div_spec.
  destruct (Prim2SF z) as [sz|sz| |sz mz ez]; try done.
  by destruct Hx as [-> | (m & e & ->)].
Qed.

Lemma double_mul_zero (x z : float) :
  PrimFloat.is_finite x = true -> is_zero z = true -> is_zero (Smul x z) = true.
Proof.
  rewrite is_finite_spec, !is_zero_spec.
  change (Smul x z) with (x * z)%float. rewrite mul_spec.
  destruct (Prim2SF z) as [sz|sz| |sz mz ez]; try done.
  by destruct (Prim2SF x) as [sx|sx| |sx mx ex].
Qed.

Lemma double_mul_zero_nan (x z : float) :
  PrimFloat.is_finite x = false -> is_zero z = true ->
  PrimFloat.is_nan (Smul x z) = true.
Proof.
  rewrite is_finite_spec, is_zero_spec, is_nan_spec.
  change (Smul x z) with (x * z)%float. rewrite mul_spec.
  destruct (Prim2SF z) as [sz|sz| |sz mz ez]; try done.
  by destruct (Prim2SF x) as [sx|sx| |sx mx ex].
Qed.

Lemma double_add_nan (x y : float) :
  PrimFloat.is_nan y = true -> Sadd x y = y.
Proof.
  rewrite is_nan_spec. intros Hy.
  apply Prim2SF_inj. change (Prim2SF (x + y) = Prim2SF y). rewrite add_spec.
  destruct (Prim2SF y) as [sy|sy| |sy my ey]; try done.
  by destruct (Prim2SF x) as [sx|sx| |sx mx ex].
Qed.

Lemma double_sub_nan (x y : float) :
  PrimFloat.is_nan y = true -> Ssub x y = y.
Proof.
  rewrite is_nan_spec. intros Hy.
  apply Prim2SF_inj. change (Prim2SF (x - y) = Prim2SF y). rewrite sub_spec.
  destruct (Prim2SF y) as [sy|sy| |sy my ey]; try done.
  by destruct (Prim2SF x) as [sx|sx| |sx mx ex].
Qed.

Lemma double_finite_add_r (x y : float) :
  PrimFloat.is_finite (Sadd x y) = true -> PrimFloat.is_finite y = true.
Proof.
  rewrite !is_finite_spec. change (Sadd x y) with (x + y)%float.
  rewrite add_spec.
  by destruct (Prim2SF x) as [[]|[]| |sx mx ex], (Prim2SF y) as [[]|[]| |sy my ey].
Qed.

Lemma double_finite_sub_l (x y : float) :
  PrimFloat.is_finite (Ssub x y) = true -> PrimFloat.is_finite x = true.
Proof.
  rewrite !is_finite_spec. change (Ssub x y) with (x - y)%float.
  rewrite sub_spec.
  by destruct (Prim2SF x) as [[]|[]| |sx mx ex], (Prim2SF y) as [[]|[]| |sy my ey].
Qed.

(** ** A single active column *)

Section SingleColumn.
Context {S : Type} {ops : ScalarOps S}.
Variable cod_solve : MatrixXX S -> VectorX S -> VectorX S.

(** Lines 78-87 as they are computed. *)
Lemma theta_single_column_computed M (theta : VectorX S) D F c :
  (1 <= length theta)%nat ->
  let dF := col D c in
  let n := norm dF in
  (normal_equations cod_solve M theta D F c 1).2 !! 0%nat =
  Some (if Sltb Seps n then dot (vdivs dF n) (vdivs F n) else Szero).
Proof.
  intros Hl dF n. unfold normal_equations. cbn [Z.eqb Pos.eqb]. fold dF.
  change (Ssqrt (squaredNorm dF)) with n.
  destruct (Sltb Seps n); cbn [snd].
  - by rewrite list_lookup_insert_eq by (rewrite length_insert; lia).
  - by rewrite list_lookup_insert_eq by lia.
Qed.
End SingleColumn.



(** ** A converged sequence in binary64 *)

Lemma vsub_self (v : VectorX float) :
  finite_vector v -> vsub v v = replicate (length v) 0%float.
Proof.
  unfold vsub. induction 1 as [|x v Hx _ IH]; [done|].
  cbn [zip_with length replicate]. by rewrite (double_sub_self x Hx), IH.
Qed.

Lemma vsub_self_inv (v : VectorX float) :
  vsub v v = replicate (length v) 0%float -> finite_vector v.
Proof.
  unfold vsub. induction v as [|x v IH]; [done|].
  cbn [zip_with length replicate]. intros [= Hx Hv].
  constructor; [by apply double_sub_self_inv|by apply IH].
Qed.

Lemma vadd_vneg_self (v : VectorX float) :
  finite_vector v -> vadd (vneg v) v = replicate (length v) 0%float.
Proof.
  unfold vadd, vneg. induction 1 as [|x v Hx _ IH]; [done|].
  cbn [map zip_with length replicate]. by rewrite (double_add_opp_self x Hx), IH.
Qed.

Lemma vadd_vneg_zero d :
  vadd (vneg (replicate d 0%float)) (replicate d 0%float) = replicate d 0%float.
Proof.
  rewrite <- (length_replicate d 0%float) at 3. apply vadd_vneg_self.
  apply Forall_replicate. reflexivity.
Qed.

Lemma dot_zero d : dot (replicate d 0%float) (replicate d 0%float) = 0%float.
Proof.
  unfold dot. change Szero with 0%float.
  induction d as [|d IH]; [done|]. cbn [replicate zip_with fold_left]. exact IH.
Qed.

Lemma norm_zero d : norm (replicate d 0%float) = 0%float.
Proof. unfold norm, squaredNorm. by rewrite dot_zero. Qed.

Lemma vdivs_zero d : vdivs (replicate d 0%float) Seps = replicate d 0%float.
Proof.
  unfold vdivs. induction d as [|d IH]; [done|].
  cbn [replicate map]. by rewrite IH.
Qed.

Lemma sum_upto_zeros k (f : nat -> float) :
  (forall j, (j < k)%nat -> is_zero (f j) = true) -> sum_upto k f = 0%float.
Proof.
  induction k as [|k IH]; intros Hf; [done|].
  rewrite sum_upto_S, IH by (intros; apply Hf; lia).
  apply double_add_zero_l, Hf. lia.
Qed.

Lemma Forall_leading_block {S} `{ScalarOps S} (P : S -> Prop) n (M : MatrixXX S) k :
  shape n n M -> (k <= n)%nat ->
  (forall i j, (i < k)%nat -> (j < k)%nat -> P (coeff M i j)) ->
  Forall (Forall P) (leading_block M k).
Proof.
  intros [Hl Hc] Hk HP. unfold leading_block.
  rewrite Forall_fmap. apply Forall_lookup. intros j cj Hj.
  apply lookup_take_Some in Hj as [Hj Hjk]. simpl.
  apply Forall_lookup. intros i x Hi.
  apply lookup_take_Some in Hi as [Hi Hik].
  specialize (HP i j Hik Hjk). unfold coeff in HP.
  by rewrite (list_lookup_total_correct _ _ _ Hj),
             (list_lookup_total_correct _ _ _ Hi) in HP.
Qed.

Lemma is_zero_lookup_total (v : VectorX float) j :
  Forall (fun x => is_zero x = true) v -> is_zero (v !!! j) = true.
Proof.
  intros Hv. rewrite list_lookup_total_alt.
  destruct (v !! j) as [x|] eqn:Hj; [|reflexivity].
  by apply (Forall_lookup_1 _ _ _ _ Hv Hj).
Qed.

(** Mixing a history of zero increments with zero coefficients returns
    [G]. *)
Lemma mix_zero_history_binary64 dim (G : VectorX float) (dG : MatrixXX float)
    (theta sc : VectorX float) m_k :
  let d := Z.to_nat dim in
  let k := Z.to_nat m_k in
  length G = d -> Forall (fun cj => length cj = d) dG ->
  (k <= length dG)%nat -> (k <= length theta)%nat -> (k <= length sc)%nat ->
  (forall j, (j < k)%nat -> col dG j = replicate d 0%float) ->
  (forall j, (j < k)%nat -> is_zero (theta !!! j) = true) ->
  (forall j, (j < k)%nat -> PrimFloat.leb Seps (sc !!! j) = true) ->
  mix dim G dG theta sc m_k = G.
Proof.
  intros d k HG HdG HkG Hkt Hks Hzero Hth Hsc.
  apply list_eq_same_length with d; [done|by apply length_mix|].
  intros i x y Hi Hx Hy.
  rewrite lookup_mix in Hx by done.
  rewrite (list_lookup_lookup_total_lt G i) in Hy by lia.
  injection Hx as <-. injection Hy as <-.
  fold k. rewrite sum_upto_zeros; [apply double_sub_zero|].
  intros j Hj. unfold coeff. fold (col dG j).
  rewrite (Hzero j Hj), lookup_total_replicate_2 by done.
  apply double_mul_zero; [reflexivity|].
  apply double_div_zero; [by apply Hth|by apply Hsc].
Qed.

Section Still.
Variable cod_solve : MatrixXX float -> VectorX float -> VectorX float.
Hypothesis solver : solves_zero_system cod_solve.
Implicit Types (s : AndersonAcceleration float).

(** One call of a run fed its own finite iterate. *)
Lemma identity_step_binary64 s (g : ScalarPtr float) :
  Reachable cod_solve s -> converged_history s -> still_history s ->
  (0 <= iter_ s)%Z ->
  map g (seq 0 (Z.to_nat (dim_ s))) = current_u_ s ->
  finite_vector (current_u_ s) ->
  exists s',
    compute cod_solve s g = Ok (s', current_u_ s) /\
    current_u_ s' = current_u_ s /\
    converged_history s' /\ still_history s'.
Proof using solver.
  intros Hr HinvG HinvF Hi HG Hfin.
  pose proof (Reachable_wf cod_solve s Hr) as Hs.
  pose proof (scales_clamped_Reachable cod_solve s Hr) as Hclamp.
  pose proof (wf_dim s Hs) as Hd. pose proof (wf_u s Hs) as Hu.
  pose proof (wf_m s Hs) as Hm.
  pose proof (compute_Ok cod_solve s g Hi Hd) as Hc. cbv zeta in Hc.
  rewrite HG in Hc.
  set (d := Z.to_nat (dim_ s)) in *.
  set (G := current_u_ s) in *. set (F := vsub G G) in *.
  assert (HFz : F = replicate d 0%float) by (unfold F; by rewrite vsub_self, Hu).
  assert (HF : length F = d) by (by rewrite HFz, length_replicate).
  destruct (wf_dG s Hs) as [HdGl HdGc].
  destruct (Z.eqb_spec (iter_ s) 0) as [Hz|Hnz].
  - exists (cold_start s G F). split; [exact Hc|]. split; [done|].
    split; intros _; unfold cold_start, window;
      cbn [prev_dG_ prev_dF_ col_idx_ current_u_ m_ iter_ dim_];
      rewrite (wf_cold s Hs Hz), Hz; change (int_incr 0) with 1%Z;
      change (Z.to_nat 0) with 0%nat.
    + split; [apply col_set_col_eq; lia|]. intros j Hj Hj0. lia.
    + destruct (wf_dF s Hs) as [HdFl _].
      split; [rewrite col_set_col_eq by lia; by rewrite HFz|].
      intros j Hj Hj0. lia.
  - assert (Hpos : (0 < iter_ s)%Z) by lia.
    destruct (HinvG Hpos) as [HseedG HdoneG].
    destruct (HinvF Hpos) as [HseedF HdoneF]. fold d in HseedF, HdoneF, HdoneG.
    destruct (ring_position s Hs Hpos) as (Hck & Hk & Hc' & Hcases).
    pose proof (shape_finalize_dG s G F Hs Hu) as [HfGl HfGc].
    pose proof (shape_finalize_dF s G F Hs HF) as [HfFl HfFc].
    pose proof (wf_accelerated cod_solve s G F Hs Hpos Hu HF) as Hs'.
    set (k := window s) in *.
    assert (HfinG : forall j, (j < k)%nat ->
              col (finalize s G F).1.2 j = replicate d 0%float).
    { intros j Hj. unfold finalize. cbn [fst snd].
      destruct (decide (j = Z.to_nat (col_idx_ s))) as [->|Hne].
      - rewrite col_set_col_eq by lia. rewrite HseedG. fold G.
        by rewrite vadd_vneg_self, Hu.
      - rewrite col_set_col_ne by done. by apply HdoneG. }
    assert (HfinF : forall j, (j < k)%nat ->
              col (finalize s G F).1.1 j = replicate d 0%float).
    { intros j Hj.
      destruct (decide (j = Z.to_nat (col_idx_ s))) as [->|Hne].
      - destruct (finalize_scale_at s G F Hs) as [_ ->].
        rewrite HseedF, HFz, vadd_vneg_zero, norm_zero.
        change (std_max Seps 0%float) with (Seps (S:=float)).
        apply vdivs_zero.
      - rewrite col_finalize_ne by done. by apply HdoneF. }
    assert (Hscale : forall j, (j < k)%nat ->
              PrimFloat.leb Seps ((finalize s G F).2 !!! j) = true).
    { intros j Hj. apply double_clamped_ge.
      apply finalize_scale_clamped; [done|lia|done|done]. }
    set (ne := normal_equations cod_solve (M_ s) (theta_ s) (finalize s G F).1.1
                 F (Z.to_nat (col_idx_ s)) (Z.min (m_ s) (iter_ s))).
    assert (Htheta : forall j, (j < k)%nat -> is_zero (ne.2 !!! j) = true).
    { intros j Hj. unfold ne.
      destruct (Z.eqb_spec (Z.min (m_ s) (iter_ s)) 1) as [E|E].
      - assert (j = 0%nat) as -> by (unfold k, window in Hj; lia).
        rewrite E.
        pose proof (theta_single_column_computed (ops:=DoubleOps) cod_solve
                      (M_ s) (theta_ s) (finalize s G F).1.1 F
                      (Z.to_nat (col_idx_ s))
                      ltac:(rewrite (wf_theta s Hs); lia)) as Hth.
        cbv zeta in Hth. rewrite (HfinF _ Hck), norm_zero in Hth.
        by rewrite (list_lookup_total_correct _ _ _ Hth).
      - rewrite normal_equations_else by (by apply Z.eqb_neq).
        cbv zeta. fold ne. change (Z.to_nat (Z.min (m_ s) (iter_ s))) with k.
        erewrite list_lookup_total_correct;
          [|apply lookup_set_head; rewrite (wf_theta s Hs); lia].
        rewrite decide_True by done.
        apply is_zero_lookup_total, solver.
        + apply (Forall_leading_block _ (Z.to_nat (m_ s))); [|lia|].
          * apply (wf_M _ Hs').
          * intros i j' Hik Hjk.
            pose proof (gram_block_accelerated cod_solve double_mul_comm s G F Hs
                          Hpos HF
                          (gram_of_completed_Reachable cod_solve double_mul_comm
                             s Hr) i j' Hik Hjk) as Hg.
            unfold accelerated in Hg. cbn [M_] in Hg. fold ne in Hg.
            rewrite Hg, (HfinF _ Hik), (HfinF _ Hjk). by rewrite dot_zero.
        + unfold transpose_times, leading_cols. rewrite Forall_fmap.
          apply Forall_lookup. intros j' cj Hj'.
          apply lookup_take_Some in Hj' as [Hj' Hjk]. simpl.
          apply list_lookup_total_correct in Hj'. fold (col (finalize s G F).1.1 j') in Hj'.
          rewrite <- Hj', (HfinF _ Hjk), HFz. by rewrite dot_zero. }
    assert (Hmix : current_u_ (accelerated cod_solve s G F) = G).
    { unfold accelerated. cbn [current_u_]. fold ne.
      unfold k, window in Hk, HfinG, Htheta, Hscale.
      apply mix_zero_history_binary64; try done; try lia.
      - unfold ne. rewrite length_normal_equations, (wf_theta s Hs). lia.
      - rewrite length_finalize_scale, (wf_scale s Hs). lia. }
    exists (accelerated cod_solve s G F). rewrite Hmix in Hc.
    split; [exact Hc|]. split; [exact Hmix|].
    split; intros _; [rewrite Hmix|]; unfold accelerated, window;
      cbn [prev_dG_ prev_dF_ col_idx_ m_ iter_ dim_]; fold d.
    + split; [apply col_set_col_eq; lia|].
      intros j Hj Hjc. rewrite col_set_col_ne by done. apply HfinG.
      unfold k, window in *.
      destruct Hcases as [E|[[E Hfull]|(E & E' & Hlt)]]; lia.
    + split; [rewrite col_set_col_eq by lia; by rewrite HFz|].
      intros j Hj Hjc. rewrite col_set_col_ne by done. apply HfinF.
      unfold k, window in *.
      destruct Hcases as [E|[[E Hfull]|(E & E' & Hlt)]]; lia.
Qed.
End Still.

Section Still2.
Variable cod_solve : MatrixXX float -> VectorX float -> VectorX float.
Hypothesis solver : solves_zero_system cod_solve.

Lemma IdentityRun_still s :
  IdentityRun cod_solve s -> finite_vector (current_u_ s) ->
  converged_history s /\ still_history s.
Proof using solver.
  induction 1 as [s m d u0 fresh s' Hinit|s g s' u Hrun IH HG Hcomp].
  - apply init_inv in Hinit as (_ & _ & ->). intros _.
    split; intros Hi; cbn [iter_] in Hi; lia.
  - intros Hfin'.
    pose proof (IdentityRun_Reachable cod_solve s Hrun) as Hr.
    pose proof (Reachable_wf cod_solve s Hr) as Hs.
    apply compute_inv in Hcomp as Hci. destruct Hci as (Hi & Hd & _ & Hs').
    cbv zeta in Hs'. rewrite HG in Hs'.
    assert (Hfin : finite_vector (current_u_ s)).
    { destruct (Z.eqb_spec (iter_ s) 0) as [Hz|Hnz].
      - by rewrite Hs' in Hfin'.
      - rewrite Hs' in Hfin'. unfold accelerated in Hfin'. cbn [current_u_] in Hfin'.
        pose proof (wf_u s Hs) as Hu.
        set (G := current_u_ s) in *. set (F := vsub G G) in *.
        assert (HF : length F = Z.to_nat (dim_ s))
          by (unfold F, vsub; rewrite length_zip_with; lia).
        pose proof (shape_finalize_dG s G F Hs Hu) as [HfGl HfGc].
        destruct (ring_position s Hs ltac:(lia)) as (_ & Hk & _).
        unfold window in Hk.
        apply Forall_lookup. intros i x Hx.
        assert (Hli : (i < Z.to_nat (dim_ s))%nat)
          by (rewrite <- Hu; by eapply lookup_lt_Some).
        rewrite Forall_lookup in Hfin'.
        rewrite <- (list_lookup_total_correct _ _ _ Hx).
        eapply double_finite_sub_l, (Hfin' i).
        apply lookup_mix; [done|done|lia| | |done].
        + rewrite length_normal_equations, (wf_theta s Hs). lia.
        + rewrite length_finalize_scale, (wf_scale s Hs). lia. }
    destruct (IH Hfin) as [HinvG HinvF].
    destruct (identity_step_binary64 cod_solve solver s g Hr HinvG HinvF Hi HG Hfin)
      as (s1 & Hc1 & _ & HG1 & HF1).
    rewrite Hc1 in Hcomp. by injection Hcomp as <- _.
Qed.
End Still2.


(** ** The runs in binary64 *)

Lemma pivot_solve_zero_system : solves_zero_system pivot_solve.
Proof.
  intros A b HA Hb. unfold pivot_solve.
  apply Forall_lookup. intros i x Hx.
  rewrite list_lookup_imap in Hx.
  destruct (b !! i) as [bi|]; [|done]. injection Hx as <-.
  assert (Hz : is_zero (coeff A i i) = true).
  { unfold coeff. apply is_zero_lookup_total.
    rewrite list_lookup_total_alt. destruct (A !! i) as [ci|] eqn:Hi; [|done].
    by apply (Forall_lookup_1 _ _ _ _ HA Hi). }
  by rewrite Hz.
Qed.

Lemma double_still_IdentityRun n : (n <= 2)%nat -> IdentityRun pivot_solve (double_still n).
Proof.
  intros Hn.
  assert (H0 : IdentityRun pivot_solve (double_still 0)).
  { by apply (IdentityRun_init pivot_solve constructed 2 1 (ptr_of [5%float])
                (uninit_with 7%float 8%float)). }
  assert (H1 : IdentityRun pivot_solve (double_still 1)).
  { by apply (IdentityRun_compute pivot_solve (double_still 0) (ptr_of [5%float])
                _ [5%float] H0). }
  assert (H2 : IdentityRun pivot_solve (double_still 2)).
  { by apply (IdentityRun_compute pivot_solve (double_still 1) (ptr_of [5%float])
                _ [5%float] H1). }
  destruct n as [|[|[|n]]]; [done|done|done|lia].
Qed.






(** * Further properties of the class *)

Section Lifecycle.
Context {S : Type} {ops : ScalarOps S}.
Variable cod_solve : MatrixXX S -> VectorX S -> VectorX S.
Implicit Types (s : AndersonAcceleration S) (g : ScalarPtr S).

(** X1.  In every state reached after [init] the buffers have the sizes
    given to [init], the write index is a column of the history, and it
    follows the counter around the ring: it is 0 before the first call and
    [(iter_ - 1) mod m_] afterwards. *)
Theorem write_index_follows_counter s :
  Reachable cod_solve s ->
  (0 < m_ s)%Z /\ (0 <= dim_ s)%Z /\
  (0 <= col_idx_ s < m_ s)%Z /\
  (iter_ s = 0%Z -> col_idx_ s = 0%Z) /\
  ((0 < iter_ s)%Z -> col_idx_ s = ((iter_ s - 1) mod m_ s)%Z) /\
  length (current_u_ s) = Z.to_nat (dim_ s) /\
  shape (Z.to_nat (dim_ s)) (Z.to_nat (m_ s)) (prev_dG_ s) /\
  shape (Z.to_nat (dim_ s)) (Z.to_nat (m_ s)) (prev_dF_ s) /\
  shape (Z.to_nat (m_ s)) (Z.to_nat (m_ s)) (M_ s) /\
  length (theta_ s) = Z.to_nat (m_ s) /\
  length (dF_scale_ s) = Z.to_nat (m_ s).
Proof.
  intros Hs%Reachable_wf. destruct Hs. do 10 (split; [done|]). done.
Qed.

(** X2.  [init] stops at its [assert(m > 0)] when [m <= 0], whatever [d]
    is; with [m > 0] it stops in Eigen's [resize] when [d < 0]; it returns
    exactly when [m > 0] and [d >= 0]. *)
Theorem init_checks_sizes s m d (u0 : ScalarPtr S) fresh :
  ((m <= 0)%Z -> init s m d u0 fresh = Abort AssertionFailed) /\
  ((0 < m)%Z -> (d < 0)%Z -> init s m d u0 fresh = Abort EigenAssertionFailed) /\
  ((exists s', init s m d u0 fresh = Ok s') <-> (0 < m)%Z /\ (0 <= d)%Z).
Proof.
  unfold init. destruct (Z.leb_spec m 0) as [Hm|Hm].
  { split; [done|]. split; [lia|]. split; [by intros [? ?]|lia]. }
  destruct (Z.ltb_spec d 0) as [Hd|Hd].
  { split; [lia|]. split; [done|]. split; [by intros [? ?]|lia]. }
  rewrite Map_Ok by done. split; [lia|]. split; [lia|]. split; eauto.
Qed.

Lemma run_counts_computes_wf s cs :
  wf s -> (0 <= iter_ s)%Z -> init_free cs ->
  (iter_ s + Z.of_nat (count_computes cs) <= INT_MAX)%Z ->
  exists s' us,
    run cod_solve s cs = Ok (s', us) /\
    iter_ s' = (iter_ s + Z.of_nat (count_computes cs))%Z /\
    m_ s' = m_ s /\ dim_ s' = dim_ s /\
    length us = count_computes cs /\
    Forall (fun u => length u = Z.to_nat (dim_ s)) us.
Proof.
  revert s. induction cs as [|c cs IH]; intros s Hs Hi Hfree Hmax.
  { exists s, []. cbn. repeat split; [lia|constructor]. }
  apply Forall_cons in Hfree as [Hc Hfree].
  pose proof (wf_dim s Hs) as Hd. pose proof (wf_iter_range s Hs) as Hr.
  destruct c as [m d u0 fresh|u|g]; [done|..]; cbn [run step count_computes] in Hmax |- *.
  - destruct (replace s u) as [s1|] eqn:Hrep;
      [|unfold replace in Hrep; by rewrite Map_Ok in Hrep].
    pose proof (wf_replace s u s1 Hs Hrep) as Hs1.
    unfold replace in Hrep. rewrite Map_Ok in Hrep by done. injection Hrep as <-.
    destruct (IH _ Hs1 Hi Hfree Hmax) as (s' & us & -> & Eit & Em & Ed & El & Hall).
    exists s', us. simpl in *. done.
  - pose proof (compute_Ok cod_solve s g Hi Hd) as Hc1. cbv zeta in Hc1.
    set (s1 := if (iter_ s =? 0)%Z then _ else _) in Hc1.
    assert (Eit1 : iter_ s1 = (iter_ s + 1)%Z).
    { unfold s1. destruct (iter_ s =? 0)%Z; cbn [iter_ cold_start accelerated];
        apply int_incr_next; lia. }
    assert (Em1 : m_ s1 = m_ s) by (unfold s1; by destruct (iter_ s =? 0)%Z).
    assert (Ed1 : dim_ s1 = dim_ s) by (unfold s1; by destruct (iter_ s =? 0)%Z).
    pose proof (wf_compute cod_solve s g s1 _ Hs Hc1) as Hs1.
    rewrite Hc1. clearbody s1.
    destruct (IH s1 Hs1 ltac:(lia) Hfree ltac:(lia))
      as (s' & us & -> & Eit & Em & Ed & El & Hall).
    exists s', (current_u_ s1 :: us). cbn [from_option app].
    split; [done|]. split; [lia|]. split; [congruence|]. split; [congruence|].
    split; [cbn; lia|]. constructor.
    + by rewrite (wf_u s1 Hs1), Ed1.
    + by rewrite <- Ed1.
Qed.

(** X3.  After [init], a program of [replace] and [compute] calls runs to
    its end, as long as the counter stays within [int]: [iter_] grows by
    the number of [compute] calls, [m_] and [dim_] do not change, and every
    [compute] returns a vector of [dim_] coefficients. *)
Theorem run_counts_computes s cs :
  Reachable cod_solve s -> (0 <= iter_ s)%Z -> init_free cs ->
  (iter_ s + Z.of_nat (count_computes cs) <= INT_MAX)%Z ->
  exists s' us,
    run cod_solve s cs = Ok (s', us) /\
    iter_ s' = (iter_ s + Z.of_nat (count_computes cs))%Z /\
    m_ s' = m_ s /\ dim_ s' = dim_ s /\
    length us = count_computes cs /\
    Forall (fun u => length u = Z.to_nat (dim_ s)) us.
Proof. intros Hs%Reachable_wf. by apply run_counts_computes_wf. Qed.

(** X4.  [compute] writes two slots of the history at most, the one at
    the write index and the one at the write index it leaves, and one
    entry of [dF_scale_]: every other column of [prev_dG_] and [prev_dF_]
    and every other scale is as before. *)
Theorem compute_writes_two_slots s g s' u :
  Reachable cod_solve s -> compute cod_solve s g = Ok (s', u) ->
  let c := Z.to_nat (col_idx_ s) in
  let c' := Z.to_nat (col_idx_ s') in
  (forall j, j <> c -> j <> c' ->
     col (prev_dG_ s') j = col (prev_dG_ s) j /\
     col (prev_dF_ s') j = col (prev_dF_ s) j) /\
  (forall j, j <> c -> dF_scale_ s' !!! j = dF_scale_ s !!! j) /\
  m_ s' = m_ s /\ dim_ s' = dim_ s.
Proof.
  intros Hs%Reachable_wf (Hi & Hd & _ & ->)%compute_inv c c'.
  destruct (Z.eqb_spec (iter_ s) 0) as [Hz|Hnz]; subst c c'.
  - unfold cold_start. cbn [prev_dG_ prev_dF_ dF_scale_ m_ dim_ col_idx_].
    rewrite (wf_cold s Hs Hz). change (Z.to_nat 0) with 0%nat.
    split; [|done]. intros j Hj _. by rewrite !col_set_col_ne.
  - unfold accelerated, finalize.
    cbn [prev_dG_ prev_dF_ dF_scale_ m_ dim_ col_idx_ fst snd].
    split; [|split; [|done]].
    + intros j Hj Hj'. by rewrite !col_set_col_ne.
    + intros j Hj. by rewrite list_lookup_total_insert_ne.
Qed.
End Lifecycle.

Section Composition.
Context {S : Type} {ops : ScalarOps S}.
Implicit Types (s : AndersonAcceleration S) (g : ScalarPtr S).

Lemma next_write_index_differs s :
  wf s -> (1 < m_ s)%Z ->
  Z.to_nat (Z.rem (col_idx_ s + 1) (m_ s)) <> Z.to_nat (col_idx_ s).
Proof.
  intros Hs Hm. pose proof (wf_col s Hs) as Hc.
  rewrite Z.rem_mod_nonneg by lia.
  destruct (decide (col_idx_ s + 1 = m_ s)%Z) as [E|E].
  - rewrite E, Z_mod_same_full. lia.
  - rewrite Z.mod_small by lia. lia.
Qed.

(** The slot at the write index a call leaves holds the seeds [-G] and
    [-F] of that call. *)
Lemma seed_at_write_index cod_solve s g s1 u1 :
  wf s -> compute cod_solve s g = Ok (s1, u1) ->
  let G := map g (seq 0 (Z.to_nat (dim_ s))) in
  let c := Z.to_nat (col_idx_ s1) in
  u1 = current_u_ s1 /\ dim_ s1 = dim_ s /\ m_ s1 = m_ s /\
  iter_ s1 = int_incr (iter_ s) /\ (0 <= iter_ s)%Z /\
  col (prev_dG_ s1) c = vneg G /\
  col (prev_dF_ s1) c = vneg (vsub G (current_u_ s)).
Proof.
  intros Hs Hc G c. pose proof (wf_compute cod_solve s g s1 u1 Hs Hc) as Hs1.
  pose proof (wf_col s1 Hs1) as Hcol.
  destruct (wf_dG s1 Hs1) as [HlG _]. destruct (wf_dF s1 Hs1) as [HlF _].
  apply compute_inv in Hc as (Hi & Hd & -> & E). cbv zeta in E. fold G in E.
  subst c. split; [done|].
  destruct (Z.eqb_spec (iter_ s) 0) as [Hz|Hnz]; subst s1.
  - unfold cold_start in HlG, HlF, Hcol |- *.
    cbn [prev_dG_ prev_dF_ col_idx_ dim_ m_ iter_] in HlG, HlF, Hcol |- *.
    rewrite (wf_cold s Hs Hz). change (Z.to_nat 0) with 0%nat.
    unfold set_col in HlG, HlF. rewrite length_insert in HlG, HlF.
    do 4 (split; [done|]). split; apply col_set_col_eq; lia.
  - unfold accelerated in HlG, HlF, Hcol |- *.
    cbn [prev_dG_ prev_dF_ col_idx_ dim_ m_ iter_] in HlG, HlF, Hcol |- *.
    unfold set_col in HlG, HlF. rewrite length_insert in HlG, HlF.
    do 4 (split; [done|]). split; apply col_set_col_eq; lia.
Qed.

(** X5.  Two consecutive calls, with more than one slot: the slot the
    first call seeds with [-G1] and [-F1] is completed by the second into
    the increments [-G1 + G2] of the evaluations and [-F1 + F2] of the
    residuals, the second residual being taken at the iterate the first
    call returned; the residual increment is stored divided by its clamped
    norm, which is stored as its scale. *)
Theorem consecutive_calls_store_increments cod_solve s g1 g2 s1 u1 s2 u2 :
  Reachable cod_solve s -> (1 < m_ s)%Z ->
  compute cod_solve s g1 = Ok (s1, u1) ->
  compute cod_solve s1 g2 = Ok (s2, u2) ->
  let d := Z.to_nat (dim_ s) in
  let G1 := map g1 (seq 0 d) in
  let F1 := vsub G1 (current_u_ s) in
  let G2 := map g2 (seq 0 d) in
  let F2 := vsub G2 u1 in
  let c := Z.to_nat (col_idx_ s1) in
  let dres := vadd (vneg F1) F2 in
  col (prev_dG_ s1) c = vneg G1 /\ col (prev_dF_ s1) c = vneg F1 /\
  current_F_ s2 = F2 /\
  col (prev_dG_ s2) c = vadd (vneg G1) G2 /\
  col (prev_dF_ s2) c = vdivs dres (std_max Seps (norm dres)) /\
  dF_scale_ s2 !! c = Some (std_max Seps (norm dres)).
Proof.
  intros Hs%(Reachable_wf cod_solve) Hm Hc1 Hc2 d G1 F1 G2 F2 c dres.
  pose proof (wf_compute cod_solve s g1 s1 u1 Hs Hc1) as Hs1.
  destruct (seed_at_write_index cod_solve s g1 s1 u1 Hs Hc1)
    as (Eu & Ed & Em & Eit & Hi & HsG & HsF).
  fold d G1 F1 c in HsG, HsF.
  split; [exact HsG|]. split; [exact HsF|].
  apply compute_inv in Hc2 as (Hi1 & _ & _ & E2). cbv zeta in E2.
  rewrite Ed, <- Eu in E2. fold d G2 F2 in E2.
  assert (Hnz : (iter_ s1 =? 0)%Z = false).
  { apply Z.eqb_neq. rewrite Eit in Hi1 |- *.
    pose proof (wf_iter_range s Hs).
    destruct (decide (iter_ s = INT_MAX)) as [E|E].
    - rewrite E, int_incr_max in Hi1. lia.
    - rewrite int_incr_next; lia. }
  rewrite Hnz in E2. subst s2.
  destruct (finalize_scale_at s1 G2 F2 Hs1) as [Hsc Hcol].
  fold c in Hsc, Hcol. rewrite HsF in Hsc, Hcol. fold dres in Hsc, Hcol.
  pose proof (next_write_index_differs s1 Hs1 ltac:(lia)) as Hne. fold c in Hne.
  pose proof (wf_col s1 Hs1) as Hcol1. destruct (wf_dG s1 Hs1) as [HlG _].
  unfold accelerated. cbn [current_F_ prev_dG_ prev_dF_ dF_scale_].
  split; [done|]. split; [|split; [|exact Hsc]].
  - rewrite col_set_col_ne by done. unfold finalize. cbn [fst snd]. fold c.
    rewrite col_set_col_eq by (unfold c; lia). by rewrite HsG.
  - by rewrite col_set_col_ne.
Qed.

Lemma compute_without_solver cod1 cod2 s g :
  (iter_ s <= 0)%Z \/ Z.min (m_ s) (iter_ s) = 1%Z ->
  compute cod1 s g = compute cod2 s g.
Proof.
  intros H. unfold compute.
  destruct (Z.ltb_spec (iter_ s) 0); [done|].
  destruct (Map g (dim_ s)) as [G|]; [|done].
  destruct (Z.eqb_spec (iter_ s) 0) as [Hz|Hnz]; [done|].
  destruct H as [H|H]; [lia|].
  unfold accelerated, normal_equations. by rewrite H.
Qed.

(** X6.  With a single slot ([m_ = 1]) the decomposition is never used: a
    program of [replace] and [compute] calls returns the same iterates and
    ends in the same state whatever the solver is. *)
Theorem single_slot_never_solves cod1 cod2 s cs :
  m_ s = 1%Z -> init_free cs -> run cod1 s cs = run cod2 s cs.
Proof.
  revert s. induction cs as [|c cs IH]; intros s Hm Hfree; [done|].
  apply Forall_cons in Hfree as [Hc Hfree].
  destruct c as [m d u0 fresh|u|g]; [done|..]; cbn [run step].
  - destruct (replace s u) as [s1|] eqn:Hrep; [|done].
    rewrite (IH s1); [done| |done].
    unfold replace in Hrep. destruct (Map u (dim_ s)); [|done].
    by injection Hrep as <-.
  - rewrite (compute_without_solver cod1 cod2 s g) by lia.
    destruct (compute cod2 s g) as [[s1 u1]|] eqn:Hcomp; [|done].
    rewrite (IH s1); [done| |done].
    apply compute_inv in Hcomp as (_ & _ & _ & ->).
    by destruct (iter_ s =? 0)%Z.
Qed.

Lemma wf_with_scratch s (theta F : VectorX S) x :
  wf s -> length theta = Z.to_nat (m_ s) -> wf (with_scratch s theta F x).
Proof.
  intros [] Hl. constructor; cbn; try done. by rewrite length_insert.
Qed.

Lemma with_scratch_reads_alike s (theta F : VectorX S) x :
  reads_alike s (with_scratch s theta F x).
Proof.
  constructor; cbn; try done.
  intros j _ Hj. by rewrite list_lookup_total_insert_ne.
Qed.

(** X7.  [theta_], [current_F_] and the entry of [dF_scale_] at the write
    index are scratch: [compute] writes them before it reads them.  With
    any other contents there, every program of calls returns the same
    iterates. *)
Theorem scratch_members_do_not_influence cod_solve s (theta F : VectorX S) x cs :
  Reachable cod_solve s -> length theta = Z.to_nat (m_ s) ->
  returned (run cod_solve s cs) =
  returned (run cod_solve (with_scratch s theta F x) cs).
Proof.
  intros Hs%(Reachable_wf cod_solve) Hl. apply run_alike; [done| |].
  - by apply wf_with_scratch.
  - apply with_scratch_reads_alike.
Qed.
End Composition.

Section ExactSteps.
Variable cod_solve : MatrixXX R -> VectorX R -> VectorX R.
Implicit Types (s : AndersonAcceleration R) (v w F G : VectorX R).
Open Scope R_scope.

Lemma dot_acc v w (acc : R) :
  fold_left Sadd (zip_with Smul v w) acc = acc + dot v w.
Proof.
  unfold dot. change Szero with 0. revert w acc.
  induction v as [|x v IH]; intros [|y w] acc; try (simpl; lra).
  cbn [zip_with fold_left].
  rewrite (IH w (Sadd acc (Smul x y))), (IH w (Sadd 0 (Smul x y))).
  simpl. lra.
Qed.

Lemma dot_cons x v y w : dot (x :: v) (y :: w) = x * y + dot v w.
Proof. unfold dot at 1. simpl. rewrite dot_acc. change Szero with 0. lra. Qed.

Lemma dot_vdivs_l v w (x : R) : dot (vdivs v x) w = dot v w / x.
Proof.
  revert w. induction v as [|a v IH]; intros [|b w];
    try (unfold dot; simpl; unfold Rdiv; lra).
  change (vdivs (a :: v) x) with (a / x :: vdivs v x).
  rewrite !dot_cons, IH. unfold Rdiv. lra.
Qed.

Lemma norm_nonneg v : 0 <= norm v.
Proof. apply sqrt_pos. Qed.

Lemma norm_clamped v :
  let n := norm (vdivs v (Rmax 1e-14 (norm v))) in
  0 <= n <= 1 /\ (1e-14 <= norm v -> n = 1).
Proof.
  pose proof (norm_nonneg v) as Hn. cbv zeta.
  assert (Hpos : 0 < Rmax 1e-14 (norm v))
    by (unfold Rmax; destruct (Rle_dec _ _); lra).
  rewrite norm_vdivs by done. unfold Rmax in Hpos |- *.
  destruct (Rle_dec 1e-14 (norm v)) as [Hle|Hgt].
  - replace (norm v / norm v) with 1 by (field; lra). lra.
  - split; [|lra]. split.
    + apply Rmult_le_pos; [lra|]. apply Rlt_le, Rinv_0_lt_compat. lra.
    + apply (Rmult_le_reg_r 1e-14); [lra|].
      replace (norm v / 1e-14 * 1e-14) with (norm v) by (field; lra). lra.
Qed.

Lemma columns_within_accelerated s G F :
  wf s -> (0 < iter_ s)%Z -> columns_within Rle 1 s ->
  (forall j, (j < window s)%nat -> norm (col (finalize s G F).1.1 j) <= 1) /\
  columns_within Rle 1 (accelerated cod_solve s G F).
Proof.
  intros Hs Hi Hinv.
  destruct (ring_position s Hs Hi) as (Hc & Hk & Hc' & Hcases).
  assert (Hfin : forall j, (j < window s)%nat ->
                 norm (col (finalize s G F).1.1 j) <= 1).
  { intros j Hj. destruct (decide (j = Z.to_nat (col_idx_ s))) as [->|Hne].
    - destruct (finalize_scale_at s G F Hs) as [_ ->]. rewrite std_max_Rmax.
      apply norm_clamped.
    - rewrite col_finalize_ne by done. by apply Hinv. }
  split; [exact Hfin|]. intros j.
  unfold window at 1. unfold accelerated at 1 2.
  cbn [m_ iter_ col_idx_]. intros Hj Hjc.
  replace (prev_dF_ (accelerated cod_solve s G F))
    with (set_col (finalize s G F).1.1
            (Z.to_nat (Z.rem (col_idx_ s + 1) (m_ s))) (vneg F)) by reflexivity.
  rewrite col_set_col_ne by done. apply Hfin.
  change (col_idx_ (accelerated cod_solve s G F))
    with (Z.rem (col_idx_ s + 1) (m_ s)) in Hjc.
  destruct Hcases as [E|[[E Hfull]|(E & E' & Hlt)]]; lia.
Qed.

Lemma columns_within_Reachable s :
  Reachable cod_solve s -> columns_within Rle 1 s.
Proof.
  induction 1 as [s m d u0 fresh s' Hinit|s u s' Hs IH Hrep|s g s' u Hs IH Hcomp].
  - apply init_inv in Hinit as (Hm & Hd & ->). intros j.
    unfold window. cbn [m_ iter_]. lia.
  - unfold replace in Hrep. destruct (Map u (dim_ s)); [|done].
    injection Hrep as <-. exact IH.
  - pose proof (Reachable_wf cod_solve s Hs) as Hwf.
    apply compute_inv in Hcomp as (Hi & Hd & _ & ->).
    destruct (Z.eqb_spec (iter_ s) 0) as [Hz|Hnz].
    + intros j. unfold cold_start, window. cbn [m_ iter_ col_idx_].
      rewrite Hz, (wf_cold s Hwf Hz). change (int_incr 0) with 1%Z.
      change (Z.to_nat 0) with 0%nat. lia.
    + apply columns_within_accelerated; [done|lia|done].
Qed.

(** X8.  In exact arithmetic, on a call with [iter_ >= 1], every active
    column of [prev_dF_] has norm at most 1 when the normal equations are
    solved, the column completed by the call has norm exactly 1 unless the
    residual increment is shorter than [1e-14], and the diagonal of the
    active block of [M_] lies between 0 and 1. *)
Theorem active_columns_are_unit_scaled s (g : ScalarPtr R) :
  Reachable cod_solve s -> (1 <= iter_ s)%Z ->
  let d := Z.to_nat (dim_ s) in
  let G := map g (seq 0 d) in
  let F := vsub G (current_u_ s) in
  let c := Z.to_nat (col_idx_ s) in
  let dF := (finalize s G F).1.1 in
  exists s' u,
    compute cod_solve s g = Ok (s', u) /\
    (forall j, (j < window s)%nat -> norm (col dF j) <= 1) /\
    (1e-14 <= norm (vadd (col (prev_dF_ s) c) F) -> norm (col dF c) = 1) /\
    (forall j, (j < window s)%nat -> 0 <= coeff (M_ s') j j <= 1).
Proof.
  intros Hr Hi d G F c dF.
  pose proof (Reachable_wf cod_solve s Hr) as Hs.
  pose proof (wf_dim s Hs) as Hd.
  pose proof (compute_Ok cod_solve s g ltac:(lia) Hd) as Hc.
  cbv zeta in Hc. fold d G F in Hc.
  destruct (Z.eqb_spec (iter_ s) 0) as [?|_]; [lia|].
  assert (HF : length F = d).
  { unfold F, G, vsub.
    rewrite length_zip_with, length_map, length_seq, (wf_u s Hs). fold d. lia. }
  destruct (columns_within_accelerated s G F Hs ltac:(lia)
              (columns_within_Reachable s Hr)) as [Hfin _].
  fold dF in Hfin.
  eexists _, _. split; [exact Hc|]. split; [exact Hfin|]. split.
  - intros Hle. destruct (finalize_scale_at s G F Hs) as [_ Hcol].
    fold c dF in Hcol. rewrite Hcol, std_max_Rmax. by apply norm_clamped.
  - intros j Hj.
    rewrite (gram_block_accelerated (ops:=RealOps) cod_solve Rmult_comm s G F Hs
               ltac:(lia) HF (gram_of_completed_Reachable (ops:=RealOps) cod_solve
                                Rmult_comm s Hr) j j Hj Hj).
    fold dF. rewrite <- norm_sqr.
    pose proof (norm_nonneg (col dF j)). specialize (Hfin j Hj). nra.
Qed.
(** Lines 67-107 with one active column whose residual increment [raw] is
    longer than [1e-14], in terms of the increments before normalisation:
    the scale cancels and the step is [G - dG * (raw . F) / (raw . raw)]. *)
Lemma single_column_step s G F i :
  wf s -> Z.min (m_ s) (iter_ s) = 1%Z ->
  length G = Z.to_nat (dim_ s) -> length F = Z.to_nat (dim_ s) ->
  let raw := vadd (col (prev_dF_ s) 0) F in
  let dG := vadd (col (prev_dG_ s) 0) G in
  1e-14 < norm raw -> (i < Z.to_nat (dim_ s))%nat ->
  current_u_ (accelerated cod_solve s G F) !! i =
  Some (G !!! i - dG !!! i * (dot raw F / dot raw raw)).
Proof.
  intros Hs Hmin HG HF raw dG Hraw Hi.
  pose proof (wf_m s Hs) as Hm.
  assert (Hit : (1 <= iter_ s)%Z) by lia.
  assert (Hcol : Z.to_nat (col_idx_ s) = 0%nat).
  { rewrite (wf_warm s Hs) by lia.
    destruct (decide (m_ s = 1%Z)) as [->|Hm1]; [by rewrite Z.mod_1_r|].
    replace (iter_ s) with 1%Z by lia. rewrite Z.mod_0_l; [done|lia]. }
  destruct (finalize_scale_at s G F Hs) as [Hsc HdF].
  rewrite Hcol in Hsc, HdF. fold raw in Hsc, HdF.
  rewrite std_max_Rmax in Hsc, HdF.
  assert (Hmax : Rmax 1e-14 (norm raw) = norm raw) by (apply Rmax_right; lra).
  rewrite Hmax in Hsc, HdF.
  pose proof (shape_finalize_dG s G F Hs HG) as [HfGl HfGc].
  destruct (wf_dG s Hs) as [HdGl _].
  assert (Hcoeff : coeff (finalize s G F).1.2 i 0 = dG !!! i).
  { unfold coeff. fold (col (finalize s G F).1.2 0).
    unfold finalize. cbn [fst snd]. rewrite Hcol.
    rewrite col_set_col_eq by lia. done. }
  assert (Hn1 : norm (vdivs raw (norm raw)) = 1).
  { rewrite norm_vdivs by lra. field. lra. }
  assert (Hth : (normal_equations cod_solve (M_ s) (theta_ s)
                   (finalize s G F).1.1 F 0 1).2 !!! 0%nat
                = dot raw F / norm raw).
  { apply list_lookup_total_correct.
    rewrite theta_single_column by (rewrite (wf_theta s Hs); lia).
    rewrite HdF, Hn1. destruct (Rlt_dec 1e-14 1) as [_|Hn]; [|lra].
    rewrite dot_vdivs_l. f_equal. field. lra. }
  unfold accelerated. cbn [current_u_]. rewrite Hmin, Hcol.
  rewrite lookup_mix; try done.
  - change (Z.to_nat 1) with 1%nat. rewrite sum_upto_S. unfold sum_upto.
    cbn [seq fold_left]. rewrite Hcoeff, Hth.
    rewrite (list_lookup_total_correct _ _ _ Hsc).
    rewrite <- (norm_sqr raw). cbn [Ssub Sadd Smul Sdiv Szero RealOps].
    f_equal. field. lra.
  - rewrite HfGl. lia.
  - rewrite length_normal_equations, (wf_theta s Hs). lia.
  - rewrite length_finalize_scale, (wf_scale s Hs). lia.
Qed.

(** X9.  In exact arithmetic, on a call with a single active column
    ([m_k = 1]) whose residual increment [raw] (the seed plus this call's
    residual, before normalisation) is longer than [1e-14], the stored
    scale cancels: the returned iterate is
    [g - dG * (raw . F) / (raw . raw)], the least-squares secant step on
    the increments [dG] of the evaluations and [raw] of the residuals. *)
Theorem single_column_step_is_secant s (g : ScalarPtr R) :
  Reachable cod_solve s -> Z.min (m_ s) (iter_ s) = 1%Z ->
  let d := Z.to_nat (dim_ s) in
  let G := map g (seq 0 d) in
  let F := vsub G (current_u_ s) in
  let raw := vadd (col (prev_dF_ s) 0) F in
  let dG := vadd (col (prev_dG_ s) 0) G in
  1e-14 < norm raw ->
  exists s' u,
    compute cod_solve s g = Ok (s', u) /\ length u = d /\
    forall i, (i < d)%nat ->
      u !! i = Some (g i - dG !!! i * (dot raw F / dot raw raw)).
Proof.
  intros Hr Hmin d G F raw dG Hraw.
  pose proof (Reachable_wf cod_solve s Hr) as Hs.
  pose proof (wf_dim s Hs) as Hd. pose proof (wf_m s Hs) as Hm.
  pose proof (compute_Ok cod_solve s g ltac:(lia) Hd) as Hc.
  cbv zeta in Hc. fold d G F in Hc.
  destruct (Z.eqb_spec (iter_ s) 0) as [?|_]; [lia|].
  assert (HG : length G = d) by (unfold G; by rewrite length_map, length_seq).
  assert (HF : length F = d).
  { unfold F, vsub. rewrite length_zip_with, HG, (wf_u s Hs). fold d. lia. }
  pose proof (wf_accelerated cod_solve s G F Hs ltac:(lia) HG HF) as Hs'.
  eexists _, _. split; [exact Hc|]. split; [by rewrite (wf_u _ Hs')|].
  intros i Hi. rewrite single_column_step by done. do 2 f_equal.
  unfold G. apply list_lookup_total_correct, lookup_Map_list. done.
Qed.

(** X10.  In exact arithmetic, for the scalar affine map
    [g(x) = a x + b] and any window: after [init(m, 1, {u0})], feeding
    [g(u0)] and then [g] of what the first call returned, the second call
    returns the fixed point [b / (1 - a)], provided the two residuals
    differ by more than [1e-14]. *)
Theorem affine_scalar_map_converges s m (u0 a b : R) fresh :
  (0 < m)%Z ->
  let gx := fun x => a * x + b in
  1e-14 < Rabs ((a - 1) * (gx u0 - u0)) ->
  exists s1 s2 s3,
    init s m 1 (fun _ => u0) fresh = Ok s1 /\
    compute cod_solve s1 (fun _ => gx u0) = Ok (s2, [gx u0]) /\
    compute cod_solve s2 (fun _ => gx (gx u0)) = Ok (s3, [b / (1 - a)]).
Proof.
  intros Hm gx Hgap.
  assert (Ha : a - 1 <> 0).
  { intros E. rewrite E, Rmult_0_l, Rabs_R0 in Hgap. lra. }
  assert (Hr0 : gx u0 - u0 <> 0).
  { intros E. rewrite E, Rmult_0_r, Rabs_R0 in Hgap. lra. }
  destruct (init_Ok s m 1 (fun _ => u0) fresh Hm ltac:(lia)) as [s1 Hinit].
  pose proof (wf_init _ _ _ _ _ _ Hinit) as Hs1.
  pose proof (init_inv _ _ _ _ _ _ Hinit) as (_ & _ & Es1).
  assert (Ed1 : dim_ s1 = 1%Z) by (by rewrite Es1).
  assert (Ei1 : iter_ s1 = 0%Z) by (by rewrite Es1).
  assert (Em1 : m_ s1 = m) by (by rewrite Es1).
  assert (Eu1 : current_u_ s1 = [u0]) by (by rewrite Es1).
  pose proof (compute_Ok cod_solve s1 (fun _ => gx u0) ltac:(lia) ltac:(lia)) as Hc1.
  cbv zeta in Hc1. rewrite Ei1, Ed1, Eu1 in Hc1.
  change (map (fun _ : nat => gx u0) (seq 0 (Z.to_nat 1))) with [gx u0] in Hc1.
  change (vsub [gx u0] [u0]) with [gx u0 - u0] in Hc1.
  change ((0 =? 0)%Z) with true in Hc1. cbv iota in Hc1.
  set (s2 := cold_start s1 [gx u0] [gx u0 - u0]) in Hc1.
  change (current_u_ s2) with [gx u0] in Hc1.
  pose proof (wf_compute cod_solve s1 _ s2 _ Hs1 Hc1) as Hs2.
  assert (Ed2 : dim_ s2 = 1%Z) by exact Ed1.
  assert (Ei2 : iter_ s2 = 1%Z) by (unfold s2, cold_start; cbn; by rewrite Ei1).
  assert (Em2 : m_ s2 = m) by exact Em1.
  destruct (wf_dG s1 Hs1) as [HG1 _]. destruct (wf_dF s1 Hs1) as [HF1 _].
  assert (EdF : col (prev_dF_ s2) 0 = [- (gx u0 - u0)]).
  { unfold s2, cold_start. cbn [prev_dF_]. apply col_set_col_eq. lia. }
  assert (EdG : col (prev_dG_ s2) 0 = [- gx u0]).
  { unfold s2, cold_start. cbn [prev_dG_]. apply col_set_col_eq. lia. }
  pose proof (compute_Ok cod_solve s2 (fun _ => gx (gx u0)) ltac:(lia) ltac:(lia))
    as Hc2.
  cbv zeta in Hc2. rewrite Ei2, Ed2 in Hc2.
  change (map (fun _ : nat => gx (gx u0)) (seq 0 (Z.to_nat 1)))
    with [gx (gx u0)] in Hc2.
  change (current_u_ s2) with [gx u0] in Hc2.
  change (vsub [gx (gx u0)] [gx u0]) with [gx (gx u0) - gx u0] in Hc2.
  change ((1 =? 0)%Z) with false in Hc2. cbv iota in Hc2.
  set (G := [gx (gx u0)]) in *. set (F := [gx (gx u0) - gx u0]) in *.
  pose proof (wf_accelerated cod_solve s2 G F Hs2 ltac:(lia)
                ltac:(by rewrite Ed2) ltac:(by rewrite Ed2)) as Hs3.
  assert (Hraw : vadd (col (prev_dF_ s2) 0) F
                 = [- (gx u0 - u0) + (gx (gx u0) - gx u0)])
    by (by rewrite EdF).
  assert (Hnorm : norm (vadd (col (prev_dF_ s2) 0) F)
                  = Rabs ((a - 1) * (gx u0 - u0))).
  { rewrite Hraw. unfold norm, squaredNorm, dot. simpl.
    rewrite Rplus_0_l. rewrite <- sqrt_Rsqr_abs. f_equal. unfold Rsqr, gx. ring. }
  pose proof (single_column_step s2 G F 0 Hs2 ltac:(rewrite Em2, Ei2; lia)
                ltac:(by rewrite Ed2) ltac:(by rewrite Ed2)
                ltac:(rewrite Hnorm; exact Hgap) ltac:(rewrite Ed2; lia)) as Hu.
  rewrite Hraw, EdG in Hu.
  pose proof (wf_u _ Hs3) as Hlen.
  change (dim_ (accelerated cod_solve s2 G F)) with (dim_ s2) in Hlen.
  rewrite Ed2 in Hlen.
  destruct (current_u_ (accelerated cod_solve s2 G F)) as [|x [|? ?]] eqn:Eu3;
    try discriminate Hlen.
  exists s1, s2, (accelerated cod_solve s2 G F).
  split; [exact Hinit|]. split; [exact Hc1|].
  assert (x = b / (1 - a)) as <-; [|exact Hc2].
  cbn in Hu. injection Hu as ->. unfold dot. simpl. unfold gx in *.
  field. split; [lra|].
  intros E.
  assert (E2 : (a - 1) * (a * u0 + b - u0) = 0) by (rewrite <- E; ring).
  apply Rmult_integral in E2. destruct E2; [by apply Ha|by apply Hr0].
Qed.
Lemma squaredNorm_residual F v (t : R) :
  length F = length v ->
  squaredNorm (vsub F (vscale t v)) =
  dot F F - 2 * t * dot v F + t * t * dot v v.
Proof.
  unfold squaredNorm. revert F.
  induction v as [|x v IH]; intros [|y F] Hl; try discriminate Hl.
  - unfold dot. simpl. lra.
  - change (vsub (y :: F) (vscale t (x :: v)))
      with ((y - t * x) :: vsub F (vscale t v)).
    rewrite !dot_cons, IH by (simpl in Hl; lia). ring.
Qed.

(** X11.  In exact arithmetic, on a call with a single active column
    ([m_k = 1]) that passes the guard of line 83, the coefficient stored in
    [theta_] is the least-squares solution: no multiple of the normalised
    residual increment [dF] is closer to the residual [F] than
    [theta * dF]. *)
Theorem single_column_theta_is_least_squares s (g : ScalarPtr R) :
  Reachable cod_solve s -> Z.min (m_ s) (iter_ s) = 1%Z ->
  let d := Z.to_nat (dim_ s) in
  let G := map g (seq 0 d) in
  let F := vsub G (current_u_ s) in
  let dF := col (finalize s G F).1.1 (Z.to_nat (col_idx_ s)) in
  1e-14 < norm dF ->
  exists s' u theta,
    compute cod_solve s g = Ok (s', u) /\
    theta_ s' !! 0%nat = Some theta /\
    forall t, squaredNorm (vsub F (vscale theta dF))
              <= squaredNorm (vsub F (vscale t dF)).
Proof.
  intros Hr Hmin d G F dF Hguard.
  pose proof (Reachable_wf cod_solve s Hr) as Hs.
  pose proof (wf_dim s Hs) as Hd. pose proof (wf_m s Hs) as Hm.
  pose proof (wf_col s Hs) as Hcol.
  pose proof (compute_Ok cod_solve s g ltac:(lia) Hd) as Hc.
  cbv zeta in Hc. fold d G F in Hc.
  destruct (Z.eqb_spec (iter_ s) 0) as [?|_]; [lia|].
  assert (HF : length F = d).
  { unfold F, G, vsub.
    rewrite length_zip_with, length_map, length_seq, (wf_u s Hs). fold d. lia. }
  assert (HdF : length dF = d).
  { apply (shape_col d (Z.to_nat (m_ s))); [|lia].
    by apply shape_finalize_dF. }
  assert (Hth : theta_ (accelerated cod_solve s G F) !! 0%nat
                = Some (dot dF F / (norm dF * norm dF))).
  { unfold accelerated. cbn [theta_]. rewrite Hmin.
    rewrite theta_single_column by (rewrite (wf_theta s Hs); lia).
    fold dF. by destruct (Rlt_dec 1e-14 (norm dF)). }
  eexists _, _, _. split; [exact Hc|]. split; [exact Hth|].
  intros t. rewrite !squaredNorm_residual by congruence.
  rewrite norm_sqr.
  assert (HD : 0 < dot dF dF).
  { rewrite <- norm_sqr. pose proof (norm_nonneg dF). nra. }
  set (D := dot dF dF) in *. set (vF := dot dF F) in *.
  assert (E : vF / D * D = vF) by (field; lra).
  set (q := vF / D) in *.
  assert (Hsq : 0 <= D * ((t - q) * (t - q))).
  { apply Rmult_le_pos; [lra|]. apply Rle_0_sqr. }
  nra.
Qed.
End ExactSteps.

Section NormalEquations.
Context {S : Type} {ops : ScalarOps S}.
Variable cod_solve : MatrixXX S -> VectorX S -> VectorX S.
Implicit Types (s : AndersonAcceleration S).

Hypothesis mul_comm : forall x y : S, Smul x y = Smul y x.

Lemma shape_leading_block n (A : MatrixXX S) k :
  shape n n A -> (k <= n)%nat -> shape k k (leading_block A k).
Proof.
  intros [Hl Hc] Hk. unfold leading_block. split.
  - rewrite length_map, length_take_le; lia.
  - rewrite Forall_fmap. apply Forall_take.
    eapply Forall_impl; [exact Hc|]. intros cj Hcj. simpl in Hcj |- *.
    rewrite length_take_le; lia.
Qed.

(** X12.  In every arithmetic whose multiplication commutes, on a call
    with more than one active column ([m_k > 1]) the solver is given the
    normal equations of the active normalised residual increments: an
    [m_k x m_k] matrix [A] with [A(i,j) = dF_i . dF_j] and a right hand
    side [b] of [m_k] entries [b_j = dF_j . F]; what it returns becomes the
    head of [theta_]. *)
Theorem solver_receives_normal_equations s (g : ScalarPtr S) :
  Reachable cod_solve s -> (1 < Z.min (m_ s) (iter_ s))%Z ->
  let d := Z.to_nat (dim_ s) in
  let G := map g (seq 0 d) in
  let F := vsub G (current_u_ s) in
  let dF := (finalize s G F).1.1 in
  let k := window s in
  exists s' u A b,
    compute cod_solve s g = Ok (s', u) /\
    theta_ s' = set_head (theta_ s) k (cod_solve A b) /\
    shape k k A /\ length b = k /\
    (forall i j, (i < k)%nat -> (j < k)%nat ->
                 coeff A i j = dot (col dF i) (col dF j)) /\
    (forall j, (j < k)%nat -> b !!! j = dot (col dF j) F).
Proof using mul_comm.
  intros Hr Hmin d G F dF k.
  pose proof (Reachable_wf cod_solve s Hr) as Hs.
  pose proof (wf_dim s Hs) as Hd. pose proof (wf_m s Hs) as Hm.
  pose proof (compute_Ok cod_solve s g ltac:(lia) Hd) as Hc.
  cbv zeta in Hc. fold d G F in Hc.
  destruct (Z.eqb_spec (iter_ s) 0) as [?|_]; [lia|].
  assert (HF : length F = d).
  { unfold F, G, vsub.
    rewrite length_zip_with, length_map, length_seq, (wf_u s Hs). fold d. lia. }
  pose proof (gram_block_accelerated cod_solve mul_comm s G F Hs ltac:(lia) HF
                (gram_of_completed_Reachable cod_solve mul_comm s Hr)) as Hblock.
  fold dF k in Hblock.
  pose proof (shape_finalize_dF s G F Hs HF) as [HDl _]. fold dF in HDl.
  pose proof (window_le s) as Hk. fold k in Hk.
  pose proof (wf_accelerated cod_solve s G F Hs ltac:(lia)
                ltac:(unfold G; by rewrite length_map, length_seq) HF) as Hs'.
  pose proof (wf_M _ Hs') as HM'.
  change (m_ (accelerated cod_solve s G F)) with (m_ s) in HM'.
  exists (accelerated cod_solve s G F), (current_u_ (accelerated cod_solve s G F)),
    (leading_block (M_ (accelerated cod_solve s G F)) k),
    (transpose_times (leading_cols dF k) F).
  split; [exact Hc|]. split.
  { unfold accelerated at 1. cbn [theta_].
    rewrite normal_equations_else by (apply Z.eqb_neq; lia). reflexivity. }
  split; [by apply (shape_leading_block (Z.to_nat (m_ s)))|].
  split; [unfold transpose_times, leading_cols;
          rewrite length_map, length_take_le; lia|].
  split.
  - intros i j Hi Hj.
    rewrite (coeff_leading_block (Z.to_nat (m_ s))) by done. by apply Hblock.
  - intros j Hj. unfold transpose_times, leading_cols, col.
    rewrite (list_lookup_total_fmap (fun cj => dot cj F) (take k dF) j)
      by (rewrite length_take_le; lia).
    by rewrite lookup_total_take_lt.
Qed.
End NormalEquations.

(** ** Binary64: a norm that is not a number *)

Lemma ltb_nan (a x : float) : PrimFloat.is_nan x = true -> PrimFloat.ltb a x = false.
Proof.
  unfold PrimFloat.is_nan. rewrite FloatAxioms.eqb_spec, FloatAxioms.ltb_spec.
  unfold SFeqb, SFltb.
  destruct (Prim2SF x) as [sx|sx| |sx mx ex]; simpl.
  - by destruct sx.
  - by destruct sx.
  - intros _. by destruct (Prim2SF a) as [sa|sa| |sa ma ea].
  - rewrite Z.compare_refl, Pos.compare_cont_refl. by destruct sx.
Qed.

(** X13.  In binary64, on a call with [iter_ >= 1]: when the norm of the
    residual increment is a NaN (an evaluation with a NaN or an infinity in
    it), [std::max(eps, norm)] keeps [eps], since [eps < NaN] is false, and
    the scale stored at the write index is [eps]; in every case every scale
    in the window is at least [eps] after the call, so that no later
    division by a stored scale is a division by zero or by a NaN. *)
Theorem nan_norm_is_clamped_to_eps cod_solve (s : AndersonAcceleration float)
    (g : ScalarPtr float) s' u :
  Reachable cod_solve s -> (1 <= iter_ s)%Z ->
  compute cod_solve s g = Ok (s', u) ->
  let d := Z.to_nat (dim_ s) in
  let G := map g (seq 0 d) in
  let F := vsub G (current_u_ s) in
  let c := Z.to_nat (col_idx_ s) in
  (PrimFloat.is_nan (norm (vadd (col (prev_dF_ s) c) F)) = true ->
   dF_scale_ s' !! c = Some Seps) /\
  (forall j, (j < window s)%nat ->
             PrimFloat.leb Seps (dF_scale_ s' !!! j) = true).
Proof.
  intros Hr Hi Hc d G F c.
  pose proof (Reachable_wf cod_solve s Hr) as Hs.
  apply compute_inv in Hc as (_ & _ & _ & ->). fold d G F.
  destruct (Z.eqb_spec (iter_ s) 0) as [?|_]; [lia|].
  unfold accelerated. cbn [dF_scale_]. split.
  - intros Hnan. destruct (finalize_scale_at s G F Hs) as [Hsc _]. fold c in Hsc.
    rewrite Hsc. unfold std_max.
    change (Sltb Seps (norm (vadd (col (prev_dF_ s) c) F)))
      with (PrimFloat.ltb Seps (norm (vadd (col (prev_dF_ s) c) F))).
    by rewrite ltb_nan.
  - intros j Hj. apply double_clamped_ge.
    apply finalize_scale_clamped; [done|lia| |done].
    by apply (scales_clamped_Reachable cod_solve).
Qed.

(** * The further properties on the runs *)

Lemma double_pair_Reachable : Reachable jacobi_solve double_pair.
Proof. apply Reachable_after. exact I. Qed.

(** The second call of the run in binary64: [compute({3})] returns [-1]. *)
Lemma double_pair_step :
  compute jacobi_solve (double_run 8%float) (ptr_of [3%float])
  = Ok (double_pair, [(-1)%float]).
Proof. by vm_compute. Qed.

(** The third call: [compute({2})] returns [-1] again. *)
Lemma double_triple_step :
  compute jacobi_solve double_pair (ptr_of [2%float])
  = Ok (double_triple, [(-1)%float]).
Proof. by vm_compute. Qed.

Lemma write_index_follows_counter_example :
  (0 <= col_idx_ (double_run 8%float) < m_ (double_run 8%float))%Z.
Proof.
  exact (proj1 (proj2 (proj2 (write_index_follows_counter jacobi_solve _
                                (double_run_Reachable 8%float))))).
Defined.

(** [init(0, 1, {0})] on a constructed instance. *)
Lemma init_checks_sizes_example :
  init constructed 0 1 (ptr_of [0%float]) (uninit_with 7%float 8%float)
  = Abort AssertionFailed.
Proof.
  apply (proj1 (init_checks_sizes constructed 0 1 (ptr_of [0%float])
                  (uninit_with 7%float 8%float))).
  lia.
Defined.

(** [compute({3})], [replace({9})] and [compute({2})] after the first call
    of a run in binary64. *)
Lemma run_counts_computes_example :
  exists s' us,
    run jacobi_solve (double_run 8%float)
      [Compute (ptr_of [3%float]); Replace (ptr_of [9%float]);
       Compute (ptr_of [2%float])] = Ok (s', us) /\
    iter_ s' = 3%Z /\ length us = 2%nat.
Proof.
  destruct (run_counts_computes jacobi_solve (double_run 8%float)
              [Compute (ptr_of [3%float]); Replace (ptr_of [9%float]);
               Compute (ptr_of [2%float])] (double_run_Reachable _))
    as (s' & us & Hrun & Hit & _ & _ & Hl & _).
  - by vm_compute.
  - by repeat constructor.
  - by vm_compute.
  - exists s', us. split; [exact Hrun|]. split; [exact Hit|exact Hl].
Defined.

Lemma compute_writes_two_slots_example :
  m_ double_pair = m_ (double_run 8%float) /\
  dim_ double_pair = dim_ (double_run 8%float).
Proof.
  exact (proj2 (proj2 (compute_writes_two_slots jacobi_solve (double_run 8%float)
                         (ptr_of [3%float]) double_pair [(-1)%float]
                         (double_run_Reachable _) double_pair_step))).
Defined.

(** [compute({3})] and [compute({2})] after the first call: the first
    returns [-1], so that the second residual is [2 - (-1)]. *)
Lemma consecutive_calls_store_increments_example :
  current_F_ double_triple = vsub [2%float] [(-1)%float] /\
  col (prev_dG_ double_triple) 1 = vadd (vneg [3%float]) [2%float].
Proof.
  destruct (consecutive_calls_store_increments jacobi_solve (double_run 8%float)
              (ptr_of [3%float]) (ptr_of [2%float]) double_pair [(-1)%float]
              double_triple [(-1)%float] (double_run_Reachable _))
    as (_ & _ & HF & HG & _).
  - by vm_compute.
  - exact double_pair_step.
  - exact double_triple_step.
  - split; [exact HF|exact HG].
Defined.

(** A ring of one slot, with [jacobi_solve] and with a solver that returns
    its right hand side. *)
Lemma single_slot_never_solves_example :
  run jacobi_solve double_ring
    [Compute (ptr_of [2%float]); Replace (ptr_of [9%float]);
     Compute (ptr_of [4%float])]
  = run (fun _ b => b) double_ring
      [Compute (ptr_of [2%float]); Replace (ptr_of [9%float]);
       Compute (ptr_of [4%float])].
Proof.
  apply single_slot_never_solves.
  - reflexivity.
  - by repeat constructor.
Defined.

Lemma scratch_members_do_not_influence_example :
  returned (run jacobi_solve (double_run 8%float)
              [Compute (ptr_of [3%float]); Compute (ptr_of [2%float])])
  = returned (run jacobi_solve
                (with_scratch (double_run 8%float) [5%float; 5%float]
                   [6%float] 4%float)
                [Compute (ptr_of [3%float]); Compute (ptr_of [2%float])]).
Proof.
  apply scratch_members_do_not_influence.
  - apply double_run_Reachable.
  - reflexivity.
Defined.

(** The third call of the run in binary64, with both slots active. *)
Lemma solver_receives_normal_equations_example :
  exists s' u A b,
    compute jacobi_solve double_pair (ptr_of [2%float]) = Ok (s', u) /\
    theta_ s' = set_head (theta_ double_pair) 2 (jacobi_solve A b) /\
    length b = 2%nat.
Proof.
  destruct (solver_receives_normal_equations (ops:=DoubleOps) jacobi_solve
              double_mul_comm double_pair (ptr_of [2%float])
              double_pair_Reachable)
    as (s' & u & A & b & Hc & Hth & _ & Hb & _).
  - by vm_compute.
  - exists s', u, A, b. split; [exact Hc|]. split; [exact Hth|exact Hb].
Defined.

(** The residual increment of the second call of the run in exact
    arithmetic, before normalisation, and its norm. *)
Lemma real_run_raw :
  vadd (col (prev_dF_ real_run) 0)
       (vsub (map (ptr_of [3%R]) (seq 0 (Z.to_nat (dim_ real_run))))
             (current_u_ real_run))
  = [(- (1 - 0) + (3 - 1))%R].
Proof. reflexivity. Qed.

Lemma real_run_raw_norm : norm [(- (1 - 0) + (3 - 1))%R] = 1%R.
Proof.
  unfold norm, squaredNorm, dot. cbn [zip_with fold_left].
  cbn [Ssqrt Sadd Smul Szero RealOps].
  apply sqrt_lem_1; lra.
Qed.

(** The second call of the run with one slot, in exact arithmetic. *)
Lemma active_columns_are_unit_scaled_example :
  exists s' u,
    compute jacobi_solve real_run (ptr_of [3%R]) = Ok (s', u) /\
    (0 <= coeff (M_ s') 0 0 <= 1)%R.
Proof.
  destruct (active_columns_are_unit_scaled jacobi_solve real_run (ptr_of [3%R])
              real_run_Reachable) as (s' & u & Hc & _ & _ & HM).
  - by lazy.
  - exists s', u. split; [exact Hc|]. apply HM. lazy. lia.
Defined.

Lemma single_column_step_is_secant_example :
  exists s' u,
    compute jacobi_solve real_run (ptr_of [3%R]) = Ok (s', u) /\
    length u = 1%nat.
Proof.
  destruct (single_column_step_is_secant jacobi_solve real_run (ptr_of [3%R])
              real_run_Reachable) as (s' & u & Hc & Hl & _).
  - reflexivity.
  - rewrite real_run_raw, real_run_raw_norm. lra.
  - exists s', u. split; [exact Hc|exact Hl].
Defined.

(** The map [g(x) = x / 2 + 1] from [u0 = 0], with one slot: the second
    call returns its fixed point. *)
Lemma affine_scalar_map_converges_example :
  exists s1 s2 s3,
    init constructed 1 1 (fun _ => 0%R) (uninit_with 0%R 0%R) = Ok s1 /\
    compute jacobi_solve s1 (fun _ => (1 / 2 * 0 + 1)%R)
      = Ok (s2, [(1 / 2 * 0 + 1)%R]) /\
    compute jacobi_solve s2 (fun _ => (1 / 2 * (1 / 2 * 0 + 1) + 1)%R)
      = Ok (s3, [(1 / (1 - 1 / 2))%R]).
Proof.
  apply (affine_scalar_map_converges jacobi_solve constructed 1 0%R (1 / 2)%R
           1%R (uninit_with 0%R 0%R)); [lia|].
  replace ((1 / 2 - 1) * (1 / 2 * 0 + 1 - 0))%R with (- (1 / 2))%R by lra.
  rewrite Rabs_Ropp, Rabs_pos_eq; lra.
Defined.

Lemma single_column_theta_is_least_squares_example :
  exists s' u theta,
    compute jacobi_solve real_run (ptr_of [3%R]) = Ok (s', u) /\
    theta_ s' !! 0%nat = Some theta.
Proof.
  destruct (single_column_theta_is_least_squares jacobi_solve real_run
              (ptr_of [3%R]) real_run_Reachable)
    as (s' & u & theta & Hc & Hth & _).
  - reflexivity.
  - destruct (finalize_scale_at real_run
                (map (ptr_of [3%R]) (seq 0 (Z.to_nat (dim_ real_run))))
                (vsub (map (ptr_of [3%R]) (seq 0 (Z.to_nat (dim_ real_run))))
                      (current_u_ real_run))
                (Reachable_wf jacobi_solve _ real_run_Reachable)) as [_ Hcol].
    rewrite Hcol, std_max_Rmax.
    apply guard_on_normalised_column.
    change (Z.to_nat (col_idx_ real_run)) with 0%nat.
    rewrite real_run_raw, real_run_raw_norm. lra.
  - exists s', u, theta. split; [exact Hc|exact Hth].
Defined.

(** [compute({nan})] as the second call of the run in binary64. *)
Lemma nan_norm_is_clamped_to_eps_example :
  exists s' u,
    compute jacobi_solve (double_run 8%float) (ptr_of [nan]) = Ok (s', u) /\
    dF_scale_ s' !! 0%nat = Some Seps /\
    PrimFloat.leb Seps (dF_scale_ s' !!! 0%nat) = true.
Proof.
  edestruct (nan_norm_is_clamped_to_eps jacobi_solve (double_run 8%float)
               (ptr_of [nan])) as [Hnan Hall].
  - apply double_run_Reachable.
  - by vm_compute.
  - by vm_compute.
  - do 2 eexists. split; [by vm_compute|].
    split; [apply Hnan|apply Hall]; by vm_compute.
Defined.
